(** * CR7 Script front end: scanner and recursive-descent recognizer

    A shallow embedding of [cr7_compiler.py] and [cr7_gui.py].

    - Source text is a [string]; a character is an [ascii], read as a code
      point below 256.  The two Unicode-aware regex classes ([\w], [\d]) are
      the ASCII classes on code points below 128; what they accept above is
      decided by Python's Unicode tables, which are parameters here.
    - A token is a pair of strings (kind, value), as in the source.
    - The recognizer is a state-and-exception monad over the cursor [pos] and
      the lines written so far; its loops and its recursion consume fuel.
    - Python's limit on the depth of recursion is modelled apart, in
      [Frames]: the same procedures where every call takes a frame and
      [RecursionError] is raised when none is left. *)

From Stdlib Require Import String Ascii List Bool Arith NArith Lia.
Import ListNotations.

Open Scope list_scope.
Open Scope string_scope.

(** ** Characters *)

Definition LF : ascii := "010"%char.
Definition TAB : ascii := "009"%char.
Definition SPACE : ascii := " "%char.
Definition DQUOTE : ascii := "034"%char.

Definition in_range (lo hi c : ascii) : bool :=
  (N_of_ascii lo <=? N_of_ascii c)%N && (N_of_ascii c <=? N_of_ascii hi)%N.

Definition is_ascii (c : ascii) : bool := (N_of_ascii c <? 128)%N.

(** [[A-Za-z_]] *)
Definition is_id_start (c : ascii) : bool :=
  in_range "A" "Z" c || in_range "a" "z" c || Ascii.eqb c "_".

(** [[+\-*/<>!=]] *)
Definition is_op_char (c : ascii) : bool :=
  existsb (Ascii.eqb c) ["+"; "-"; "*"; "/"; "<"; ">"; "!"; "="]%char.

(** [[ \t]] *)
Definition is_blank (c : ascii) : bool := Ascii.eqb c SPACE || Ascii.eqb c TAB.

(** [.] without DOTALL: anything but a line feed. *)
Definition is_dot (c : ascii) : bool := negb (Ascii.eqb c LF).

(** Any character but the double quote: the class inside a string literal. *)
Definition is_not_quote (c : ascii) : bool := negb (Ascii.eqb c DQUOTE).

(** The longest prefix of [s] whose characters satisfy [p], and what is left:
    a greedy [p*] at the end of a pattern. *)
Fixpoint span (p : ascii -> bool) (s : string) : string * string :=
  match s with
  | String c r =>
      if p c then let (a, b) := span p r in (String c a, b)
      else (EmptyString, s)
  | EmptyString => (EmptyString, EmptyString)
  end.

(** A greedy [p+]. *)
Definition span1 (p : ascii -> bool) (s : string) : option (string * string) :=
  match span p s with
  | (EmptyString, _) => None
  | (a, b) => Some (a, b)
  end.

(** A single literal character. *)
Definition lit (c : ascii) (s : string) : option (string * string) :=
  match s with
  | String d r => if Ascii.eqb d c then Some (String d EmptyString, r) else None
  | EmptyString => None
  end.

(** [x in (a, b, ...)] on strings. *)
Definition in_ (x : string) (l : list string) : bool := existsb (String.eqb x) l.

(** [str.join] with the empty separator. *)
Definition join (l : list string) : string := fold_right append "" l.

(** Whether every character of [s] satisfies [p]. *)
Fixpoint all (p : ascii -> bool) (s : string) : bool :=
  match s with
  | String c r => p c && all p r
  | EmptyString => true
  end.

(** ** Tokens *)

(** A token: its kind and its value (the matched text). *)
Definition token : Type := string * string.

(** What [tokenize] gives: the tokens, or the [RuntimeError] it raises at the
    first character no pattern but [MISMATCH] matches. *)
Inductive lex_result : Type :=
| Tokens (tokens : list token)
| RuntimeError (message : string).

(** [KEYWORDS] of [cr7_compiler.py], in the order of the dict. *)
Definition KEYWORDS : list (string * list string) :=
  [ ("FUNCTION", ["play"; "kickoff"; "whistle"]);
    ("TYPE",     ["goal"; "player"; "flag"; "match"]);
    ("CONTROL",  ["referee"; "bench"; "practice"; "drill"]);
    ("INPUT",    ["listen"]);
    ("OUTPUT",   ["announce"]);
    ("META",     ["#import"; "stadium"]) ].

(** [KEYWORDS] of [cr7_gui.py]: the same groups, [OUTPUT] before [INPUT]. *)
Definition KEYWORDS_gui : list (string * list string) :=
  [ ("FUNCTION", ["play"; "kickoff"; "whistle"]);
    ("TYPE",     ["goal"; "player"; "flag"; "match"]);
    ("CONTROL",  ["referee"; "bench"; "practice"; "drill"]);
    ("OUTPUT",   ["announce"]);
    ("INPUT",    ["listen"]);
    ("META",     ["#import"; "stadium"]) ].

(** ** The scanner *)

Module Scanner.
Section WithUnicode.

(** What Python's Unicode tables say of a code point above 127: whether
    [\w] and [\d] accept it. *)
Variable unicode_word : ascii -> bool.
Variable unicode_digit : ascii -> bool.

(** [\d] *)
Definition is_digit (c : ascii) : bool :=
  if is_ascii c then in_range "0" "9" c else unicode_digit c.

(** [\w] *)
Definition is_word (c : ascii) : bool :=
  if is_ascii c
  then in_range "a" "z" c || in_range "A" "Z" c || in_range "0" "9" c
       || Ascii.eqb c "_"
  else unicode_word c.

(** Each pattern of [token_specification], as a function from the text at
    the current position to the matched text and the rest. *)

(** [#\w+] *)
Definition re_META (s : string) : option (string * string) :=
  match s with
  | String c r =>
      if Ascii.eqb c "#" then
        match span1 is_word r with
        | Some (w, rest) => Some (String c w, rest)
        | None => None
        end
      else None
  | EmptyString => None
  end.

(** [//.*] *)
Definition re_COMMENT (s : string) : option (string * string) :=
  match s with
  | String c r =>
      if Ascii.eqb c "/" then
        match r with
        | String c' r' =>
            if Ascii.eqb c' "/" then
              let (body, rest) := span is_dot r' in
              Some (String c (String c' body), rest)
            else None
        | EmptyString => None
        end
      else None
  | EmptyString => None
  end.

(** [\d+(\.\d+)?] *)
Definition re_NUMBER (s : string) : option (string * string) :=
  match span1 is_digit s with
  | Some (int_part, r) =>
      match r with
      | String c r' =>
          if Ascii.eqb c "." then
            match span1 is_digit r' with
            | Some (frac, rest) => Some (int_part ++ String c frac, rest)
            | None => Some (int_part, r)
            end
          else Some (int_part, r)
      | EmptyString => Some (int_part, r)
      end
  | None => None
  end.

(** A double quote, any run of other characters, a double quote. *)
Definition re_STRING (s : string) : option (string * string) :=
  match s with
  | String d r =>
      if Ascii.eqb d DQUOTE then
        let (body, r') := span is_not_quote r in
        match r' with
        | String d' rest =>
            Some (String d (body ++ String d' EmptyString), rest)
        | EmptyString => None
        end
      else None
  | EmptyString => None
  end.

(** [[A-Za-z_]\w*] *)
Definition re_ID (s : string) : option (string * string) :=
  match s with
  | String c r =>
      if is_id_start c then
        let (w, rest) := span is_word r in Some (String c w, rest)
      else None
  | EmptyString => None
  end.

(** [.] *)
Definition re_MISMATCH (s : string) : option (string * string) :=
  match s with
  | String c r => if is_dot c then Some (String c EmptyString, r) else None
  | EmptyString => None
  end.

Definition token_specification
  : list (string * (string -> option (string * string))) :=
  [ ("META",     re_META);
    ("COMMENT",  re_COMMENT);
    ("NUMBER",   re_NUMBER);
    ("ASSIGN",   lit "=");
    ("COMMA",    lit ",");
    ("END",      lit ";");
    ("LPAREN",   lit "(");
    ("RPAREN",   lit ")");
    ("LBRACE",   lit "{");
    ("RBRACE",   lit "}");
    ("STRING",   re_STRING);
    ("ID",       re_ID);
    ("OP",       span1 is_op_char);
    ("NEWLINE",  lit LF);
    ("SKIP",     span1 is_blank);
    ("MISMATCH", re_MISMATCH) ].

(** [token_regex]: the named alternatives joined by [|]; the first one that
    matches at the position wins, and [lastgroup] is its name. *)
Fixpoint alternation (spec : list (string * (string -> option (string * string))))
    (s : string) : option (string * string * string) :=
  match spec with
  | [] => None
  | (name, re) :: more =>
      match re s with
      | Some (value, rest) => Some (name, value, rest)
      | None => alternation more s
      end
  end.

Definition token_regex : string -> option (string * string * string) :=
  alternation token_specification.

(** [re.finditer(token_regex, code)]: the successive matches, each one
    searched from the end of the one before; a position where nothing
    matches is skipped.  No match is empty, so the length of the text is
    fuel enough. *)
Fixpoint finditer_from (fuel : nat) (s : string) : list (string * string) :=
  match fuel with
  | O => []
  | S fuel' =>
      match s with
      | EmptyString => []
      | String _ r =>
          match token_regex s with
          | Some (name, value, rest) => (name, value) :: finditer_from fuel' rest
          | None => finditer_from fuel' r
          end
      end
  end.

Definition finditer (code : string) : list (string * string) :=
  finditer_from (String.length code) code.

(** The loop of [tokenize] over the matches, [tokens] being the list built
    so far.  The keyword table is a parameter: the two files declare the
    same groups in two orders. *)
Section Tokenize.
Variable keywords : list (string * list string).

(** The [for group_name, words in KEYWORDS.items()] loop of the [ID]
    branch, from the kind [kind] the token has before it. *)
Fixpoint keyword_kind (kw : list (string * list string))
    (kind value : string) : string :=
  match kw with
  | [] => kind
  | (group_name, words) :: more =>
      if existsb (String.eqb value) words
      then group_name ++ "_KEYWORD"
      else keyword_kind more kind value
  end.

Fixpoint tokenize_loop (matches : list (string * string))
    (tokens : list token) : lex_result :=
  match matches with
  | [] => Tokens (tokens ++ [("EOF", "")])%list
  | (kind, value) :: more =>
      if kind =? "COMMENT" then tokenize_loop more tokens
      else if kind =? "META" then
        tokenize_loop more (tokens ++ [("META_KEYWORD", value)])%list
      else if kind =? "ID" then
        tokenize_loop more
          (tokens ++ [(keyword_kind keywords kind value, value)])%list
      else if (kind =? "SKIP") || (kind =? "NEWLINE") then
        tokenize_loop more tokens
      else if kind =? "MISMATCH" then
        RuntimeError ("Unexpected token: " ++ value)
      else tokenize_loop more (tokens ++ [(kind, value)])%list
  end.

Definition tokenize_with (code : string) : lex_result :=
  tokenize_loop (finditer code) [].
End Tokenize.

(** [tokenize] of [cr7_compiler.py]. *)
Definition tokenize : string -> lex_result := tokenize_with KEYWORDS.

(** [tokenize] of [cr7_gui.py]. *)
Definition tokenize_gui : string -> lex_result := tokenize_with KEYWORDS_gui.

End WithUnicode.
End Scanner.

(** ** The recognizer *)

Module Recognizer.

(** The state of a [CR7Parser]: the cursor [self.pos] and the lines written
    so far, by [print] in [cr7_compiler.py] and by [self.log] in
    [cr7_gui.py] (the colour tag is not kept).  [self.tokens] is never
    assigned after [__init__] and is a parameter of the procedures. *)
Record state : Type := mkState { pos : nat; out : list string }.

(** What ends a procedure early: [SystemExit] raised by [error],
    [IndexError] raised by [self.tokens[self.pos]], and the fuel of the
    model running out. *)
Inductive exn : Type := SystemExit | IndexError | OutOfFuel.

Inductive result (A : Type) : Type :=
| Return (a : A) (s : state)
| Raise (e : exn) (s : state).
Arguments Return {A} a s.
Arguments Raise {A} e s.

Definition M (A : Type) : Type := state -> result A.

Definition ret {A} (a : A) : M A := fun s => Return a s.
Definition raise {A} (e : exn) : M A := fun s => Raise e s.
Definition bind {A B} (m : M A) (k : A -> M B) : M B :=
  fun s => match m s with
           | Return a s' => k a s'
           | Raise e s' => Raise e s'
           end.

Declare Scope parser_scope.
Delimit Scope parser_scope with parser.
Notation "x <- m ;; k" := (bind m (fun x => k))
  (at level 61, m at next level, right associativity) : parser_scope.
Notation "m ;; k" := (bind m (fun _ => k))
  (at level 61, right associativity) : parser_scope.
Open Scope parser_scope.

(** The state a run ends in. *)
Definition final {A} (r : result A) : state :=
  match r with Return _ s | Raise _ s => s end.

(** [while cond: body], one unit of fuel per test of the condition. *)
Fixpoint while_ (fuel : nat) (cond : M bool) (body : M unit) : M unit :=
  match fuel with
  | O => raise OutOfFuel
  | S fuel' => b <- cond ;; if b then body ;; while_ fuel' cond body else ret tt
  end.

(** The two recognizers: they differ in [parse_function] and [parse_factor]. *)
Inductive source_file : Type := cr7_compiler | cr7_gui.

(** [CR7Parser(tokens)]: a fresh cursor and nothing written. *)
Definition CR7Parser : state := mkState 0 [].

Section Procedures.

Variable file : source_file.
Variable tokens : list token.

Definition log (msg : string) : M unit :=
  fun s => Return tt (mkState (pos s) (out s ++ [msg])).

Definition current_token : M token :=
  fun s => match nth_error tokens (pos s) with
           | Some t => Return t s
           | None => Raise IndexError s
           end.

Definition lookahead (n : nat) : M token :=
  fun s => if (pos s + n <? List.length tokens)%nat
           then Return (nth (pos s + n) tokens ("EOF", "")) s
           else Return ("EOF", "") s.

(** [self.pos += 1] *)
Definition advance : M unit :=
  fun s => Return tt (mkState (pos s + 1) (out s)).

Definition error {A} (msg : string) (actual_kind actual_value : option string)
    : M A :=
  actual <- match actual_kind, actual_value with
            | Some k, Some v => ret (k, v)
            | _, _ => current_token
            end ;;
  log ("[Syntax Error] " ++ msg ++ " at token '" ++ snd actual
       ++ "' (type " ++ fst actual ++ ")") ;;
  raise SystemExit.

Definition match_ (expected_type : string) (expected_value : option string)
    : M string :=
  t <- current_token ;;
  let (kind, value) := t in
  if (kind =? expected_type)
     && match expected_value with
        | None => true
        | Some v => value =? v
        end
  then advance ;; ret value
  else error ("Expected " ++ expected_type
              ++ match expected_value with
                 | None | Some "" => ""
                 | Some v => "('" ++ v ++ "')"
                 end)
             (Some kind) (Some value).

Definition kind_is (k : string) : M bool :=
  t <- current_token ;; ret (fst t =? k).

Definition parse_meta : M unit :=
  match_ "META_KEYWORD" (Some "#import") ;;
  t <- current_token ;;
  (if snd t =? "stadium"
   then match_ "META_KEYWORD" (Some "stadium") ;; ret tt
   else error "Expected 'stadium' after #import" None None) ;;
  log "→ Meta statement parsed (#import stadium)".

Definition parse_param_list (fuel : nat) : M unit :=
  t <- current_token ;;
  if fst t =? "TYPE_KEYWORD" then
    match_ "TYPE_KEYWORD" None ;;
    match_ "ID" None ;;
    while_ fuel (kind_is "COMMA")
      (match_ "COMMA" None ;;
       match_ "TYPE_KEYWORD" None ;;
       match_ "ID" None ;; ret tt)
  else ret tt.

(** [parse_expr], [parse_term] and [parse_factor]. *)
Fixpoint parse_expr (fuel : nat) : M unit :=
  match fuel with
  | O => raise OutOfFuel
  | S fuel' =>
      parse_term fuel' ;;
      while_ fuel'
        (t <- current_token ;; ret ((fst t =? "OP") && in_ (snd t) ["+"; "-"]))
        (match_ "OP" None ;; parse_term fuel')
  end
with parse_term (fuel : nat) : M unit :=
  match fuel with
  | O => raise OutOfFuel
  | S fuel' =>
      parse_factor fuel' ;;
      while_ fuel'
        (t <- current_token ;; ret ((fst t =? "OP") && in_ (snd t) ["*"; "/"]))
        (match_ "OP" None ;; parse_factor fuel')
  end
with parse_factor (fuel : nat) : M unit :=
  match fuel with
  | O => raise OutOfFuel
  | S fuel' =>
      t <- current_token ;;
      let (kind, value) := t in
      match file with
      | cr7_compiler =>
          if in_ kind ["NUMBER"; "STRING"; "ID"] then
            match_ kind None ;; ret tt
          else if kind =? "LPAREN" then
            match_ "LPAREN" None ;;
            parse_expr fuel' ;;
            match_ "RPAREN" None ;; ret tt
          else error "Invalid factor" None None
      | cr7_gui =>
          if in_ kind ["ID"; "FUNCTION_KEYWORD"] then
            next <- lookahead 1 ;;
            if fst next =? "LPAREN" then
              ident <- match_ kind None ;;
              match_ "LPAREN" None ;;
              t' <- current_token ;;
              (if negb (fst t' =? "RPAREN") then
                 parse_expr fuel' ;;
                 while_ fuel' (kind_is "COMMA")
                   (match_ "COMMA" None ;; parse_expr fuel')
               else ret tt) ;;
              match_ "RPAREN" None ;;
              log ("→ Function call parsed (" ++ ident ++ ")")
            else match_ kind None ;; ret tt
          else if in_ kind ["NUMBER"; "STRING"] then
            match_ kind None ;; ret tt
          else if kind =? "LPAREN" then
            match_ "LPAREN" None ;;
            parse_expr fuel' ;;
            match_ "RPAREN" None ;; ret tt
          else error "Invalid factor" None None
      end
  end.

Definition parse_condition (fuel : nat) : M unit :=
  parse_expr fuel ;;
  t <- current_token ;;
  if fst t =? "OP" then
    match_ "OP" None ;;
    parse_expr fuel
  else error "Expected relational operator in condition" None None.

Definition parse_declaration (fuel : nat) : M unit :=
  match_ "TYPE_KEYWORD" None ;;
  match_ "ID" None ;;
  t <- current_token ;;
  (if fst t =? "ASSIGN" then
     match_ "ASSIGN" None ;;
     parse_expr fuel
   else ret tt) ;;
  match_ "END" None ;;
  log "→ Declaration parsed".

Definition parse_assignment (fuel : nat) : M unit :=
  match_ "ID" None ;;
  match_ "ASSIGN" None ;;
  parse_expr fuel ;;
  match_ "END" None ;;
  log "→ Assignment parsed".

Definition parse_declaration_in_for (fuel : nat) : M unit :=
  match_ "TYPE_KEYWORD" None ;;
  match_ "ID" None ;;
  t <- current_token ;;
  (if fst t =? "ASSIGN" then
     match_ "ASSIGN" None ;;
     parse_expr fuel
   else ret tt) ;;
  log "→ For-init declaration parsed".

Definition parse_assignment_in_for (fuel : nat) : M unit :=
  match_ "ID" None ;;
  t <- current_token ;;
  let (kind, value) := t in
  if kind =? "ASSIGN" then
    match_ "ASSIGN" None ;;
    parse_expr fuel ;;
    log "→ For-update parsed (assignment)"
  else if (kind =? "OP") && in_ value ["++"; "--"] then
    match_ "OP" None ;;
    log "→ For-update parsed (increment/decrement)"
  else error "Expected '=' or '++'/'--' in for update" None None.

Definition parse_output (fuel : nat) : M unit :=
  match_ "OUTPUT_KEYWORD" None ;;
  parse_expr fuel ;;
  match_ "END" None ;;
  log "→ Output parsed".

Definition parse_input : M unit :=
  match_ "INPUT_KEYWORD" None ;;
  match_ "ID" None ;;
  match_ "END" None ;;
  log "→ Input parsed".

Definition parse_return (fuel : nat) : M unit :=
  match_ "FUNCTION_KEYWORD" (Some "whistle") ;;
  parse_expr fuel ;;
  match_ "END" None ;;
  log "→ Return parsed".

(** The condition of the loop of [parse_statement_list]. *)
Definition more_statements : M bool :=
  t <- current_token ;; ret (negb (in_ (fst t) ["EOF"; "RBRACE"])).

(** [parse_statement_list], [parse_statement] and the statements that hold
    a block. *)
Fixpoint parse_statement_list (fuel : nat) : M unit :=
  match fuel with
  | O => raise OutOfFuel
  | S fuel' => while_ fuel' more_statements (parse_statement fuel')
  end
with parse_statement (fuel : nat) : M unit :=
  match fuel with
  | O => raise OutOfFuel
  | S fuel' =>
      t <- current_token ;;
      let (kind, value) := t in
      if kind =? "TYPE_KEYWORD" then parse_declaration fuel'
      else if kind =? "ID" then parse_assignment fuel'
      else if kind =? "CONTROL_KEYWORD" then
        if value =? "referee" then parse_if fuel'
        else if value =? "practice" then parse_while fuel'
        else if value =? "drill" then parse_for fuel'
        else if value =? "bench" then ret tt
        else error ("Unknown control keyword '" ++ value ++ "'")
                   (Some kind) (Some value)
      else if kind =? "OUTPUT_KEYWORD" then parse_output fuel'
      else if kind =? "INPUT_KEYWORD" then parse_input
      else if (kind =? "FUNCTION_KEYWORD") && (value =? "whistle") then
        parse_return fuel'
      else error ("Unexpected statement start: " ++ value)
                 (Some kind) (Some value)
  end
with parse_if (fuel : nat) : M unit :=
  match fuel with
  | O => raise OutOfFuel
  | S fuel' =>
      match_ "CONTROL_KEYWORD" (Some "referee") ;;
      match_ "LPAREN" None ;;
      parse_condition fuel' ;;
      match_ "RPAREN" None ;;
      match_ "LBRACE" None ;;
      parse_statement_list fuel' ;;
      match_ "RBRACE" None ;;
      t <- current_token ;;
      (if snd t =? "bench" then
         match_ "CONTROL_KEYWORD" (Some "bench") ;;
         match_ "LBRACE" None ;;
         parse_statement_list fuel' ;;
         match_ "RBRACE" None ;; ret tt
       else ret tt) ;;
      log "→ If statement parsed"
  end
with parse_while (fuel : nat) : M unit :=
  match fuel with
  | O => raise OutOfFuel
  | S fuel' =>
      match_ "CONTROL_KEYWORD" (Some "practice") ;;
      match_ "LPAREN" None ;;
      parse_condition fuel' ;;
      match_ "RPAREN" None ;;
      match_ "LBRACE" None ;;
      parse_statement_list fuel' ;;
      match_ "RBRACE" None ;;
      log "→ While parsed"
  end
with parse_for (fuel : nat) : M unit :=
  match fuel with
  | O => raise OutOfFuel
  | S fuel' =>
      match_ "CONTROL_KEYWORD" (Some "drill") ;;
      match_ "LPAREN" None ;;
      t <- current_token ;;
      (if fst t =? "TYPE_KEYWORD" then parse_declaration_in_for fuel'
       else if fst t =? "ID" then parse_assignment_in_for fuel'
       else ret tt) ;;
      match_ "END" None ;;
      t <- current_token ;;
      (if negb (fst t =? "END") then parse_condition fuel' else ret tt) ;;
      match_ "END" None ;;
      t <- current_token ;;
      (if fst t =? "ID" then parse_assignment_in_for fuel' else ret tt) ;;
      match_ "RPAREN" None ;;
      match_ "LBRACE" None ;;
      parse_statement_list fuel' ;;
      match_ "RBRACE" None ;;
      log "→ For parsed"
  end.

Definition parse_function (fuel : nat) : M unit :=
  match_ "FUNCTION_KEYWORD" (Some "play") ;;
  match file with
  | cr7_compiler => match_ "ID" None ;; ret tt
  | cr7_gui =>
      t <- current_token ;;
      if in_ (fst t) ["ID"; "FUNCTION_KEYWORD"] then advance
      else error "Expected function name after 'play'" None None
  end ;;
  match_ "LPAREN" None ;;
  parse_param_list fuel ;;
  match_ "RPAREN" None ;;
  match_ "LBRACE" None ;;
  parse_statement_list fuel ;;
  match_ "RBRACE" None ;;
  log "→ Function parsed".

(** [parse_program]; the message box of [cr7_gui.py] after the last line
    belongs to the display and is not modelled. *)
Definition parse_program (fuel : nat) : M unit :=
  log ("[Parser] Starting CR7 Script Parsing..." ++ String LF "") ;;
  while_ fuel (t <- current_token ;; ret (negb (fst t =? "EOF")))
    (t <- current_token ;;
     let (kind, value) := t in
     if kind =? "META_KEYWORD" then parse_meta
     else if kind =? "FUNCTION_KEYWORD" then parse_function fuel
     else error ("Unexpected statement start: " ++ value) None None) ;;
  log (String LF "[Parser] Parsing completed successfully ✅").

(** The grammar procedures by name, and [call] to run one. *)
Inductive procedure : Type :=
| Parse_program | Parse_meta | Parse_function | Parse_param_list
| Parse_statement_list | Parse_statement | Parse_declaration
| Parse_assignment | Parse_if | Parse_while | Parse_for
| Parse_declaration_in_for | Parse_assignment_in_for | Parse_output
| Parse_input | Parse_return | Parse_condition | Parse_expr | Parse_term
| Parse_factor.

Definition call (p : procedure) (fuel : nat) : M unit :=
  match p with
  | Parse_program => parse_program fuel
  | Parse_meta => parse_meta
  | Parse_function => parse_function fuel
  | Parse_param_list => parse_param_list fuel
  | Parse_statement_list => parse_statement_list fuel
  | Parse_statement => parse_statement fuel
  | Parse_declaration => parse_declaration fuel
  | Parse_assignment => parse_assignment fuel
  | Parse_if => parse_if fuel
  | Parse_while => parse_while fuel
  | Parse_for => parse_for fuel
  | Parse_declaration_in_for => parse_declaration_in_for fuel
  | Parse_assignment_in_for => parse_assignment_in_for fuel
  | Parse_output => parse_output fuel
  | Parse_input => parse_input
  | Parse_return => parse_return fuel
  | Parse_condition => parse_condition fuel
  | Parse_expr => parse_expr fuel
  | Parse_term => parse_term fuel
  | Parse_factor => parse_factor fuel
  end.

End Procedures.
End Recognizer.

(** * Vocabulary of the properties *)

Module Spec.

(** What a pattern must do to be sound: what it matches is a non-empty
    prefix of the text. *)
Definition prefix_matcher (re : string -> option (string * string)) : Prop :=
  forall s a b, re s = Some (a, b) -> s = a ++ b /\ a <> "".

(** The matches [tokenize] drops: comments, blank runs and line feeds. *)
Definition discarded (m : string * string) : bool :=
  in_ (fst m) ["COMMENT"; "SKIP"; "NEWLINE"].

(** A line comment: two slashes and no line feed after them. *)
Definition line_comment (v : string) : bool :=
  match v with
  | String c (String c' body) =>
      Ascii.eqb c "/" && Ascii.eqb c' "/" && all is_dot body
  | _ => false
  end.

(** A non-empty run of spaces and tabs. *)
Definition blank_run (v : string) : bool :=
  negb (v =? "") && all is_blank v.

(** What a dropped match can be. *)
Definition discardable (v : string) : bool :=
  blank_run v || (v =? String LF "") || line_comment v.

(** A text of spaces, tabs, line feeds and line comments only: outside a
    comment nothing but these and the two slashes that open a comment; a
    comment runs to the line feed that ends its line. *)
Fixpoint blank_from (in_comment : bool) (s : string) : bool :=
  match s with
  | EmptyString => true
  | String c r =>
      if Ascii.eqb c LF then blank_from false r
      else if in_comment then blank_from true r
      else if is_blank c then blank_from false r
      else match r with
           | String c' r' =>
               Ascii.eqb c "/" && Ascii.eqb c' "/" && blank_from true r'
           | EmptyString => false
           end
  end.

Definition only_blanks_and_comments (code : string) : bool :=
  blank_from false code.

(** The text with all whitespace, line feeds and line comments removed,
    read to the letter: from two slashes to the end of the line, and every
    space, tab and line feed, wherever they stand. *)
Fixpoint strip_from (in_comment : bool) (s : string) : string :=
  match s with
  | EmptyString => EmptyString
  | String c r =>
      if Ascii.eqb c LF then strip_from false r
      else if in_comment then strip_from true r
      else if is_blank c then strip_from false r
      else match r with
           | String c' r' =>
               if Ascii.eqb c "/" && Ascii.eqb c' "/" then strip_from true r'
               else String c (strip_from false r)
           | EmptyString => String c EmptyString
           end
  end.

Definition strip_blanks_and_comments (code : string) : string :=
  strip_from false code.

(** The same with an eye on where a character stands: whitespace and
    slashes inside a string literal stay, and so do slashes inside a run of
    operator characters (a run does not begin with [=], which is a token of
    its own, nor with two slashes, which open a comment). *)
Inductive lexical_context : Type :=
| Outside | InOperator | InString | InComment.

(** An operator character that can begin a run. *)
Definition begins_operator (c : ascii) : bool :=
  is_op_char c && negb (Ascii.eqb c "=").

Fixpoint strip_in (ctx : lexical_context) (s : string) : string :=
  match s with
  | EmptyString => EmptyString
  | String c r =>
      let outside :=
        if Ascii.eqb c DQUOTE then String c (strip_in InString r)
        else if Ascii.eqb c LF || is_blank c then strip_in Outside r
        else if begins_operator c then
          match r with
          | String c' r' =>
              if Ascii.eqb c "/" && Ascii.eqb c' "/" then strip_in InComment r'
              else String c (strip_in InOperator r)
          | EmptyString => String c EmptyString
          end
        else String c (strip_in Outside r) in
      match ctx with
      | Outside => outside
      | InOperator =>
          if is_op_char c then String c (strip_in InOperator r) else outside
      | InString =>
          String c (strip_in (if Ascii.eqb c DQUOTE then Outside else InString) r)
      | InComment =>
          if Ascii.eqb c LF then strip_in Outside r else strip_in InComment r
      end
  end.

Definition strip_outside_literals (code : string) : string :=
  strip_in Outside code.

(** A character that is copied outside a literal and leaves the context as
    it is. *)
Definition plain (c : ascii) : bool :=
  negb (Ascii.eqb c DQUOTE || Ascii.eqb c LF || is_blank c || begins_operator c).

(** Unicode tables that accept no code point above 127. *)
Definition ascii_only : ascii -> bool := fun _ => false.

(** A string literal of the language: [s] between double quotes. *)
Definition quoted (s : string) : string := String DQUOTE (s ++ String DQUOTE "").

(** Sample texts. *)
Definition blank_sample : string :=
  "  // kick off" ++ String LF (String TAB "// back pass ") ++ String LF "".

Definition greeting_sample : string :=
  "announce " ++ quoted "hi there" ++ "; // said" ++ String LF "".

(** [m] keeps the invariant [Inv] of the state, and raises only what
    [allowed] lets it raise. *)
Definition keeps (Inv : Recognizer.state -> Prop)
    (allowed : Recognizer.exn -> Prop) {A} (m : Recognizer.M A) : Prop :=
  forall s, Inv s ->
    Inv (Recognizer.final (m s))
    /\ forall e s', m s = Recognizer.Raise e s' -> allowed e.

(** The two invariants of the cursor: it is at least [n], it is on a token
    of [tokens]; and the exceptions that go with them. *)
Definition cursor_at_least (n : nat) (s : Recognizer.state) : Prop :=
  n <= Recognizer.pos s.

Definition any_exception (e : Recognizer.exn) : Prop := True.

Definition on_token (tokens : list token) (s : Recognizer.state) : Prop :=
  Recognizer.pos s < List.length tokens.

Definition not_IndexError (e : Recognizer.exn) : Prop :=
  e <> Recognizer.IndexError.

(** A run that ended by itself: it returned or raised an exception of the
    program, the fuel did not run out. *)
Definition finished {A} (r : Recognizer.result A) : Prop :=
  match r with
  | Recognizer.Raise Recognizer.OutOfFuel _ => False
  | _ => True
  end.

(** [m2] does what [m1] does wherever [m1] ends by itself: [m2] is [m1]
    with more fuel. *)
Definition fuel_le {A} (m1 m2 : Recognizer.M A) : Prop :=
  forall s, finished (m1 s) -> m2 s = m1 s.

(** The first and the last line [parse_program] writes. *)
Definition header_line : string :=
  "[Parser] Starting CR7 Script Parsing..." ++ String LF "".
Definition completed_line : string :=
  String LF "[Parser] Parsing completed successfully ✅".

(** Sample programs and their tokens. *)
Definition scenario_B : string := "play main() { goal x = 5; announce x; }".
Definition scenario_C : string := "play main() { x = ; }".
Definition scenario_E : string := "play main() { announce add(1,2); }".
Definition bench_sample : string := "play main() { bench }".

Definition scenario_B_tokens : list token :=
  [ ("FUNCTION_KEYWORD", "play"); ("ID", "main"); ("LPAREN", "(");
    ("RPAREN", ")"); ("LBRACE", "{"); ("TYPE_KEYWORD", "goal"); ("ID", "x");
    ("ASSIGN", "="); ("NUMBER", "5"); ("END", ";");
    ("OUTPUT_KEYWORD", "announce"); ("ID", "x"); ("END", ";");
    ("RBRACE", "}"); ("EOF", "") ].

Definition scenario_C_tokens : list token :=
  [ ("FUNCTION_KEYWORD", "play"); ("ID", "main"); ("LPAREN", "(");
    ("RPAREN", ")"); ("LBRACE", "{"); ("ID", "x"); ("ASSIGN", "=");
    ("END", ";"); ("RBRACE", "}"); ("EOF", "") ].

Definition scenario_E_tokens : list token :=
  [ ("FUNCTION_KEYWORD", "play"); ("ID", "main"); ("LPAREN", "(");
    ("RPAREN", ")"); ("LBRACE", "{"); ("OUTPUT_KEYWORD", "announce");
    ("ID", "add"); ("LPAREN", "("); ("NUMBER", "1"); ("COMMA", ",");
    ("NUMBER", "2"); ("RPAREN", ")"); ("END", ";"); ("RBRACE", "}");
    ("EOF", "") ].

Definition bench_tokens : list token :=
  [ ("FUNCTION_KEYWORD", "play"); ("ID", "main"); ("LPAREN", "(");
    ("RPAREN", ")"); ("LBRACE", "{"); ("CONTROL_KEYWORD", "bench");
    ("RBRACE", "}"); ("EOF", "") ].





(** The tokens of a parameter list: a type keyword and an identifier, then
    any number of times a comma, a type keyword and an identifier. *)
Inductive param_tail : list token -> Prop :=
| param_tail_nil : param_tail []
| param_tail_cons comma ty id more :
    param_tail more ->
    param_tail (("COMMA", comma) :: ("TYPE_KEYWORD", ty) :: ("ID", id) :: more).

Inductive param_list : list token -> Prop :=
| param_list_none : param_list []
| param_list_some ty id more :
    param_tail more ->
    param_list (("TYPE_KEYWORD", ty) :: ("ID", id) :: more).

(** The tokens of a token list but the last have a kind other than [EOF],
    and the last is the [EOF] token: what the scanner produces. *)
Definition ends_in_EOF (tokens : list token) : Prop :=
  exists body, tokens = (body ++ [("EOF", "")])%list
               /\ Forall (fun t => fst t <> "EOF") body.

End Spec.

(** * Vocabulary of the tokens *)

Module Lexicon.

(** The kinds a token of the scanner can have. *)
Definition TOKEN_KINDS : list string :=
  [ "META_KEYWORD"; "NUMBER"; "ASSIGN"; "COMMA"; "END"; "LPAREN"; "RPAREN";
    "LBRACE"; "RBRACE"; "STRING"; "ID"; "OP"; "FUNCTION_KEYWORD";
    "TYPE_KEYWORD"; "CONTROL_KEYWORD"; "INPUT_KEYWORD"; "OUTPUT_KEYWORD";
    "EOF" ].

(** The kinds of punctuation and the one value each can have. *)
Definition PUNCTUATION : list (string * string) :=
  [ ("ASSIGN", "="); ("COMMA", ","); ("END", ";"); ("LPAREN", "(");
    ("RPAREN", ")"); ("LBRACE", "{"); ("RBRACE", "}") ].

(** The token the loop of [tokenize] appends for a match it keeps. *)
Definition token_of_match (m : string * string) : token :=
  if fst m =? "META" then ("META_KEYWORD", snd m)
  else if fst m =? "ID" then
    (Scanner.keyword_kind KEYWORDS (fst m) (snd m), snd m)
  else m.

(** Whether [v] is a word of some group of [KEYWORDS]. *)
Definition reserved (v : string) : bool :=
  existsb (fun group => in_ v (snd group)) KEYWORDS.

(** Whether [s] begins with [p]. *)
Fixpoint starts_with (p s : string) : bool :=
  match p, s with
  | EmptyString, _ => true
  | String a p', String b s' => Ascii.eqb a b && starts_with p' s'
  | String _ _, EmptyString => false
  end.

(** Whether some pattern other than [MISMATCH] can begin at [c] whatever
    follows: a blank, a line feed, an operator character, punctuation, the
    first character of an identifier or a digit. *)
Definition begins_a_token (unicode_digit : ascii -> bool) (c : ascii) : bool :=
  is_blank c || Ascii.eqb c LF || is_op_char c || is_id_start c
  || Scanner.is_digit unicode_digit c
  || existsb (Ascii.eqb c) [","; ";"; "("; ")"; "{"; "}"]%char.

End Lexicon.

(** * Vocabulary of the runs *)

Module Runs.
Import Recognizer.

(** How a run ends: [None] for a return, the exception otherwise. *)
Definition outcome {A} (r : result A) : option exn :=
  match r with
  | Return _ _ => None
  | Raise e _ => Some e
  end.

(** A relation between the state a run starts in, the way it ends and the
    state it ends in; [m] respects it at [s] when its run from [s] is in
    it. *)
Definition run_relation : Type := state -> option exn -> state -> Prop.

Definition respects_at (R : run_relation) {A} (m : M A) (s : state) : Prop :=
  R s (outcome (m s)) (final (m s)).

Definition respects (R : run_relation) {A} (m : M A) : Prop :=
  forall s, respects_at R m s.

(** The line [error] writes for the message [msg] at the token [t]. *)
Definition diagnostic (msg : string) (t : token) : string :=
  "[Syntax Error] " ++ msg ++ " at token '" ++ snd t
  ++ "' (type " ++ fst t ++ ")".

Definition is_diagnostic (line : string) : bool :=
  Lexicon.starts_with "[Syntax Error] " line.

(** What a run writes: it appends lines to those written before; ending in
    [SystemExit] the last line appended is a diagnostic at the token under
    the cursor and the only one; ending otherwise no line appended is a
    diagnostic. *)
Definition written (tokens : list token) : run_relation :=
  fun s o s' =>
    exists lines,
      out s' = (out s ++ lines)%list
      /\ match o with
         | Some SystemExit =>
             exists before msg t,
               lines = (before ++ [diagnostic msg t])%list
               /\ Forall (fun l => is_diagnostic l = false) before
               /\ nth_error tokens (pos s') = Some t
         | _ => Forall (fun l => is_diagnostic l = false) lines
         end.

(** [m] consumes at least one token when it returns; [m] does not move the
    cursor backward when it returns. *)
Definition advances {A} (m : M A) : Prop :=
  forall s a s', m s = Return a s' -> pos s < pos s'.

Definition never_retreats {A} (m : M A) : Prop :=
  forall s a s', m s = Return a s' -> pos s <= pos s'.

(** The procedures that consume a token whenever they return: all but the
    four that can recognize nothing, [parse_program], [parse_param_list],
    [parse_statement_list] and [parse_statement]. *)
Definition consuming (p : procedure) : bool :=
  match p with
  | Parse_program | Parse_param_list | Parse_statement_list
  | Parse_statement => false
  | _ => true
  end.




(** The token of a bare [bench]. *)
Definition BENCH : token := ("CONTROL_KEYWORD", "bench").

End Runs.

(** * The recognizer under the limit on the depth of recursion *)

(** The interpreter allows a bounded number of frames and raises
    [RecursionError] at the call that would exceed it.  Here every call of a
    method of [CR7Parser] takes one frame: a procedure is given the number
    [d] of frames left for it, fails with [RecursionError] when there is
    none, and leaves [d - 1] frames to the calls it makes, [match],
    [current_token], [error], [lookahead] and [log] included.  The state is
    the one of [Recognizer]. *)
Module Frames.
Import Recognizer.

(** What ends a procedure early: the exceptions of [Recognizer] and
    [RecursionError]. *)
Inductive exn : Type := SystemExit | IndexError | RecursionError | OutOfFuel.

Inductive result (A : Type) : Type :=
| Return (a : A) (s : state)
| Raise (e : exn) (s : state).
Arguments Return {A} a s.
Arguments Raise {A} e s.

Definition M (A : Type) : Type := state -> result A.

Definition ret {A} (a : A) : M A := fun s => Return a s.
Definition raise {A} (e : exn) : M A := fun s => Raise e s.
Definition bind {A B} (m : M A) (k : A -> M B) : M B :=
  fun s => match m s with
           | Return a s' => k a s'
           | Raise e s' => Raise e s'
           end.

Declare Scope frames_scope.
Delimit Scope frames_scope with frames.
Notation "x <- m ;; k" := (bind m (fun x => k))
  (at level 61, m at next level, right associativity) : frames_scope.
Notation "m ;; k" := (bind m (fun _ => k))
  (at level 61, right associativity) : frames_scope.
Open Scope frames_scope.

(** The state a run ends in, and how it ends. *)
Definition final {A} (r : result A) : state :=
  match r with Return _ s | Raise _ s => s end.

Definition outcome {A} (r : result A) : option exn :=
  match r with
  | Return _ _ => None
  | Raise e _ => Some e
  end.

(** [while cond: body]; the loop takes no frame.  One unit of fuel per test
    of the condition: the fuel bounds the turns of a loop and nothing
    else. *)
Fixpoint while_ (fuel : nat) (cond : M bool) (body : M unit) : M unit :=
  match fuel with
  | O => raise OutOfFuel
  | S fuel' => b <- cond ;; if b then body ;; while_ fuel' cond body else ret tt
  end.

Section Procedures.

Variable file : source_file.
Variable tokens : list token.
(** The frames a call out of the program needs: [print] with the stream it
    writes to, the widgets of the display. *)
Variable external : nat.
(** The bound on the turns of each loop. *)
Variable fuel : nat.

Definition write (msg : string) : M unit :=
  fun s => Return tt (mkState (pos s) (out s ++ [msg])).

(** A call out of the program with [d] frames left: it is done as a whole
    or not at all. *)
Definition foreign {A} (d : nat) (m : M A) : M A :=
  if (d <? external)%nat then raise RecursionError else m.

(** [print(msg)] in [cr7_compiler.py]; [self.log(msg, color)], a method
    that writes to the widget, in [cr7_gui.py]. *)
Definition log (d : nat) (msg : string) : M unit :=
  match file with
  | cr7_compiler => foreign d (write msg)
  | cr7_gui =>
      match d with
      | O => raise RecursionError
      | S d' => foreign d' (write msg)
      end
  end.

(** [current_token] with [d] frames left: the call takes one. *)
Definition current_token (d : nat) : M token :=
  match d with
  | O => raise RecursionError
  | S _ =>
      fun s => match nth_error tokens (pos s) with
               | Some t => Return t s
               | None => Raise IndexError s
               end
  end.

(** [lookahead]: a method of [cr7_gui.py]; [len] is no call of the
    program. *)
Definition lookahead (d n : nat) : M token :=
  match d with
  | O => raise RecursionError
  | S _ =>
      fun s => if (pos s + n <? List.length tokens)%nat
               then Return (nth (pos s + n) tokens ("EOF", "")) s
               else Return ("EOF", "") s
  end.

(** [self.pos += 1] *)
Definition advance : M unit :=
  fun s => Return tt (mkState (pos s + 1) (out s)).

(** [error]: the line is written by [print] or by [self.log], then
    [sys.exit(1)] or [raise SystemExit(1)] ends the run; when the line
    cannot be written for want of frames, the run ends in [RecursionError]
    and no line is written. *)
Definition error {A} (d : nat) (msg : string)
    (actual_kind actual_value : option string) : M A :=
  match d with
  | O => raise RecursionError
  | S d' =>
      actual <- match actual_kind, actual_value with
                | Some k, Some v => ret (k, v)
                | _, _ => current_token d'
                end ;;
      log d' ("[Syntax Error] " ++ msg ++ " at token '" ++ snd actual
              ++ "' (type " ++ fst actual ++ ")") ;;
      raise SystemExit
  end.

(** [match] with [d] frames left: the call takes one, and [current_token]
    and [error] are called with the [d - 1] that remain. *)
Definition match_ (d : nat) (expected_type : string)
    (expected_value : option string) : M string :=
  match d with
  | O => raise RecursionError
  | S d' =>
      t <- current_token d' ;;
      let (kind, value) := t in
      if (kind =? expected_type)
         && match expected_value with
            | None => true
            | Some v => value =? v
            end
      then advance ;; ret value
      else error d' ("Expected " ++ expected_type
                     ++ match expected_value with
                        | None | Some "" => ""
                        | Some v => "('" ++ v ++ "')"
                        end)
                 (Some kind) (Some value)
  end.

Definition kind_is (d : nat) (k : string) : M bool :=
  t <- current_token d ;; ret (fst t =? k).

Definition parse_meta (d : nat) : M unit :=
  match d with
  | O => raise RecursionError
  | S d' =>
      match_ d' "META_KEYWORD" (Some "#import") ;;
      t <- current_token d' ;;
      (if snd t =? "stadium"
       then match_ d' "META_KEYWORD" (Some "stadium") ;; ret tt
       else error d' "Expected 'stadium' after #import" None None) ;;
      log d' "→ Meta statement parsed (#import stadium)"
  end.

Definition parse_param_list (d : nat) : M unit :=
  match d with
  | O => raise RecursionError
  | S d' =>
      t <- current_token d' ;;
      if fst t =? "TYPE_KEYWORD" then
        match_ d' "TYPE_KEYWORD" None ;;
        match_ d' "ID" None ;;
        while_ fuel (kind_is d' "COMMA")
          (match_ d' "COMMA" None ;;
           match_ d' "TYPE_KEYWORD" None ;;
           match_ d' "ID" None ;; ret tt)
      else ret tt
  end.

(** [parse_expr], [parse_term] and [parse_factor]. *)
Fixpoint parse_expr (d : nat) : M unit :=
  match d with
  | O => raise RecursionError
  | S d' =>
      parse_term d' ;;
      while_ fuel
        (t <- current_token d' ;;
         ret ((fst t =? "OP") && in_ (snd t) ["+"; "-"]))
        (match_ d' "OP" None ;; parse_term d')
  end
with parse_term (d : nat) : M unit :=
  match d with
  | O => raise RecursionError
  | S d' =>
      parse_factor d' ;;
      while_ fuel
        (t <- current_token d' ;;
         ret ((fst t =? "OP") && in_ (snd t) ["*"; "/"]))
        (match_ d' "OP" None ;; parse_factor d')
  end
with parse_factor (d : nat) : M unit :=
  match d with
  | O => raise RecursionError
  | S d' =>
      t <- current_token d' ;;
      let (kind, value) := t in
      match file with
      | cr7_compiler =>
          if in_ kind ["NUMBER"; "STRING"; "ID"] then
            match_ d' kind None ;; ret tt
          else if kind =? "LPAREN" then
            match_ d' "LPAREN" None ;;
            parse_expr d' ;;
            match_ d' "RPAREN" None ;; ret tt
          else error d' "Invalid factor" None None
      | cr7_gui =>
          if in_ kind ["ID"; "FUNCTION_KEYWORD"] then
            next <- lookahead d' 1 ;;
            if fst next =? "LPAREN" then
              ident <- match_ d' kind None ;;
              match_ d' "LPAREN" None ;;
              t' <- current_token d' ;;
              (if negb (fst t' =? "RPAREN") then
                 parse_expr d' ;;
                 while_ fuel (kind_is d' "COMMA")
                   (match_ d' "COMMA" None ;; parse_expr d')
               else ret tt) ;;
              match_ d' "RPAREN" None ;;
              log d' ("→ Function call parsed (" ++ ident ++ ")")
            else match_ d' kind None ;; ret tt
          else if in_ kind ["NUMBER"; "STRING"] then
            match_ d' kind None ;; ret tt
          else if kind =? "LPAREN" then
            match_ d' "LPAREN" None ;;
            parse_expr d' ;;
            match_ d' "RPAREN" None ;; ret tt
          else error d' "Invalid factor" None None
      end
  end.

Definition parse_condition (d : nat) : M unit :=
  match d with
  | O => raise RecursionError
  | S d' =>
      parse_expr d' ;;
      t <- current_token d' ;;
      if fst t =? "OP" then
        match_ d' "OP" None ;;
        parse_expr d'
      else error d' "Expected relational operator in condition" None None
  end.

Definition parse_declaration (d : nat) : M unit :=
  match d with
  | O => raise RecursionError
  | S d' =>
      match_ d' "TYPE_KEYWORD" None ;;
      match_ d' "ID" None ;;
      t <- current_token d' ;;
      (if fst t =? "ASSIGN" then
         match_ d' "ASSIGN" None ;;
         parse_expr d'
       else ret tt) ;;
      match_ d' "END" None ;;
      log d' "→ Declaration parsed"
  end.

Definition parse_assignment (d : nat) : M unit :=
  match d with
  | O => raise RecursionError
  | S d' =>
      match_ d' "ID" None ;;
      match_ d' "ASSIGN" None ;;
      parse_expr d' ;;
      match_ d' "END" None ;;
      log d' "→ Assignment parsed"
  end.

Definition parse_declaration_in_for (d : nat) : M unit :=
  match d with
  | O => raise RecursionError
  | S d' =>
      match_ d' "TYPE_KEYWORD" None ;;
      match_ d' "ID" None ;;
      t <- current_token d' ;;
      (if fst t =? "ASSIGN" then
         match_ d' "ASSIGN" None ;;
         parse_expr d'
       else ret tt) ;;
      log d' "→ For-init declaration parsed"
  end.

Definition parse_assignment_in_for (d : nat) : M unit :=
  match d with
  | O => raise RecursionError
  | S d' =>
      match_ d' "ID" None ;;
      t <- current_token d' ;;
      let (kind, value) := t in
      if kind =? "ASSIGN" then
        match_ d' "ASSIGN" None ;;
        parse_expr d' ;;
        log d' "→ For-update parsed (assignment)"
      else if (kind =? "OP") && in_ value ["++"; "--"] then
        match_ d' "OP" None ;;
        log d' "→ For-update parsed (increment/decrement)"
      else error d' "Expected '=' or '++'/'--' in for update" None None
  end.

Definition parse_output (d : nat) : M unit :=
  match d with
  | O => raise RecursionError
  | S d' =>
      match_ d' "OUTPUT_KEYWORD" None ;;
      parse_expr d' ;;
      match_ d' "END" None ;;
      log d' "→ Output parsed"
  end.

Definition parse_input (d : nat) : M unit :=
  match d with
  | O => raise RecursionError
  | S d' =>
      match_ d' "INPUT_KEYWORD" None ;;
      match_ d' "ID" None ;;
      match_ d' "END" None ;;
      log d' "→ Input parsed"
  end.

Definition parse_return (d : nat) : M unit :=
  match d with
  | O => raise RecursionError
  | S d' =>
      match_ d' "FUNCTION_KEYWORD" (Some "whistle") ;;
      parse_expr d' ;;
      match_ d' "END" None ;;
      log d' "→ Return parsed"
  end.

(** The condition of the loop of [parse_statement_list]. *)
Definition more_statements (d : nat) : M bool :=
  t <- current_token d ;; ret (negb (in_ (fst t) ["EOF"; "RBRACE"])).

(** [parse_statement_list], [parse_statement] and the statements that hold
    a block. *)
Fixpoint parse_statement_list (d : nat) : M unit :=
  match d with
  | O => raise RecursionError
  | S d' => while_ fuel (more_statements d') (parse_statement d')
  end
with parse_statement (d : nat) : M unit :=
  match d with
  | O => raise RecursionError
  | S d' =>
      t <- current_token d' ;;
      let (kind, value) := t in
      if kind =? "TYPE_KEYWORD" then parse_declaration d'
      else if kind =? "ID" then parse_assignment d'
      else if kind =? "CONTROL_KEYWORD" then
        if value =? "referee" then parse_if d'
        else if value =? "practice" then parse_while d'
        else if value =? "drill" then parse_for d'
        else if value =? "bench" then ret tt
        else error d' ("Unknown control keyword '" ++ value ++ "'")
                   (Some kind) (Some value)
      else if kind =? "OUTPUT_KEYWORD" then parse_output d'
      else if kind =? "INPUT_KEYWORD" then parse_input d'
      else if (kind =? "FUNCTION_KEYWORD") && (value =? "whistle") then
        parse_return d'
      else error d' ("Unexpected statement start: " ++ value)
                 (Some kind) (Some value)
  end
with parse_if (d : nat) : M unit :=
  match d with
  | O => raise RecursionError
  | S d' =>
      match_ d' "CONTROL_KEYWORD" (Some "referee") ;;
      match_ d' "LPAREN" None ;;
      parse_condition d' ;;
      match_ d' "RPAREN" None ;;
      match_ d' "LBRACE" None ;;
      parse_statement_list d' ;;
      match_ d' "RBRACE" None ;;
      t <- current_token d' ;;
      (if snd t =? "bench" then
         match_ d' "CONTROL_KEYWORD" (Some "bench") ;;
         match_ d' "LBRACE" None ;;
         parse_statement_list d' ;;
         match_ d' "RBRACE" None ;; ret tt
       else ret tt) ;;
      log d' "→ If statement parsed"
  end
with parse_while (d : nat) : M unit :=
  match d with
  | O => raise RecursionError
  | S d' =>
      match_ d' "CONTROL_KEYWORD" (Some "practice") ;;
      match_ d' "LPAREN" None ;;
      parse_condition d' ;;
      match_ d' "RPAREN" None ;;
      match_ d' "LBRACE" None ;;
      parse_statement_list d' ;;
      match_ d' "RBRACE" None ;;
      log d' "→ While parsed"
  end
with parse_for (d : nat) : M unit :=
  match d with
  | O => raise RecursionError
  | S d' =>
      match_ d' "CONTROL_KEYWORD" (Some "drill") ;;
      match_ d' "LPAREN" None ;;
      t <- current_token d' ;;
      (if fst t =? "TYPE_KEYWORD" then parse_declaration_in_for d'
       else if fst t =? "ID" then parse_assignment_in_for d'
       else ret tt) ;;
      match_ d' "END" None ;;
      t <- current_token d' ;;
      (if negb (fst t =? "END") then parse_condition d' else ret tt) ;;
      match_ d' "END" None ;;
      t <- current_token d' ;;
      (if fst t =? "ID" then parse_assignment_in_for d' else ret tt) ;;
      match_ d' "RPAREN" None ;;
      match_ d' "LBRACE" None ;;
      parse_statement_list d' ;;
      match_ d' "RBRACE" None ;;
      log d' "→ For parsed"
  end.

Definition parse_function (d : nat) : M unit :=
  match d with
  | O => raise RecursionError
  | S d' =>
      match_ d' "FUNCTION_KEYWORD" (Some "play") ;;
      match file with
      | cr7_compiler => match_ d' "ID" None ;; ret tt
      | cr7_gui =>
          t <- current_token d' ;;
          if in_ (fst t) ["ID"; "FUNCTION_KEYWORD"] then advance
          else error d' "Expected function name after 'play'" None None
      end ;;
      match_ d' "LPAREN" None ;;
      parse_param_list d' ;;
      match_ d' "RPAREN" None ;;
      match_ d' "LBRACE" None ;;
      parse_statement_list d' ;;
      match_ d' "RBRACE" None ;;
      log d' "→ Function parsed"
  end.

(** [parse_program]; the message box of [cr7_gui.py] after the last line is
    a call out of the program, and what it shows is not modelled. *)
Definition parse_program (d : nat) : M unit :=
  match d with
  | O => raise RecursionError
  | S d' =>
      log d' ("[Parser] Starting CR7 Script Parsing..." ++ String LF "") ;;
      while_ fuel (t <- current_token d' ;; ret (negb (fst t =? "EOF")))
        (t <- current_token d' ;;
         let (kind, value) := t in
         if kind =? "META_KEYWORD" then parse_meta d'
         else if kind =? "FUNCTION_KEYWORD" then parse_function d'
         else error d' ("Unexpected statement start: " ++ value) None None) ;;
      log d' (String LF "[Parser] Parsing completed successfully ✅") ;;
      match file with
      | cr7_compiler => ret tt
      | cr7_gui => foreign d' (ret tt)
      end
  end.

(** The grammar procedures by name, with [d] frames left. *)
Definition call (p : procedure) (d : nat) : M unit :=
  match p with
  | Parse_program => parse_program d
  | Parse_meta => parse_meta d
  | Parse_function => parse_function d
  | Parse_param_list => parse_param_list d
  | Parse_statement_list => parse_statement_list d
  | Parse_statement => parse_statement d
  | Parse_declaration => parse_declaration d
  | Parse_assignment => parse_assignment d
  | Parse_if => parse_if d
  | Parse_while => parse_while d
  | Parse_for => parse_for d
  | Parse_declaration_in_for => parse_declaration_in_for d
  | Parse_assignment_in_for => parse_assignment_in_for d
  | Parse_output => parse_output d
  | Parse_input => parse_input d
  | Parse_return => parse_return d
  | Parse_condition => parse_condition d
  | Parse_expr => parse_expr d
  | Parse_term => parse_term d
  | Parse_factor => parse_factor d
  end.

End Procedures.

(** [main] of [cr7_compiler.py] from the text of the file on: the lines it
    prints and the exception that leaves it, if any.  Its [try] holds both
    [tokenize] and [parse_program] and catches [RuntimeError]: the error of
    the scanner, and [RecursionError], which is a [RuntimeError]; either is
    printed after [[Lexer Error]] and [main] returns.  [SystemExit] and
    [IndexError] are not caught.  [recursion_message] is the text of the
    [RecursionError] of the interpreter, [d] the frames left where [main]
    calls [parse_program].  The tests of the command line and of the file
    come before and are not modelled. *)
Definition main (unicode_word unicode_digit : ascii -> bool)
    (recursion_message : string) (external fuel d : nat) (code : string)
    : list string * option exn :=
  match Scanner.tokenize unicode_word unicode_digit code with
  | RuntimeError e => (["[Lexer Error] " ++ e], None)
  | Tokens tokens =>
      match parse_program cr7_compiler tokens external fuel d CR7Parser with
      | Raise RecursionError s =>
          ((out s ++ [("[Lexer Error] " ++ recursion_message)%string])%list,
           None)
      | r => (out (final r), outcome r)
      end
  end.

End Frames.

(** * Vocabulary of the runs under the limit *)

Module FrameRuns.
Import Recognizer.
Import Frames.

(** A relation between the state a run starts in, the way it ends and the
    state it ends in; [m] respects it when every run of [m] is in it. *)
Definition run_relation : Type := state -> option exn -> state -> Prop.

Definition respects_at {A} (R : run_relation) (m : M A) (s : state) : Prop :=
  R s (outcome (m s)) (final (m s)).

Definition respects {A} (R : run_relation) (m : M A) : Prop :=
  forall s, respects_at R m s.

(** What a run writes: it appends lines to those written before; ending in
    [SystemExit] the last line appended is a diagnostic at the token under
    the cursor and the only one; ending otherwise, in [RecursionError] too,
    no line appended is a diagnostic. *)
Definition written (tokens : list token) : run_relation :=
  fun s o s' =>
    exists lines,
      out s' = (out s ++ lines)%list
      /\ match o with
         | Some SystemExit =>
             exists before msg t,
               lines = (before ++ [Runs.diagnostic msg t])%list
               /\ Forall (fun l => Runs.is_diagnostic l = false) before
               /\ nth_error tokens (pos s') = Some t
         | _ => Forall (fun l => Runs.is_diagnostic l = false) lines
         end.

(** The cursor does not move backward. *)
Definition forward : run_relation := fun s _ s' => pos s <= pos s'.

(** From a cursor on a token the run ends with the cursor on a token and
    not in [IndexError]. *)
Definition in_bounds (tokens : list token) : run_relation :=
  fun s o s' =>
    pos s < List.length tokens ->
    pos s' < List.length tokens /\ o <> Some IndexError.

(** [m] consumes at least one token when it returns; [m] does not move the
    cursor backward when it returns. *)
Definition advances {A} (m : M A) : Prop :=
  forall s a s', m s = Return a s' -> pos s < pos s'.

Definition never_retreats {A} (m : M A) : Prop :=
  forall s a s', m s = Return a s' -> pos s <= pos s'.

(** The tokens from the cursor on. *)
Definition tokens_left (tokens : list token) (s : state) : nat :=
  List.length tokens - pos s.

(** [m1] and [m2], the same term under the bounds [fuel1] and [fuel2] on
    the turns of its loops, agree: from a state with fewer tokens left than
    either bound they end alike, and not for want of fuel. *)
Definition agree {A} (tokens : list token) (fuel1 fuel2 : nat)
    (m1 m2 : M A) : Prop :=
  forall s,
    tokens_left tokens s < fuel1 -> tokens_left tokens s < fuel2 ->
    m1 s = m2 s /\ outcome (m1 s) <> Some OutOfFuel.

End FrameRuns.

(** * Properties of the scanner *)

Module ScannerFacts.
Import Scanner.
Import Spec.

Lemma span_app p s a b : span p s = (a, b) -> s = a ++ b.
Proof.
  revert a b; induction s as [|c r IH]; simpl; intros a b H.
  - now inversion H.
  - destruct (p c).
    + destruct (span p r) as [a' b'] eqn:E. inversion H; subst.
      simpl. f_equal. now apply IH.
    + now inversion H.
Qed.

Lemma span1_app p s a b :
  span1 p s = Some (a, b) -> s = a ++ b /\ a <> "".
Proof.
  unfold span1. destruct (span p s) as [a' b'] eqn:E.
  destruct a'; intros H; inversion H; subst.
  split; [exact (span_app _ _ _ _ E) | discriminate].
Qed.

Lemma lit_app c s a b : lit c s = Some (a, b) -> s = a ++ b /\ a <> "".
Proof.
  destruct s as [|d r]; simpl; [discriminate|].
  destruct (Ascii.eqb d c); intros H; inversion H; subst.
  split; [reflexivity | discriminate].
Qed.

Lemma append_assoc (a b c : string) : (a ++ b) ++ c = a ++ (b ++ c).
Proof. induction a; simpl; congruence. Qed.

Lemma append_nil_r (a : string) : a ++ "" = a.
Proof. induction a; simpl; congruence. Qed.

Lemma length_append (a b : string) :
  String.length (a ++ b) = String.length a + String.length b.
Proof. induction a; simpl; congruence. Qed.

Section WithUnicode.
Variables uw ud : ascii -> bool.

Lemma re_META_prefix : prefix_matcher (re_META uw).
Proof.
  intros s a b. unfold re_META.
  destruct s as [|c r]; [discriminate|].
  destruct (Ascii.eqb c "#"); [|discriminate].
  destruct (span1 (is_word uw) r) as [[w rest]|] eqn:E; [|discriminate].
  intros H; inversion H; subst. apply span1_app in E as [-> _].
  split; [reflexivity | discriminate].
Qed.

Lemma re_COMMENT_prefix : prefix_matcher re_COMMENT.
Proof.
  intros s a b. unfold re_COMMENT.
  destruct s as [|c r]; [discriminate|].
  destruct (Ascii.eqb c "/"); [|discriminate].
  destruct r as [|c' r]; [discriminate|].
  destruct (Ascii.eqb c' "/"); [|discriminate].
  destruct (span is_dot r) as [body rest] eqn:E.
  intros H; inversion H; subst. apply span_app in E as ->.
  split; [reflexivity | discriminate].
Qed.

Lemma re_NUMBER_prefix : prefix_matcher (re_NUMBER ud).
Proof.
  intros s a b. unfold re_NUMBER.
  destruct (span1 (is_digit ud) s) as [[int_part r]|] eqn:E; [|discriminate].
  apply span1_app in E as [-> Hne].
  assert (Hne' : forall x, int_part ++ x <> "")
    by (destruct int_part; [congruence | discriminate]).
  destruct r as [|c r'].
  - intros H; inversion H; subst. auto.
  - destruct (Ascii.eqb c ".").
    + destruct (span1 (is_digit ud) r') as [[frac rest]|] eqn:E'.
      * apply span1_app in E' as [-> _].
        intros H; inversion H; subst. split; [|apply Hne'].
        now rewrite append_assoc.
      * intros H; inversion H; subst. auto.
    + intros H; inversion H; subst. auto.
Qed.

Lemma re_STRING_prefix : prefix_matcher re_STRING.
Proof.
  intros s a b. unfold re_STRING.
  destruct s as [|d r]; [discriminate|].
  destruct (Ascii.eqb d DQUOTE); [|discriminate].
  destruct (span is_not_quote r) as [body r'] eqn:E.
  apply span_app in E as ->.
  destruct r' as [|d' rest]; [discriminate|].
  intros H; inversion H; subst. split; [|discriminate].
  simpl. now rewrite append_assoc.
Qed.

Lemma re_ID_prefix : prefix_matcher (re_ID uw).
Proof.
  intros s a b. unfold re_ID.
  destruct s as [|c r]; [discriminate|].
  destruct (is_id_start c); [|discriminate].
  destruct (span (is_word uw) r) as [w rest] eqn:E.
  apply span_app in E as ->.
  intros H; inversion H; subst. split; [reflexivity | discriminate].
Qed.

Lemma re_MISMATCH_prefix : prefix_matcher re_MISMATCH.
Proof.
  intros s a b. unfold re_MISMATCH.
  destruct s as [|c r]; [discriminate|].
  destruct (is_dot c); [|discriminate].
  intros H; inversion H; subst. split; [reflexivity | discriminate].
Qed.

Lemma token_specification_prefix :
  Forall (fun alt => prefix_matcher (snd alt)) (token_specification uw ud).
Proof.
  unfold Scanner.token_specification.
  repeat (apply Forall_cons; simpl);
    try apply Forall_nil;
    first [ apply re_META_prefix | apply re_COMMENT_prefix
          | apply re_NUMBER_prefix | apply re_STRING_prefix
          | apply re_ID_prefix | apply re_MISMATCH_prefix
          | (intros s a b; apply lit_app)
          | (intros s a b; apply span1_app) ].
Qed.

(** A match of an alternation of sound patterns is a non-empty prefix, and
    its group is one of the names. *)
Lemma alternation_prefix spec s name value rest :
  Forall (fun alt => prefix_matcher (snd alt)) spec ->
  alternation spec s = Some (name, value, rest) ->
  s = value ++ rest /\ value <> "" /\ In name (map fst spec).
Proof.
  induction 1 as [|[n re] more Hre _ IH]; simpl; [discriminate|].
  destruct (re s) as [[v r]|] eqn:E.
  - intros H; inversion H; subst. apply Hre in E as [-> Hne]. auto.
  - intros H. apply IH in H as (? & ? & ?). auto.
Qed.

Lemma token_regex_prefix s name value rest :
  token_regex uw ud s = Some (name, value, rest) ->
  s = value ++ rest /\ value <> ""
  /\ In name (map fst (token_specification uw ud)).
Proof. apply alternation_prefix, token_specification_prefix. Qed.

(** Some alternative matches at every character: [NEWLINE] at a line feed,
    [MISMATCH] at the latest anywhere else. *)
Lemma alternation_some spec s name re v rest :
  In (name, re) spec -> re s = Some (v, rest) -> alternation spec s <> None.
Proof.
  induction spec as [|[n r] more IH]; simpl; [tauto|].
  intros [Heq | Hin] Hre.
  - inversion Heq; subst. now rewrite Hre.
  - destruct (r s) as [[? ?]|]; [discriminate | eauto].
Qed.

Lemma token_regex_total c r : token_regex uw ud (String c r) <> None.
Proof.
  destruct (Ascii.eqb c LF) eqn:E.
  - apply (alternation_some _ _ "NEWLINE" (lit LF) (String c "") r).
    + unfold token_specification; simpl.
      repeat (first [left; reflexivity | right]).
    + simpl. now rewrite E.
  - apply (alternation_some _ _ "MISMATCH" re_MISMATCH (String c "") r).
    + unfold token_specification; simpl.
      repeat (first [left; reflexivity | right]).
    + unfold re_MISMATCH, is_dot. now rewrite E.
Qed.

(** The alternative a match comes from. *)
Lemma alternation_In spec s name v rest :
  alternation spec s = Some (name, v, rest) ->
  exists re, In (name, re) spec /\ re s = Some (v, rest).
Proof.
  induction spec as [|[n r] more IH]; simpl; [discriminate|].
  destruct (r s) as [[v' rest']|] eqn:E.
  - intros H; inversion H; subst. eauto.
  - intros H. apply IH in H as (re & ? & ?). eauto.
Qed.

Lemma finditer_from_step fuel s name v rest :
  token_regex uw ud s = Some (name, v, rest) ->
  finditer_from uw ud (S fuel) s = (name, v) :: finditer_from uw ud fuel rest.
Proof.
  intros H. destruct s as [|c r]; [discriminate H|]. simpl. now rewrite H.
Qed.

Lemma shorter_rest (s v rest : string) fuel :
  s = v ++ rest -> v <> "" -> String.length s <= S fuel ->
  String.length rest <= fuel.
Proof.
  intros -> Hne Hlen. rewrite length_append in Hlen.
  destruct v; [congruence | simpl in Hlen; lia].
Qed.

(** [finditer] cuts the text into its matches: put end to end they give the
    text back, nothing is skipped. *)
Lemma finditer_from_join fuel : forall s,
  String.length s <= fuel -> join (map snd (finditer_from uw ud fuel s)) = s.
Proof.
  induction fuel as [|fuel IH]; intros s Hlen.
  - destruct s; [reflexivity | simpl in Hlen; lia].
  - destruct s as [|c r]; [reflexivity|].
    destruct (token_regex uw ud (String c r)) as [[[name v] rest]|] eqn:E;
      [|exfalso; revert E; apply token_regex_total].
    rewrite (finditer_from_step _ _ _ _ _ E).
    apply token_regex_prefix in E as (Hs & Hne & _).
    simpl. rewrite IH by (eapply shorter_rest; eauto). now symmetry.
Qed.

Lemma finditer_join code : join (map snd (finditer uw ud code)) = code.
Proof. apply finditer_from_join. unfold lt. reflexivity. Qed.

Lemma span_all p s a b : span p s = (a, b) -> all p a = true.
Proof.
  revert a b; induction s as [|c r IH]; simpl; intros a b H.
  - now inversion H.
  - destruct (p c) eqn:Ec.
    + destruct (span p r) as [a' b'] eqn:E. inversion H; subst.
      simpl. rewrite Ec. eapply IH; eauto.
    + now inversion H.
Qed.

(** The three groups [tokenize] drops match what their names say. *)
Lemma token_regex_discardable s name v rest :
  token_regex uw ud s = Some (name, v, rest) ->
  Spec.discarded (name, v) = true -> Spec.discardable v = true.
Proof.
  intros H Hd. apply alternation_In in H as (re & Hin & Hre).
  unfold Spec.discarded, in_ in Hd. simpl in Hd, Hin.
  unfold Spec.discardable.
  repeat (destruct Hin as [Hin | Hin];
          [inversion Hin; subst; clear Hin; try discriminate Hd|]);
    [ | | | contradiction].
  - (* COMMENT *)
    unfold re_COMMENT in Hre. destruct s as [|c r]; [discriminate|].
    destruct (Ascii.eqb c "/") eqn:E; [|discriminate].
    destruct r as [|c' r]; [discriminate|].
    destruct (Ascii.eqb c' "/") eqn:E'; [|discriminate].
    destruct (span is_dot r) as [body rest'] eqn:Es.
    inversion Hre; subst. apply span_all in Es.
    unfold Spec.line_comment. rewrite E, E', Es. apply orb_true_r.
  - (* NEWLINE *)
    unfold lit in Hre. destruct s as [|d r]; [discriminate|].
    destruct (Ascii.eqb_spec d LF); [|discriminate].
    inversion Hre; subst. reflexivity.
  - (* SKIP *)
    unfold span1 in Hre. destruct (span is_blank s) as [a b] eqn:Es.
    apply span_all in Es. destruct a; [discriminate|].
    inversion Hre; subst. unfold Spec.blank_run. now rewrite Es.
Qed.

Lemma finditer_from_discardable fuel : forall s,
  Forall (fun m => Spec.discarded m = true -> Spec.discardable (snd m) = true)
         (finditer_from uw ud fuel s).
Proof.
  induction fuel as [|fuel IH]; intros s; [constructor|].
  destruct s as [|c r]; [constructor|].
  destruct (token_regex uw ud (String c r)) as [[[name v] rest]|] eqn:E;
    [|exfalso; revert E; apply token_regex_total].
  rewrite (finditer_from_step _ _ _ _ _ E). constructor; [|apply IH].
  simpl. now apply token_regex_discardable with (1 := E).
Qed.

(** *** The loop of [tokenize] *)

Lemma join_app (l1 l2 : list string) : join (l1 ++ l2) = join l1 ++ join l2.
Proof.
  induction l1 as [|x l1 IH]; simpl; [reflexivity|].
  now rewrite IH, append_assoc.
Qed.

(** The values of the tokens are the values of the matches that are not
    dropped, in order, and the empty value of [EOF]. *)
Lemma tokenize_loop_values kw ms : forall acc toks,
  tokenize_loop kw ms acc = Tokens toks ->
  map snd toks
  = (map snd acc
     ++ map snd (filter (fun m => negb (Spec.discarded m)) ms) ++ [""])%list.
Proof.
  induction ms as [|[kind value] more IH]; simpl; intros acc toks H.
  - inversion H; subst. now rewrite map_app.
  - unfold Spec.discarded, in_; simpl.
    destruct (kind =? "COMMENT") eqn:E1; simpl; [now apply IH|].
    destruct (kind =? "META") eqn:E2.
    { apply String.eqb_eq in E2; subst. simpl.
      apply IH in H. rewrite H, map_app, <- app_assoc. reflexivity. }
    destruct (kind =? "ID") eqn:E3.
    { apply String.eqb_eq in E3; subst. simpl.
      apply IH in H. rewrite H, map_app, <- app_assoc. reflexivity. }
    destruct (kind =? "SKIP") eqn:E4; simpl in *; [now apply IH|].
    destruct (kind =? "NEWLINE") eqn:E5; simpl in *; [now apply IH|].
    destruct (kind =? "MISMATCH"); [discriminate|].
    apply IH in H. rewrite H, map_app, <- app_assoc. reflexivity.
Qed.

Lemma keyword_suffix_not_EOF (g : string) : g ++ "_KEYWORD" <> "EOF".
Proof.
  intros H. apply (f_equal String.length) in H.
  rewrite length_append in H. simpl in H. lia.
Qed.

Lemma keyword_kind_not_EOF kw kind value :
  kind <> "EOF" -> keyword_kind kw kind value <> "EOF".
Proof.
  intros Hk. induction kw as [|[g words] more IH]; simpl; [assumption|].
  destruct (existsb (String.eqb value) words);
    [apply keyword_suffix_not_EOF | assumption].
Qed.

(** No token but the last one appended has the kind [EOF]. *)
Lemma tokenize_loop_ends_in_EOF kw ms : forall acc toks,
  Forall (fun m => fst m <> "EOF") ms ->
  Forall (fun t : token => fst t <> "EOF") acc ->
  tokenize_loop kw ms acc = Tokens toks ->
  Spec.ends_in_EOF toks.
Proof.
  induction ms as [|[kind value] more IH]; simpl; intros acc toks Hms Hacc H.
  - inversion H; subst. now exists acc.
  - inversion Hms as [|? ? Hk Hmore]; subst. simpl in Hk.
    assert (Hsnoc : forall k, k <> "EOF" ->
              Forall (fun t : token => fst t <> "EOF") (acc ++ [(k, value)]))
      by (intros k Hne; apply Forall_app; split; [assumption|];
          constructor; [exact Hne | constructor]).
    destruct (kind =? "COMMENT"); [now apply IH with (acc := acc)|].
    destruct (kind =? "META").
    { eapply IH; [assumption | | exact H]. apply Hsnoc. discriminate. }
    destruct (kind =? "ID").
    { eapply IH; [assumption | | exact H]. apply Hsnoc.
      now apply keyword_kind_not_EOF. }
    destruct ((kind =? "SKIP") || (kind =? "NEWLINE"));
      [now apply IH with (acc := acc)|].
    destruct (kind =? "MISMATCH"); [discriminate|].
    eapply IH; [assumption | | exact H]. now apply Hsnoc.
Qed.

Lemma finditer_from_names fuel : forall s,
  Forall (fun m => fst m <> "EOF") (finditer_from uw ud fuel s).
Proof.
  induction fuel as [|fuel IH]; intros s; [constructor|].
  destruct s as [|c r]; [constructor|].
  destruct (token_regex uw ud (String c r)) as [[[name v] rest]|] eqn:E;
    [|exfalso; revert E; apply token_regex_total].
  rewrite (finditer_from_step _ _ _ _ _ E). constructor; [|apply IH].
  apply token_regex_prefix in E as (_ & _ & Hin). simpl in *.
  intros ->. repeat (destruct Hin as [Hin | Hin]; [discriminate Hin|]).
  contradiction.
Qed.

(** The two keyword tables classify alike: the two [tokenize] agree. *)
Lemma keyword_kind_gui kind value :
  keyword_kind KEYWORDS_gui kind value = keyword_kind KEYWORDS kind value.
Proof.
  unfold KEYWORDS, KEYWORDS_gui; simpl.
  repeat match goal with
         | |- context [String.eqb value ?w] =>
             destruct (String.eqb_spec value w); [subst; reflexivity|]
         end.
  reflexivity.
Qed.

Lemma tokenize_loop_gui ms : forall acc,
  tokenize_loop KEYWORDS_gui ms acc = tokenize_loop KEYWORDS ms acc.
Proof.
  induction ms as [|[kind value] more IH]; intros acc; [reflexivity|].
  cbn [tokenize_loop]. rewrite keyword_kind_gui. now rewrite !IH.
Qed.

Lemma tokenize_gui_eq code : tokenize_gui uw ud code = tokenize uw ud code.
Proof. apply tokenize_loop_gui. Qed.

(** *** Texts of blanks and comments *)

Lemma blank_after_blanks : forall r a b,
  Spec.blank_from false r = true -> span is_blank r = (a, b) ->
  Spec.blank_from false b = true.
Proof.
  induction r as [|d r IH]; simpl; intros a b Hb Hs.
  - now inversion Hs.
  - destruct (is_blank d) eqn:Ed.
    + destruct (span is_blank r) as [a' b'] eqn:E. inversion Hs; subst.
      apply IH with (a := a'); [|reflexivity].
      destruct (Ascii.eqb d LF); assumption.
    + inversion Hs; subst. simpl. now rewrite Ed.
Qed.

Lemma blank_after_comment : forall r a b,
  Spec.blank_from true r = true -> span is_dot r = (a, b) ->
  Spec.blank_from false b = true.
Proof.
  induction r as [|d r IH]; simpl; intros a b Hb Hs.
  - now inversion Hs.
  - assert (Hd : is_dot d = negb (Ascii.eqb d LF)) by reflexivity.
    rewrite Hd in Hs. destruct (Ascii.eqb d LF) eqn:Ed; simpl in Hs.
    + inversion Hs; subst. simpl. now rewrite Ed.
    + destruct (span is_dot r) as [a' b'] eqn:E. inversion Hs; subst.
      now apply IH with (a := a').
Qed.

Lemma token_regex_LF r :
  token_regex uw ud (String LF r) = Some ("NEWLINE", String LF "", r).
Proof. reflexivity. Qed.

Lemma token_regex_blank c r :
  is_blank c = true ->
  token_regex uw ud (String c r)
  = Some ("SKIP", String c (fst (span is_blank r)), snd (span is_blank r)).
Proof.
  intros H. unfold is_blank in H. apply orb_true_iff in H.
  destruct H as [H | H]; apply Ascii.eqb_eq in H; subst c;
    unfold token_regex, token_specification; simpl;
    unfold span1; simpl; now destruct (span is_blank r).
Qed.

Lemma token_regex_comment r :
  token_regex uw ud (String "/" (String "/" r))
  = Some ("COMMENT", String "/" (String "/" (fst (span is_dot r))),
          snd (span is_dot r)).
Proof.
  unfold token_regex, token_specification; simpl.
  now destruct (span is_dot r).
Qed.

(** On such a text every match is dropped, and the loop appends [EOF]
    alone. *)
Lemma blank_tokenize_loop kw fuel : forall s acc,
  String.length s <= fuel -> Spec.blank_from false s = true ->
  tokenize_loop kw (finditer_from uw ud fuel s) acc
  = Tokens (acc ++ [("EOF", "")]).
Proof.
  induction fuel as [|fuel IH]; intros s acc Hlen Hb.
  - destruct s; [reflexivity | simpl in Hlen; lia].
  - destruct s as [|c r]; [reflexivity|].
    assert (Hstep : forall name v rest,
              token_regex uw ud (String c r) = Some (name, v, rest) ->
              Spec.discarded (name, v) = true ->
              Spec.blank_from false rest = true ->
              tokenize_loop kw (finditer_from uw ud (S fuel) (String c r)) acc
              = Tokens (acc ++ [("EOF", "")])).
    { intros name v rest E Hd Hrest.
      rewrite (finditer_from_step _ _ _ _ _ E).
      assert (Hr : String.length rest <= fuel).
      { apply token_regex_prefix in E as (Hs & Hne & _).
        eapply shorter_rest; eauto. }
      specialize (IH rest acc Hr Hrest).
      unfold Spec.discarded, in_ in Hd. simpl in Hd. simpl.
      destruct (name =? "COMMENT"); [exact IH|].
      destruct (name =? "SKIP") eqn:E1;
        [apply String.eqb_eq in E1; subst; exact IH|].
      destruct (name =? "NEWLINE") eqn:E2;
        [apply String.eqb_eq in E2; subst; exact IH|].
      discriminate Hd. }
    simpl in Hb. destruct (Ascii.eqb_spec c LF) as [->|Hc].
    + eapply Hstep; [apply token_regex_LF | reflexivity | exact Hb].
    + destruct (is_blank c) eqn:Eb.
      * eapply Hstep; [now apply token_regex_blank | reflexivity |].
        eapply blank_after_blanks; [exact Hb | apply surjective_pairing].
      * destruct r as [|c' r']; [discriminate|].
        apply andb_true_iff in Hb as [Hb Hrest].
        apply andb_true_iff in Hb as [H1 H2].
        apply Ascii.eqb_eq in H1, H2; subst c c'.
        eapply Hstep; [apply token_regex_comment | reflexivity |].
        eapply blank_after_comment; [exact Hrest | apply surjective_pairing].
Qed.

(** *** The text without its blanks and comments *)

Ltac each_char c :=
  destruct c as [[|] [|] [|] [|] [|] [|] [|] [|]].

Lemma word_is_plain c : is_word uw c = true -> plain c = true.
Proof.
  unfold is_word. destruct (is_ascii c) eqn:E.
  - each_char c; try discriminate E; intros H; try discriminate H;
      reflexivity.
  - intros _. each_char c; try discriminate E; reflexivity.
Qed.

Lemma digit_is_plain c : is_digit ud c = true -> plain c = true.
Proof.
  unfold is_digit. destruct (is_ascii c) eqn:E.
  - each_char c; try discriminate E; intros H; try discriminate H;
      reflexivity.
  - intros _. each_char c; try discriminate E; reflexivity.
Qed.

Lemma id_start_is_plain c : is_id_start c = true -> plain c = true.
Proof. each_char c; intros H; try discriminate H; reflexivity. Qed.

Lemma all_impl (p q : ascii -> bool) s :
  (forall c, p c = true -> q c = true) -> all p s = true -> all q s = true.
Proof.
  intros Hpq. induction s as [|c r IH]; simpl; [reflexivity|].
  intros H. apply andb_true_iff in H as [Hc Hr].
  now rewrite (Hpq c Hc), IH.
Qed.

Lemma strip_plain_char c r :
  plain c = true -> strip_in Outside (String c r) = String c (strip_in Outside r).
Proof.
  unfold plain. intros H. apply negb_true_iff in H.
  apply orb_false_iff in H as [H H4]. apply orb_false_iff in H as [H H3].
  apply orb_false_iff in H as [H1 H2].
  simpl. now rewrite H1, H2, H3, H4.
Qed.

(** A run of plain characters is copied. *)
Lemma strip_plain v rest :
  all plain v = true ->
  strip_in Outside (v ++ rest) = v ++ strip_in Outside rest.
Proof.
  induction v as [|c v IH]; intros H; [reflexivity|].
  simpl in H. apply andb_true_iff in H as [Hc Hv].
  change (String c v ++ rest) with (String c (v ++ rest)).
  rewrite (strip_plain_char _ _ Hc), (IH Hv). reflexivity.
Qed.

(** A run of blanks is dropped. *)
Lemma strip_blanks v rest :
  all is_blank v = true ->
  strip_in Outside (v ++ rest) = strip_in Outside rest.
Proof.
  induction v as [|c v IH]; intros H; [reflexivity|].
  simpl in H. apply andb_true_iff in H as [Hc Hv].
  change (String c v ++ rest) with (String c (v ++ rest)).
  rewrite <- (IH Hv). simpl. rewrite Hc.
  assert (Hq : Ascii.eqb c DQUOTE = false)
    by (each_char c; try discriminate Hc; reflexivity).
  rewrite Hq, orb_true_r. reflexivity.
Qed.

(** What is left after a greedy run begins with a character that does not
    belong to it. *)
Lemma span_stops p s a b :
  span p s = (a, b) ->
  b = "" \/ exists c b', b = String c b' /\ p c = false.
Proof.
  revert a b; induction s as [|c r IH]; simpl; intros a b H.
  - inversion H. now left.
  - destruct (p c) eqn:Ec.
    + destruct (span p r) as [a' b'] eqn:E. inversion H; subst. eauto.
    + inversion H; subst. right. eauto.
Qed.

(** The body of a comment is dropped, and the line feed after it is dropped
    as it would be outside a comment. *)
Lemma strip_comment body rest :
  all is_dot body = true ->
  rest = "" \/ (exists c b', rest = String c b' /\ is_dot c = false) ->
  strip_in InComment (body ++ rest) = strip_in Outside rest.
Proof.
  intros Hbody Hrest. induction body as [|c v IH].
  - destruct Hrest as [-> | (c & b' & -> & Hc)]; [reflexivity|].
    unfold is_dot in Hc. apply negb_false_iff in Hc. apply Ascii.eqb_eq in Hc.
    subst c. reflexivity.
  - simpl in Hbody. apply andb_true_iff in Hbody as [Hc Hv].
    unfold is_dot in Hc. apply negb_true_iff in Hc.
    change (String c v ++ rest) with (String c (v ++ rest)).
    simpl. rewrite Hc. now apply IH.
Qed.

(** A string literal is copied whole. *)
Lemma strip_string body rest :
  all is_not_quote body = true ->
  strip_in InString (body ++ String DQUOTE rest)
  = body ++ String DQUOTE (strip_in Outside rest).
Proof.
  induction body as [|c v IH]; intros H; [reflexivity|].
  simpl in H. apply andb_true_iff in H as [Hc Hv].
  unfold is_not_quote in Hc. apply negb_true_iff in Hc.
  change (String c v ++ String DQUOTE rest)
    with (String c (v ++ String DQUOTE rest)).
  simpl. rewrite Hc. f_equal. now apply IH.
Qed.

(** A run of operator characters is copied once it has begun. *)
Lemma strip_operator v rest :
  all is_op_char v = true ->
  rest = "" \/ (exists c b', rest = String c b' /\ is_op_char c = false) ->
  strip_in InOperator (v ++ rest) = v ++ strip_in Outside rest.
Proof.
  intros Hv Hrest. induction v as [|c v IH].
  - destruct Hrest as [-> | (c & b' & -> & Hc)]; [reflexivity|].
    simpl. now rewrite Hc.
  - simpl in Hv. apply andb_true_iff in Hv as [Hc Hv].
    change (String c v ++ rest) with (String c (v ++ rest)).
    simpl. rewrite Hc. f_equal. now apply IH.
Qed.

Lemma all_app p a b : all p (a ++ b) = all p a && all p b.
Proof.
  induction a as [|c a IH]; simpl; [reflexivity|].
  now rewrite IH, andb_assoc.
Qed.

Lemma span1_all p s a b : span1 p s = Some (a, b) -> all p a = true.
Proof.
  unfold span1. destruct (span p s) as [a' b'] eqn:E.
  apply span_all in E. destruct a'; intros H; inversion H; subst. exact E.
Qed.

Lemma re_META_plain s v rest :
  re_META uw s = Some (v, rest) -> all plain v = true.
Proof.
  unfold re_META. destruct s as [|c r]; [discriminate|].
  destruct (Ascii.eqb_spec c "#"); [subst c|discriminate].
  destruct (span1 (is_word uw) r) as [[w rest']|] eqn:E; [|discriminate].
  intros H; inversion H; subst. apply span1_all in E.
  simpl. eapply all_impl; [apply word_is_plain | exact E].
Qed.

Lemma re_NUMBER_plain s v rest :
  re_NUMBER ud s = Some (v, rest) -> all plain v = true.
Proof.
  unfold re_NUMBER.
  destruct (span1 (is_digit ud) s) as [[int_part r]|] eqn:E; [|discriminate].
  apply span1_all in E.
  assert (Hi : all plain int_part = true)
    by (eapply all_impl; [apply digit_is_plain | exact E]).
  destruct r as [|c r']; [intros H; inversion H; subst; exact Hi|].
  destruct (Ascii.eqb_spec c "."); [subst c|intros H; inversion H; subst; exact Hi].
  destruct (span1 (is_digit ud) r') as [[frac rest']|] eqn:E';
    [|intros H; inversion H; subst; exact Hi].
  apply span1_all in E'. intros H; inversion H; subst.
  rewrite all_app, Hi. simpl.
  eapply all_impl; [apply digit_is_plain | exact E'].
Qed.

Lemma re_ID_plain s v rest :
  re_ID uw s = Some (v, rest) -> all plain v = true.
Proof.
  unfold re_ID. destruct s as [|c r]; [discriminate|].
  destruct (is_id_start c) eqn:Ec; [|discriminate].
  destruct (span (is_word uw) r) as [w rest'] eqn:E.
  apply span_all in E. intros H; inversion H; subst.
  simpl. rewrite (id_start_is_plain _ Ec).
  eapply all_impl; [apply word_is_plain | exact E].
Qed.

Lemma lit_plain c s v rest :
  plain c = true -> lit c s = Some (v, rest) -> all plain v = true.
Proof.
  intros Hc. unfold lit. destruct s as [|d r]; [discriminate|].
  destruct (Ascii.eqb_spec d c); [subst d|discriminate].
  intros H; inversion H; subst. simpl. now rewrite Hc.
Qed.

Lemma strip_plain_match (re : string -> option (string * string)) s v rest :
  prefix_matcher re -> re s = Some (v, rest) -> all plain v = true ->
  strip_in Outside s = v ++ strip_in Outside rest.
Proof.
  intros Hre H Hv. apply Hre in H as [-> _]. now apply strip_plain.
Qed.

Lemma strip_COMMENT s v rest :
  re_COMMENT s = Some (v, rest) -> strip_in Outside s = strip_in Outside rest.
Proof.
  unfold re_COMMENT. destruct s as [|c r]; [discriminate|].
  destruct (Ascii.eqb_spec c "/"); [subst c|discriminate].
  destruct r as [|c' r']; [discriminate|].
  destruct (Ascii.eqb_spec c' "/"); [subst c'|discriminate].
  destruct (span is_dot r') as [body rest'] eqn:E.
  intros H; inversion H; subst.
  rewrite (span_app _ _ _ _ E).
  change (strip_in Outside (String "/" (String "/" (body ++ rest))))
    with (strip_in InComment (body ++ rest)).
  apply strip_comment; [exact (span_all _ _ _ _ E) | exact (span_stops _ _ _ _ E)].
Qed.

Lemma strip_STRING s v rest :
  re_STRING s = Some (v, rest) ->
  strip_in Outside s = v ++ strip_in Outside rest.
Proof.
  unfold re_STRING. destruct s as [|d r]; [discriminate|].
  destruct (Ascii.eqb_spec d DQUOTE); [subst d|discriminate].
  destruct (span is_not_quote r) as [body r'] eqn:E.
  destruct r' as [|d' rest']; [discriminate|].
  intros H; inversion H; subst.
  destruct (span_stops _ _ _ _ E) as [Hr | (c & b' & Hr & Hc)];
    [discriminate Hr|].
  inversion Hr; subst c b'.
  unfold is_not_quote in Hc. apply negb_false_iff in Hc.
  apply Ascii.eqb_eq in Hc. subst d'.
  rewrite (span_app _ _ _ _ E).
  change (strip_in Outside (String DQUOTE (body ++ String DQUOTE rest)))
    with (String DQUOTE (strip_in InString (body ++ String DQUOTE rest))).
  rewrite (strip_string _ _ (span_all _ _ _ _ E)).
  simpl. now rewrite append_assoc.
Qed.

(** An [OP] match: the patterns [COMMENT] and [ASSIGN] before it have
    failed, so the run begins with neither two slashes nor [=]. *)
Lemma strip_OP s v rest :
  re_COMMENT s = None -> lit "=" s = None ->
  span1 is_op_char s = Some (v, rest) ->
  strip_in Outside s = v ++ strip_in Outside rest.
Proof.
  intros Hcomment Hassign. unfold span1.
  destruct (span is_op_char s) as [a b] eqn:E.
  destruct a as [|c v']; [discriminate|]. intros H; inversion H; subst.
  pose proof (span_all _ _ _ _ E) as Hall.
  pose proof (span_stops _ _ _ _ E) as Hstop.
  apply span_app in E. subst s.
  simpl in Hall. apply andb_true_iff in Hall as [Hc Hv'].
  change (String c v' ++ rest) with (String c (v' ++ rest)) in *.
  simpl in Hassign. destruct (Ascii.eqb c "=") eqn:Eeq; [discriminate|].
  assert (Hq : Ascii.eqb c DQUOTE = false)
    by (each_char c; try discriminate Hc; reflexivity).
  assert (Hb : Ascii.eqb c LF || is_blank c = false)
    by (each_char c; try discriminate Hc; reflexivity).
  assert (Hinside :
    strip_in InOperator (v' ++ rest) = v' ++ strip_in Outside rest)
    by (now apply strip_operator).
  cbn [strip_in]. rewrite Hq, Hb. unfold begins_operator.
  rewrite Hc, Eeq. cbn [andb negb].
  destruct (v' ++ rest) as [|c' r'] eqn:Er.
  - destruct v'; [|discriminate Er]. simpl in Er. subst rest. reflexivity.
  - simpl in Hcomment.
    destruct (Ascii.eqb c "/"); cbn [andb].
    + destruct (Ascii.eqb c' "/").
      * destruct (span is_dot r'); discriminate Hcomment.
      * simpl. f_equal. exact Hinside.
    + simpl. f_equal. exact Hinside.
Qed.

(** One match of the scanner against the text it is cut from: a dropped
    match goes, a kept one is copied as it is. *)
Lemma strip_match s name v rest :
  token_regex uw ud s = Some (name, v, rest) -> name <> "MISMATCH" ->
  strip_in Outside s
  = (if discarded (name, v) then "" else v) ++ strip_in Outside rest.
Proof.
  unfold token_regex, token_specification. cbn [alternation].
  intros H Hname.
  destruct (re_META uw s) as [[v0 r0]|] eqn:E1.
  { inversion H; subst. simpl.
    eapply strip_plain_match; [apply re_META_prefix | eauto |].
    eapply re_META_plain; eauto. }
  destruct (re_COMMENT s) as [[v0 r0]|] eqn:E2.
  { inversion H; subst. simpl. eapply strip_COMMENT; eauto. }
  destruct (re_NUMBER ud s) as [[v0 r0]|] eqn:E3.
  { inversion H; subst. simpl.
    eapply strip_plain_match; [apply re_NUMBER_prefix | eauto |].
    eapply re_NUMBER_plain; eauto. }
  destruct (lit "=" s) as [[v0 r0]|] eqn:E4.
  { inversion H; subst. simpl.
    eapply strip_plain_match; [intros ? ? ?; apply lit_app | eauto |].
    eapply lit_plain; [|eauto]. reflexivity. }
  repeat match type of H with
         | match lit ?c s with _ => _ end = _ =>
             let E := fresh "E" in
             destruct (lit c s) as [[v0 r0]|] eqn:E;
             [ inversion H; subst; simpl;
               eapply strip_plain_match;
               [intros ? ? ?; apply lit_app | eauto |];
               eapply lit_plain; [|eauto]; reflexivity |]
         | match re_STRING s with _ => _ end = _ =>
             let E := fresh "E" in
             destruct (re_STRING s) as [[v0 r0]|] eqn:E;
             [ inversion H; subst; simpl; eapply strip_STRING; eauto |]
         | match re_ID uw s with _ => _ end = _ =>
             let E := fresh "E" in
             destruct (re_ID uw s) as [[v0 r0]|] eqn:E;
             [ inversion H; subst; simpl;
               eapply strip_plain_match; [apply re_ID_prefix | eauto |];
               eapply re_ID_plain; eauto |]
         end.
  destruct (span1 is_op_char s) as [[v0 r0]|] eqn:E13.
  { inversion H; subst. simpl. now apply strip_OP. }
  destruct (lit LF s) as [[v0 r0]|] eqn:E14.
  { clear - E14 H. unfold lit in E14. destruct s as [|d r]; [discriminate|].
    destruct (Ascii.eqb_spec d LF); [subst d|discriminate].
    inversion E14; subst. inversion H; subst. reflexivity. }
  destruct (span1 is_blank s) as [[v0 r0]|] eqn:E15.
  { inversion H; subst. simpl.
    apply span1_app in E15 as E15'. destruct E15' as [-> _].
    apply strip_blanks. eapply span1_all; eauto. }
  destruct (re_MISMATCH s) as [[v0 r0]|]; [|discriminate].
  inversion H; subst. now contradiction Hname.
Qed.

(** [tokenize] raises at the first [MISMATCH]: when it returns there was
    none. *)
Lemma tokenize_loop_no_mismatch kw ms : forall acc toks,
  tokenize_loop kw ms acc = Tokens toks ->
  Forall (fun m => fst m <> "MISMATCH") ms.
Proof.
  induction ms as [|[kind value] more IH]; simpl; intros acc toks H;
    [constructor|].
  destruct (kind =? "COMMENT") eqn:E1.
  { apply String.eqb_eq in E1; subst.
    constructor; [simpl; discriminate | eapply IH; exact H]. }
  destruct (kind =? "META") eqn:E2.
  { apply String.eqb_eq in E2; subst.
    constructor; [simpl; discriminate | eapply IH; exact H]. }
  destruct (kind =? "ID") eqn:E3.
  { apply String.eqb_eq in E3; subst.
    constructor; [simpl; discriminate | eapply IH; exact H]. }
  destruct (kind =? "SKIP") eqn:E4.
  { apply String.eqb_eq in E4; subst.
    constructor; [simpl; discriminate | eapply IH; exact H]. }
  destruct (kind =? "NEWLINE") eqn:E5.
  { apply String.eqb_eq in E5; subst.
    constructor; [simpl; discriminate | eapply IH; exact H]. }
  simpl in H. destruct (kind =? "MISMATCH") eqn:E6; [discriminate|].
  apply String.eqb_neq in E6. constructor; [exact E6 | eapply IH; exact H].
Qed.

(** The kept matches put end to end are the text without what stands
    outside literals and is blank or comment. *)
Lemma finditer_from_strip fuel : forall s,
  String.length s <= fuel ->
  Forall (fun m => fst m <> "MISMATCH") (finditer_from uw ud fuel s) ->
  join (map snd (filter (fun m => negb (discarded m))
                        (finditer_from uw ud fuel s)))
  = strip_in Outside s.
Proof.
  induction fuel as [|fuel IH]; intros s Hlen Hms.
  - destruct s; [reflexivity | simpl in Hlen; lia].
  - destruct s as [|c r]; [reflexivity|].
    destruct (token_regex uw ud (String c r)) as [[[name v] rest]|] eqn:E;
      [|exfalso; revert E; apply token_regex_total].
    rewrite (finditer_from_step _ _ _ _ _ E) in *.
    inversion Hms as [|? ? Hname Hrest]; subst. simpl in Hname.
    rewrite (strip_match _ _ _ _ E Hname).
    pose proof (token_regex_prefix _ _ _ _ E) as (Hs & Hne & _).
    rewrite <- (IH rest) by (eauto using shorter_rest).
    cbn [filter]. destruct (discarded (name, v)); reflexivity.
Qed.

End WithUnicode.

(** The tokens of the scanner end in [EOF], the only token of that kind. *)
Lemma tokenize_ends_in_EOF uw ud code toks :
  tokenize uw ud code = Tokens toks -> Spec.ends_in_EOF toks.
Proof.
  apply tokenize_loop_ends_in_EOF; [apply finditer_from_names | constructor].
Qed.

(** *** The claims on the scanner *)

(** C1 (as the code has it): [==] is scanned as two [ASSIGN] tokens, the
    pattern [ASSIGN] standing before [OP] in [token_specification]; the
    spellings [!=], [++] and [--] are each one [OP] token. *)
Theorem double_equals_is_two_ASSIGN uw ud :
  tokenize uw ud "==" = Tokens [("ASSIGN", "="); ("ASSIGN", "="); ("EOF", "")]
  /\ tokenize uw ud "!=" = Tokens [("OP", "!="); ("EOF", "")]
  /\ tokenize uw ud "++" = Tokens [("OP", "++"); ("EOF", "")]
  /\ tokenize uw ud "--" = Tokens [("OP", "--"); ("EOF", "")].
Proof. repeat split; reflexivity. Qed.

(** C7 (amended): on a text of spaces, tabs, line feeds and line comments
    only, the scanner succeeds and gives the [EOF] token alone.  The blanks
    of the scanner are the space and the tab of its pattern [SKIP], and the
    line feed of [NEWLINE]; no other whitespace character is one. *)
Theorem blank_text_scans_to_EOF uw ud code :
  Spec.only_blanks_and_comments code = true ->
  tokenize uw ud code = Tokens [("EOF", "")].
Proof.
  intros H. unfold tokenize, tokenize_with, finditer.
  now apply (blank_tokenize_loop uw ud KEYWORDS _ code []).
Qed.

Lemma blank_text_scans_to_EOF_witness :
  Spec.only_blanks_and_comments Spec.blank_sample = true
  /\ tokenize Spec.ascii_only Spec.ascii_only Spec.blank_sample
     = Tokens [("EOF", "")].
Proof.
  split; [reflexivity|].
  apply (blank_text_scans_to_EOF Spec.ascii_only Spec.ascii_only
           Spec.blank_sample).
  reflexivity.
Defined.

(** C7 (as stated) fails: a carriage return, a form feed and a vertical
    tab are whitespace characters, and a text made of one of them, or a
    blank line that ends in carriage return and line feed, is refused by the
    scanner: the character is a [MISMATCH]. *)
Lemma carriage_return_is_rejected :
  (forall uw ud,
     tokenize uw ud (String "013" "")
     = RuntimeError ("Unexpected token: " ++ String "013" ""))
  /\ (forall uw ud,
        tokenize uw ud (String "012" "")
        = RuntimeError ("Unexpected token: " ++ String "012" ""))
  /\ (forall uw ud,
        tokenize uw ud (String "011" "")
        = RuntimeError ("Unexpected token: " ++ String "011" ""))
  /\ (forall uw ud,
        tokenize uw ud (String SPACE (String "013" (String LF "")))
        = RuntimeError ("Unexpected token: " ++ String "013" "")).
Proof. repeat split; reflexivity. Qed.

(** C5 (as stated) fails: the blank inside a string literal stays in the
    value of the [STRING] token, and is gone from the text once all
    whitespace is removed. *)
Lemma roundtrip_fails_inside_string :
  (forall uw ud,
     tokenize uw ud (Spec.quoted "a b")
     = Tokens [("STRING", Spec.quoted "a b"); ("EOF", "")])
  /\ join (map snd [("STRING", Spec.quoted "a b"); ("EOF", "")])
     = Spec.quoted "a b"
  /\ Spec.strip_blanks_and_comments (Spec.quoted "a b") = Spec.quoted "ab"
  /\ join (map snd [("STRING", Spec.quoted "a b"); ("EOF", "")])
     <> Spec.strip_blanks_and_comments (Spec.quoted "a b").
Proof. repeat split; try reflexivity. discriminate. Qed.

(** When the scanner succeeds, the matches of [finditer] put end to end are
    the text; the values of the tokens put end to end are the matches that
    are not dropped, in order; and every dropped match is a run of spaces
    and tabs, a line feed or a line comment. *)
Lemma tokenize_cuts_the_text uw ud code toks :
  tokenize uw ud code = Tokens toks ->
  join (map snd (finditer uw ud code)) = code
  /\ join (map snd toks)
     = join (map snd (filter (fun m => negb (discarded m))
                             (finditer uw ud code)))
  /\ Forall (fun m => discarded m = true -> discardable (snd m) = true)
            (finditer uw ud code).
Proof.
  intros H. split; [apply finditer_join|]. split.
  - apply tokenize_loop_values in H. rewrite H. simpl.
    rewrite join_app. simpl. now rewrite append_nil_r.
  - apply finditer_from_discardable.
Qed.

(** C5 (amended): when the scanner succeeds, the values of the tokens put
    end to end ([EOF] giving the empty string) are the text without the
    spaces, tabs, line feeds and line comments that stand outside a string
    literal; two slashes glued to the end of an operator belong to the
    operator and open no comment. *)
Theorem tokenize_roundtrip uw ud code toks :
  tokenize uw ud code = Tokens toks ->
  join (map snd toks) = strip_outside_literals code.
Proof.
  intros H.
  destruct (tokenize_cuts_the_text uw ud code toks H) as (_ & -> & _).
  apply finditer_from_strip; [apply Nat.le_refl|].
  now apply tokenize_loop_no_mismatch in H.
Qed.

Lemma tokenize_roundtrip_witness :
  tokenize ascii_only ascii_only greeting_sample
  = Tokens [("OUTPUT_KEYWORD", "announce"); ("STRING", quoted "hi there");
            ("END", ";"); ("EOF", "")]
  /\ strip_outside_literals greeting_sample
     = "announce" ++ quoted "hi there" ++ ";"
  /\ join (map snd [("OUTPUT_KEYWORD", "announce");
                    ("STRING", quoted "hi there");
                    ("END", ";"); ("EOF", "")])
     = strip_outside_literals greeting_sample.
Proof.
  split; [reflexivity|]. split; [reflexivity|].
  apply (tokenize_roundtrip ascii_only ascii_only greeting_sample).
  reflexivity.
Defined.

End ScannerFacts.

(** * Properties of the recognizer *)

Module RecognizerFacts.
Import Recognizer.
Import Spec.

(** ** Invariants of the state *)

Section Keeps.

Variable tokens : list token.
Variable Inv : state -> Prop.
Variable allowed : exn -> Prop.

(** The invariant does not read the lines written. *)
Hypothesis Inv_out : forall s l, Inv s -> Inv (mkState (pos s) l).
Hypothesis allowed_SystemExit : allowed SystemExit.
Hypothesis allowed_OutOfFuel : allowed OutOfFuel.
(** Reading the current token, and the two places where the cursor moves. *)
Hypothesis keeps_current_token : keeps Inv allowed (current_token tokens).
Hypothesis keeps_match_ : forall expected_type expected_value,
  expected_type <> "EOF" ->
  keeps Inv allowed (match_ tokens expected_type expected_value).
Hypothesis keeps_function_name :
  keeps Inv allowed
    (t <- current_token tokens ;;
     if in_ (fst t) ["ID"; "FUNCTION_KEYWORD"] then advance
     else error tokens "Expected function name after 'play'" None None).

Lemma keeps_ret A (a : A) : keeps Inv allowed (ret a).
Proof. intros s Hs. split; [exact Hs | discriminate]. Qed.

Lemma keeps_raise A e : allowed e -> keeps Inv allowed (@raise A e).
Proof.
  intros He s Hs. split; [exact Hs|].
  intros e' s' H. now inversion H; subst.
Qed.

Lemma keeps_bind A B (m : M A) (k : A -> M B) :
  keeps Inv allowed m -> (forall a, keeps Inv allowed (k a)) ->
  keeps Inv allowed (bind m k).
Proof.
  intros Hm Hk s Hs. unfold bind.
  destruct (Hm s Hs) as [Hi He]. destruct (m s) as [a s1 | e s1].
  - apply Hk, Hi.
  - split; [exact Hi|]. intros e' s' H. inversion H; subst. eapply He; eauto.
Qed.

Lemma keeps_log msg : keeps Inv allowed (log msg).
Proof. intros s Hs. split; [now apply Inv_out | discriminate]. Qed.

Lemma keeps_error A msg k v : keeps Inv allowed (@error tokens A msg k v).
Proof.
  unfold error. apply keeps_bind.
  - destruct k, v; try apply keeps_current_token; apply keeps_ret.
  - intros t. apply keeps_bind; [apply keeps_log|].
    intros _. now apply keeps_raise.
Qed.

Lemma keeps_lookahead n : keeps Inv allowed (lookahead tokens n).
Proof.
  intros s Hs. unfold lookahead.
  destruct (pos s + n <? List.length tokens)%nat; (split; [exact Hs | discriminate]).
Qed.

Lemma keeps_while cond body :
  keeps Inv allowed cond -> keeps Inv allowed body ->
  forall fuel, keeps Inv allowed (while_ fuel cond body).
Proof.
  intros Hc Hb. induction fuel as [|fuel IH]; simpl.
  - now apply keeps_raise.
  - apply keeps_bind; [exact Hc|]. intros [|]; [|apply keeps_ret].
    apply keeps_bind; [exact Hb | intros _; exact IH].
Qed.

Ltac keeps_step :=
  match goal with
  | H : keeps _ _ ?m |- keeps _ _ ?m => exact H
  | |- keeps _ _ (bind _ _) => apply keeps_bind; [|intros ?]
  | |- keeps _ _ (ret _) => apply keeps_ret
  | |- keeps _ _ (raise _) => apply keeps_raise; assumption
  | |- keeps _ _ (log _) => apply keeps_log
  | |- keeps _ _ (error _ _ _ _) => apply keeps_error
  | |- keeps _ _ (current_token _) => apply keeps_current_token
  | |- keeps _ _ (lookahead _ _) => apply keeps_lookahead
  | |- keeps _ _ (kind_is _ _) => unfold kind_is
  | |- keeps _ _ (more_statements _) => unfold more_statements
  | |- keeps _ _ (while_ _ _ _) => apply keeps_while
  | |- keeps _ _ (match_ _ _ _) =>
      apply keeps_match_;
      first [ discriminate
            | intros ->;
              match goal with
              | E : in_ _ _ = true |- _ => vm_compute in E; discriminate E
              end ]
  | |- keeps _ _ (if ?b then _ else _) => destruct b eqn:?
  | |- keeps _ _ (let (_, _) := ?t in _) => destruct t
  | |- keeps _ _ (match ?f with cr7_compiler => _ | cr7_gui => _ end) =>
      destruct f
  end.

Lemma keeps_parse_meta : keeps Inv allowed (parse_meta tokens).
Proof. unfold parse_meta. repeat keeps_step. Qed.

Lemma keeps_parse_param_list fuel :
  keeps Inv allowed (parse_param_list tokens fuel).
Proof. unfold parse_param_list. repeat keeps_step. Qed.

Lemma keeps_expressions file : forall fuel,
  keeps Inv allowed (parse_expr file tokens fuel)
  /\ keeps Inv allowed (parse_term file tokens fuel)
  /\ keeps Inv allowed (parse_factor file tokens fuel).
Proof.
  induction fuel as [|fuel (IHe & IHt & IHf)].
  - split; [|split]; now apply keeps_raise.
  - split; [|split]; cbn [parse_expr parse_term parse_factor];
      repeat keeps_step.
Qed.

Lemma keeps_parse_expr file fuel :
  keeps Inv allowed (parse_expr file tokens fuel).
Proof. apply keeps_expressions. Qed.

Lemma keeps_parse_condition file fuel :
  keeps Inv allowed (parse_condition file tokens fuel).
Proof.
  pose proof (keeps_parse_expr file fuel).
  unfold parse_condition. repeat keeps_step.
Qed.

Lemma keeps_parse_declaration file fuel :
  keeps Inv allowed (parse_declaration file tokens fuel).
Proof.
  pose proof (keeps_parse_expr file fuel).
  unfold parse_declaration. repeat keeps_step.
Qed.

Lemma keeps_parse_assignment file fuel :
  keeps Inv allowed (parse_assignment file tokens fuel).
Proof.
  pose proof (keeps_parse_expr file fuel).
  unfold parse_assignment. repeat keeps_step.
Qed.

Lemma keeps_parse_declaration_in_for file fuel :
  keeps Inv allowed (parse_declaration_in_for file tokens fuel).
Proof.
  pose proof (keeps_parse_expr file fuel).
  unfold parse_declaration_in_for. repeat keeps_step.
Qed.

Lemma keeps_parse_assignment_in_for file fuel :
  keeps Inv allowed (parse_assignment_in_for file tokens fuel).
Proof.
  pose proof (keeps_parse_expr file fuel).
  unfold parse_assignment_in_for. repeat keeps_step.
Qed.

Lemma keeps_parse_output file fuel :
  keeps Inv allowed (parse_output file tokens fuel).
Proof.
  pose proof (keeps_parse_expr file fuel).
  unfold parse_output. repeat keeps_step.
Qed.

Lemma keeps_parse_input : keeps Inv allowed (parse_input tokens).
Proof. unfold parse_input. repeat keeps_step. Qed.

Lemma keeps_parse_return file fuel :
  keeps Inv allowed (parse_return file tokens fuel).
Proof.
  pose proof (keeps_parse_expr file fuel).
  unfold parse_return. repeat keeps_step.
Qed.

Lemma keeps_statements file : forall fuel,
  keeps Inv allowed (parse_statement_list file tokens fuel)
  /\ keeps Inv allowed (parse_statement file tokens fuel)
  /\ keeps Inv allowed (parse_if file tokens fuel)
  /\ keeps Inv allowed (parse_while file tokens fuel)
  /\ keeps Inv allowed (parse_for file tokens fuel).
Proof.
  induction fuel as [|fuel (IHl & IHs & IHi & IHw & IHf)].
  - split; [|split; [|split; [|split]]]; now apply keeps_raise.
  - pose proof (keeps_parse_condition file fuel).
    pose proof (keeps_parse_declaration file fuel).
    pose proof (keeps_parse_assignment file fuel).
    pose proof (keeps_parse_declaration_in_for file fuel).
    pose proof (keeps_parse_assignment_in_for file fuel).
    pose proof (keeps_parse_output file fuel).
    pose proof keeps_parse_input.
    pose proof (keeps_parse_return file fuel).
    split; [|split; [|split; [|split]]];
      cbn [parse_statement_list parse_statement parse_if parse_while
           parse_for];
      repeat keeps_step.
Qed.

Lemma keeps_parse_function file fuel :
  keeps Inv allowed (parse_function file tokens fuel).
Proof.
  pose proof (keeps_parse_param_list fuel).
  destruct (keeps_statements file fuel) as (? & _).
  unfold parse_function. destruct file.
  - repeat keeps_step.
  - apply keeps_bind; [repeat keeps_step | intros _].
    apply keeps_bind; [exact keeps_function_name | intros _].
    repeat keeps_step.
Qed.

Lemma keeps_parse_program file fuel :
  keeps Inv allowed (parse_program file tokens fuel).
Proof.
  pose proof keeps_parse_meta.
  pose proof (keeps_parse_function file fuel).
  unfold parse_program. repeat keeps_step.
Qed.

(** Every grammar procedure keeps the invariant. *)
Lemma keeps_call file p fuel : keeps Inv allowed (call file tokens p fuel).
Proof.
  destruct p; simpl;
    first [ apply keeps_parse_program | apply keeps_parse_meta
          | apply keeps_parse_function | apply keeps_parse_param_list
          | apply keeps_statements | apply keeps_parse_declaration
          | apply keeps_parse_assignment
          | apply keeps_parse_declaration_in_for
          | apply keeps_parse_assignment_in_for | apply keeps_parse_output
          | apply keeps_parse_input | apply keeps_parse_return
          | apply keeps_parse_condition | apply keeps_expressions ].
Qed.

End Keeps.

(** ** The cursor *)

(** [match] moves the cursor one token forward when it returns and leaves it
    where it is when it raises. *)
Lemma match__cursor tokens expected_type expected_value s :
  match match_ tokens expected_type expected_value s with
  | Return _ s' => pos s' = pos s + 1
  | Raise _ s' => pos s' = pos s
  end.
Proof.
  unfold match_, bind, current_token.
  destruct (nth_error tokens (pos s)) as [[kind value]|]; [|reflexivity].
  destruct ((kind =? expected_type)
            && match expected_value with
               | Some v => value =? v
               | None => true
               end); reflexivity.
Qed.

Lemma error_cursor tokens A msg k v s :
  exists e s', @error tokens A msg k v s = Raise e s' /\ pos s' = pos s.
Proof.
  unfold error, bind, current_token, ret.
  destruct k, v; try (destruct (nth_error tokens (pos s))); simpl; eauto.
Qed.

Section Monotone.

Variable tokens : list token.
Variable n : nat.

Lemma at_least_current_token : keeps (cursor_at_least n) any_exception (current_token tokens).
Proof.
  intros s Hs. unfold current_token.
  destruct (nth_error tokens (pos s)); (split; [exact Hs | constructor]).
Qed.

Lemma at_least_match_ expected_type expected_value :
  keeps (cursor_at_least n) any_exception (match_ tokens expected_type expected_value).
Proof.
  intros s Hs. split; [|constructor].
  pose proof (match__cursor tokens expected_type expected_value s) as H.
  unfold cursor_at_least in *.
  destruct (match_ tokens expected_type expected_value s); simpl; lia.
Qed.

Lemma at_least_function_name :
  keeps (cursor_at_least n) any_exception
    (t <- current_token tokens ;;
     if in_ (fst t) ["ID"; "FUNCTION_KEYWORD"] then advance
     else error tokens "Expected function name after 'play'" None None).
Proof.
  intros s Hs. split; [|constructor]. unfold bind at 1, current_token.
  unfold cursor_at_least in *.
  destruct (nth_error tokens (pos s)) as [t|]; [|exact Hs].
  destruct (in_ (fst t) ["ID"; "FUNCTION_KEYWORD"]).
  - simpl. lia.
  - destruct (error_cursor tokens unit
                "Expected function name after 'play'" None None s)
      as (e & s' & -> & Hp). simpl. lia.
Qed.

Lemma at_least_call file p fuel : keeps (cursor_at_least n) any_exception (call file tokens p fuel).
Proof.
  apply keeps_call; try exact I.
  - intros s l Hs. exact Hs.
  - apply at_least_current_token.
  - intros. apply at_least_match_.
  - apply at_least_function_name.
Qed.

End Monotone.

(** C9: no grammar procedure moves the cursor backward, whatever the tokens,
    the state it starts in and the way it ends; and the cursor moves by one
    token each time it moves, in [match] and in the function name of
    [cr7_gui.py]. *)
Theorem cursor_monotone :
  (forall file tokens p fuel s,
     pos s <= pos (final (call file tokens p fuel s)))
  /\ (forall tokens expected_type expected_value s,
        match match_ tokens expected_type expected_value s with
        | Return _ s' => pos s' = pos s + 1
        | Raise _ s' => pos s' = pos s
        end)
  /\ (forall s, pos (final (advance s)) = pos s + 1).
Proof.
  split; [|split].
  - intros file tokens p fuel s.
    apply (at_least_call tokens (pos s) file p fuel s). apply Nat.le_refl.
  - apply match__cursor.
  - reflexivity.
Qed.

(** ** The cursor stays on a token *)

Lemma EOF_is_last (tokens : list token) i kind value :
  ends_in_EOF tokens -> nth_error tokens i = Some (kind, value) ->
  kind <> "EOF" -> i + 1 < List.length tokens.
Proof.
  intros (body & -> & Hbody) Hnth Hk. rewrite length_app. simpl.
  destruct (Nat.lt_ge_cases i (List.length body)) as [Hlt | Hge]; [lia|].
  exfalso. rewrite nth_error_app2 in Hnth by exact Hge.
  destruct (i - List.length body) as [|[|j]]; simpl in Hnth;
    try discriminate.
  inversion Hnth; subst. now apply Hk.
Qed.

Section InBounds.

Variable tokens : list token.
Hypothesis tokens_end : ends_in_EOF tokens.


Lemma on_token_current_token :
  keeps (on_token tokens) not_IndexError (current_token tokens).
Proof.
  intros s Hs. unfold current_token.
  destruct (nth_error tokens (pos s)) eqn:E.
  - split; [exact Hs | discriminate].
  - apply nth_error_None in E. unfold on_token in Hs. lia.
Qed.

Lemma on_token_match_ expected_type expected_value :
  expected_type <> "EOF" ->
  keeps (on_token tokens) not_IndexError (match_ tokens expected_type expected_value).
Proof.
  intros Hne s Hs. unfold match_, bind, current_token.
  destruct (nth_error tokens (pos s)) as [[kind value]|] eqn:E.
  - destruct (kind =? expected_type) eqn:Ek; simpl.
    + apply String.eqb_eq in Ek; subst kind.
      destruct (match expected_value with
                | Some v => value =? v
                | None => true
                end); simpl.
      * split; [|discriminate]. unfold on_token. simpl.
        eapply EOF_is_last; eauto.
      * split; [exact Hs|]. intros e s' H. inversion H; subst. discriminate.
    + split; [exact Hs|]. intros e s' H. inversion H; subst. discriminate.
  - apply nth_error_None in E. unfold on_token in Hs. lia.
Qed.

Lemma on_token_function_name :
  keeps (on_token tokens) not_IndexError
    (t <- current_token tokens ;;
     if in_ (fst t) ["ID"; "FUNCTION_KEYWORD"] then advance
     else error tokens "Expected function name after 'play'" None None).
Proof.
  intros s Hs. unfold error, bind, current_token.
  destruct (nth_error tokens (pos s)) as [[kind value]|] eqn:E.
  - destruct (in_ (fst (kind, value)) ["ID"; "FUNCTION_KEYWORD"]) eqn:Ei.
    + split; [|discriminate]. unfold on_token. simpl.
      eapply EOF_is_last; eauto.
      intros ->. vm_compute in Ei. discriminate Ei.
    + rewrite E. simpl.
      split; [exact Hs|]. intros e s' H. inversion H; subst. discriminate.
  - apply nth_error_None in E. unfold on_token in Hs. lia.
Qed.

Lemma on_token_call file p fuel :
  keeps (on_token tokens) not_IndexError (call file tokens p fuel).
Proof.
  apply keeps_call; try discriminate.
  - intros s l Hs. exact Hs.
  - apply on_token_current_token.
  - apply on_token_match_.
  - apply on_token_function_name.
Qed.

End InBounds.

(** C10: on the tokens of the scanner the cursor of a fresh recognizer is on
    a token, and a grammar procedure started with the cursor on a token ends
    with the cursor on a token and never raises [IndexError], however much
    fuel it is given: no read of the current token is out of bounds. *)
Theorem cursor_in_bounds uw ud code toks :
  Scanner.tokenize uw ud code = Tokens toks ->
  pos CR7Parser < List.length toks
  /\ forall file p fuel s,
       pos s < List.length toks ->
       pos (final (call file toks p fuel s)) < List.length toks
       /\ forall s', call file toks p fuel s <> Raise IndexError s'.
Proof.
  intros H. apply ScannerFacts.tokenize_ends_in_EOF in H.
  split.
  - destruct H as (body & -> & _). rewrite length_app. simpl. lia.
  - intros file p fuel s Hs.
    destruct (on_token_call toks H file p fuel s Hs) as [Hi He].
    split; [exact Hi|]. intros s' Hr. now apply He in Hr.
Qed.

(** ** More fuel changes nothing *)

Section Fuel.

Variable tokens : list token.

Lemma fuel_le_refl A (m : M A) : fuel_le m m.
Proof. intros s _. reflexivity. Qed.

Lemma fuel_le_out_of_fuel A (m : M A) : fuel_le (raise OutOfFuel) m.
Proof. intros s H. contradiction H. Qed.

Lemma fuel_le_bind A B (m1 m2 : M A) (k1 k2 : A -> M B) :
  fuel_le m1 m2 -> (forall a, fuel_le (k1 a) (k2 a)) ->
  fuel_le (bind m1 k1) (bind m2 k2).
Proof.
  intros Hm Hk s. unfold bind. specialize (Hm s).
  destruct (m1 s) as [a s1 | e s1].
  - rewrite Hm by exact I. apply Hk.
  - intros Hf. rewrite Hm; [reflexivity|]. destruct e; auto.
Qed.

Lemma fuel_le_while cond body1 body2 :
  fuel_le body1 body2 ->
  forall fuel1 fuel2, fuel1 <= fuel2 ->
  fuel_le (while_ fuel1 cond body1) (while_ fuel2 cond body2).
Proof.
  intros Hb. induction fuel1 as [|fuel1 IH]; intros fuel2 Hle.
  - apply fuel_le_out_of_fuel.
  - destruct fuel2 as [|fuel2]; [lia|]. simpl.
    apply fuel_le_bind; [apply fuel_le_refl|].
    intros [|]; [|apply fuel_le_refl].
    apply fuel_le_bind; [exact Hb|]. intros _. apply IH. lia.
Qed.

Ltac fuel_step :=
  match goal with
  | H : fuel_le ?m1 ?m2 |- fuel_le ?m1 ?m2 => exact H
  | |- fuel_le (bind _ _) (bind _ _) => apply fuel_le_bind; [|intros ?]
  | |- fuel_le (while_ _ _ _) (while_ _ _ _) =>
      apply fuel_le_while; [|lia]
  | |- fuel_le (if ?b then _ else _) _ => destruct b
  | |- fuel_le (let (_, _) := ?t in _) _ => destruct t
  | |- fuel_le (match ?f with cr7_compiler => _ | cr7_gui => _ end) _ =>
      destruct f
  | |- fuel_le _ _ => apply fuel_le_refl
  end.

Lemma fuel_le_parse_param_list fuel1 fuel2 :
  fuel1 <= fuel2 ->
  fuel_le (parse_param_list tokens fuel1) (parse_param_list tokens fuel2).
Proof. intros Hle. unfold parse_param_list. repeat fuel_step. Qed.

Lemma fuel_le_expressions file : forall fuel1 fuel2,
  fuel1 <= fuel2 ->
  fuel_le (parse_expr file tokens fuel1) (parse_expr file tokens fuel2)
  /\ fuel_le (parse_term file tokens fuel1) (parse_term file tokens fuel2)
  /\ fuel_le (parse_factor file tokens fuel1)
             (parse_factor file tokens fuel2).
Proof.
  induction fuel1 as [|fuel1 IH]; intros fuel2 Hle.
  - split; [|split]; apply fuel_le_out_of_fuel.
  - destruct fuel2 as [|fuel2]; [lia|].
    destruct (IH fuel2) as (IHe & IHt & IHf); [lia|].
    split; [|split]; cbn [parse_expr parse_term parse_factor];
      repeat fuel_step.
Qed.

Lemma fuel_le_parse_expr file fuel1 fuel2 :
  fuel1 <= fuel2 ->
  fuel_le (parse_expr file tokens fuel1) (parse_expr file tokens fuel2).
Proof. intros Hle. now apply fuel_le_expressions. Qed.

Ltac with_parse_expr file fuel1 fuel2 Hle :=
  pose proof (fuel_le_parse_expr file fuel1 fuel2 Hle).

Lemma fuel_le_parse_condition file fuel1 fuel2 :
  fuel1 <= fuel2 ->
  fuel_le (parse_condition file tokens fuel1)
          (parse_condition file tokens fuel2).
Proof.
  intros Hle. with_parse_expr file fuel1 fuel2 Hle.
  unfold parse_condition. repeat fuel_step.
Qed.

Lemma fuel_le_parse_declaration file fuel1 fuel2 :
  fuel1 <= fuel2 ->
  fuel_le (parse_declaration file tokens fuel1)
          (parse_declaration file tokens fuel2).
Proof.
  intros Hle. with_parse_expr file fuel1 fuel2 Hle.
  unfold parse_declaration. repeat fuel_step.
Qed.

Lemma fuel_le_parse_assignment file fuel1 fuel2 :
  fuel1 <= fuel2 ->
  fuel_le (parse_assignment file tokens fuel1)
          (parse_assignment file tokens fuel2).
Proof.
  intros Hle. with_parse_expr file fuel1 fuel2 Hle.
  unfold parse_assignment. repeat fuel_step.
Qed.

Lemma fuel_le_parse_declaration_in_for file fuel1 fuel2 :
  fuel1 <= fuel2 ->
  fuel_le (parse_declaration_in_for file tokens fuel1)
          (parse_declaration_in_for file tokens fuel2).
Proof.
  intros Hle. with_parse_expr file fuel1 fuel2 Hle.
  unfold parse_declaration_in_for. repeat fuel_step.
Qed.

Lemma fuel_le_parse_assignment_in_for file fuel1 fuel2 :
  fuel1 <= fuel2 ->
  fuel_le (parse_assignment_in_for file tokens fuel1)
          (parse_assignment_in_for file tokens fuel2).
Proof.
  intros Hle. with_parse_expr file fuel1 fuel2 Hle.
  unfold parse_assignment_in_for. repeat fuel_step.
Qed.

Lemma fuel_le_parse_output file fuel1 fuel2 :
  fuel1 <= fuel2 ->
  fuel_le (parse_output file tokens fuel1) (parse_output file tokens fuel2).
Proof.
  intros Hle. with_parse_expr file fuel1 fuel2 Hle.
  unfold parse_output. repeat fuel_step.
Qed.

Lemma fuel_le_parse_return file fuel1 fuel2 :
  fuel1 <= fuel2 ->
  fuel_le (parse_return file tokens fuel1) (parse_return file tokens fuel2).
Proof.
  intros Hle. with_parse_expr file fuel1 fuel2 Hle.
  unfold parse_return. repeat fuel_step.
Qed.

Lemma fuel_le_statements file : forall fuel1 fuel2,
  fuel1 <= fuel2 ->
  fuel_le (parse_statement_list file tokens fuel1)
          (parse_statement_list file tokens fuel2)
  /\ fuel_le (parse_statement file tokens fuel1)
             (parse_statement file tokens fuel2)
  /\ fuel_le (parse_if file tokens fuel1) (parse_if file tokens fuel2)
  /\ fuel_le (parse_while file tokens fuel1) (parse_while file tokens fuel2)
  /\ fuel_le (parse_for file tokens fuel1) (parse_for file tokens fuel2).
Proof.
  induction fuel1 as [|fuel1 IH]; intros fuel2 Hle.
  - split; [|split; [|split; [|split]]]; apply fuel_le_out_of_fuel.
  - destruct fuel2 as [|fuel2]; [lia|].
    assert (Hle' : fuel1 <= fuel2) by lia.
    destruct (IH fuel2 Hle') as (IHl & IHs & IHi & IHw & IHf).
    pose proof (fuel_le_parse_condition file fuel1 fuel2 Hle').
    pose proof (fuel_le_parse_declaration file fuel1 fuel2 Hle').
    pose proof (fuel_le_parse_assignment file fuel1 fuel2 Hle').
    pose proof (fuel_le_parse_declaration_in_for file fuel1 fuel2 Hle').
    pose proof (fuel_le_parse_assignment_in_for file fuel1 fuel2 Hle').
    pose proof (fuel_le_parse_output file fuel1 fuel2 Hle').
    pose proof (fuel_le_parse_return file fuel1 fuel2 Hle').
    split; [|split; [|split; [|split]]];
      cbn [parse_statement_list parse_statement parse_if parse_while
           parse_for];
      repeat fuel_step.
Qed.

Lemma fuel_le_parse_function file fuel1 fuel2 :
  fuel1 <= fuel2 ->
  fuel_le (parse_function file tokens fuel1)
          (parse_function file tokens fuel2).
Proof.
  intros Hle. pose proof (fuel_le_parse_param_list fuel1 fuel2 Hle).
  destruct (fuel_le_statements file fuel1 fuel2 Hle) as (? & _).
  unfold parse_function. repeat fuel_step.
Qed.

Lemma fuel_le_parse_program file fuel1 fuel2 :
  fuel1 <= fuel2 ->
  fuel_le (parse_program file tokens fuel1) (parse_program file tokens fuel2).
Proof.
  intros Hle. pose proof (fuel_le_parse_function file fuel1 fuel2 Hle).
  unfold parse_program. repeat fuel_step.
Qed.

End Fuel.

(** C8: two runs of the recognizer on the same tokens, each from a fresh
    cursor and each given fuel enough to end by itself, end alike: the same
    outcome (return or exception), the same cursor and the same lines
    written, trace and diagnostic. *)
Theorem recognition_is_deterministic file tokens fuel1 fuel2 :
  finished (parse_program file tokens fuel1 CR7Parser) ->
  finished (parse_program file tokens fuel2 CR7Parser) ->
  parse_program file tokens fuel1 CR7Parser
  = parse_program file tokens fuel2 CR7Parser.
Proof.
  intros H1 H2. destruct (Nat.le_ge_cases fuel1 fuel2) as [Hle | Hle].
  - symmetry. now apply (fuel_le_parse_program tokens file fuel1 fuel2 Hle).
  - now apply (fuel_le_parse_program tokens file fuel2 fuel1 Hle).
Qed.

(** ** Running the procedures on given tokens *)

Lemma bind_Return A B (m : M A) (k : A -> M B) s a s' :
  m s = Return a s' -> bind m k s = k a s'.
Proof. unfold bind. now intros ->. Qed.

Lemma bind_Raise A B (m : M A) (k : A -> M B) s e s' :
  m s = Raise e s' -> bind m k s = Raise e s'.
Proof. unfold bind. now intros ->. Qed.

Lemma skipn_cons (A : Type) : forall p (l : list A) x r,
  skipn p l = x :: r -> nth_error l p = Some x /\ skipn (S p) l = r.
Proof.
  induction p as [|p IH]; intros [|y l] x r H; simpl in H; try discriminate.
  - inversion H; subst. split; reflexivity.
  - apply IH in H. exact H.
Qed.

Section Run.

Variable file : source_file.
Variable tokens : list token.

Lemma current_token_at s t rest :
  skipn (pos s) tokens = t :: rest -> current_token tokens s = Return t s.
Proof.
  intros H. apply skipn_cons in H as [H _].
  unfold current_token. now rewrite H.
Qed.

Lemma kind_is_at s t rest k :
  skipn (pos s) tokens = t :: rest ->
  kind_is tokens k s = Return (fst t =? k) s.
Proof.
  intros H. unfold kind_is.
  now rewrite (bind_Return _ _ _ _ _ _ _ (current_token_at _ _ _ H)).
Qed.

(** [match] on a token of the expected kind (and value). *)
Lemma match__on s kind value expected_value :
  nth_error tokens (pos s) = Some (kind, value) ->
  match expected_value with Some v => value = v | None => True end ->
  match_ tokens kind expected_value s
  = Return value (mkState (pos s + 1) (out s)).
Proof.
  intros H Hv. unfold match_, bind, current_token. rewrite H.
  rewrite String.eqb_refl.
  destruct expected_value as [v|]; [subst v; rewrite String.eqb_refl|];
    reflexivity.
Qed.

Lemma match__at s kind value rest expected_value :
  skipn (pos s) tokens = (kind, value) :: rest ->
  match expected_value with Some v => value = v | None => True end ->
  match_ tokens kind expected_value s
  = Return value (mkState (pos s + 1) (out s)).
Proof. intros H. apply skipn_cons in H as [H _]. now apply match__on. Qed.

Lemma skipn_next s (t : token) rest :
  skipn (pos s) tokens = t :: rest -> skipn (pos s + 1) tokens = rest.
Proof.
  intros H. apply skipn_cons in H as [_ H]. now rewrite Nat.add_1_r.
Qed.

(** The loop of [parse_param_list] runs through the tail of a parameter
    list and stops at the token after it. *)
Lemma param_tail_loop more : param_tail more ->
  forall fuel p o kind value rest,
    skipn p tokens = (more ++ (kind, value) :: rest)%list ->
    kind <> "COMMA" -> List.length more < fuel ->
    while_ fuel (kind_is tokens "COMMA")
      (match_ tokens "COMMA" None ;;
       match_ tokens "TYPE_KEYWORD" None ;;
       match_ tokens "ID" None ;; ret tt) (mkState p o)
    = Return tt (mkState (p + List.length more) o).
Proof.
  induction 1 as [|comma ty id more Hmore IH];
    intros fuel p o kind value rest Hs Hk Hfuel;
    (destruct fuel as [|fuel]; [simpl in Hfuel; lia|]); simpl while_.
  - rewrite (bind_Return _ _ _ _ _ _ _
               (kind_is_at (mkState p o) _ _ "COMMA" Hs)).
    cbn [fst]. apply String.eqb_neq in Hk. rewrite Hk.
    unfold ret. simpl. now rewrite Nat.add_0_r.
  - simpl in Hs.
    rewrite (bind_Return _ _ _ _ _ _ _
               (kind_is_at (mkState p o) _ _ "COMMA" Hs)).
    cbn [fst]. rewrite String.eqb_refl.
    pose proof (match__at (mkState p o) _ _ _ None Hs I) as H1.
    apply (skipn_next (mkState p o)) in Hs.
    pose proof (match__at (mkState (p + 1) o) _ _ _ None Hs I) as H2.
    apply (skipn_next (mkState (p + 1) o)) in Hs.
    pose proof (match__at (mkState (p + 1 + 1) o) _ _ _ None Hs I) as H3.
    apply (skipn_next (mkState (p + 1 + 1) o)) in Hs.
    cbn [pos out] in *.
    assert (Hbody :
      (match_ tokens "COMMA" None ;;
       match_ tokens "TYPE_KEYWORD" None ;;
       match_ tokens "ID" None ;; ret tt) (mkState p o)
      = Return tt (mkState (p + 1 + 1 + 1) o)).
    { rewrite (bind_Return _ _ _ _ _ _ _ H1).
      rewrite (bind_Return _ _ _ _ _ _ _ H2).
      now rewrite (bind_Return _ _ _ _ _ _ _ H3). }
    rewrite (bind_Return _ _ _ _ _ _ _ Hbody).
    rewrite (IH fuel _ o kind value rest Hs Hk) by (simpl in Hfuel; lia).
    f_equal. f_equal. simpl. lia.
Qed.

Lemma parse_param_list_at params : param_list params ->
  forall fuel s kind value rest,
    skipn (pos s) tokens = (params ++ (kind, value) :: rest)%list ->
    kind <> "COMMA" -> kind <> "TYPE_KEYWORD" ->
    List.length params <= fuel ->
    parse_param_list tokens fuel s
    = Return tt (mkState (pos s + List.length params) (out s)).
Proof.
  intros [|ty id more Hmore] fuel s kind value rest Hs Hk Hk' Hfuel;
    unfold parse_param_list.
  - simpl in Hs.
    rewrite (bind_Return _ _ _ _ _ _ _ (current_token_at _ _ _ Hs)).
    cbn [fst]. apply String.eqb_neq in Hk'. rewrite Hk'.
    unfold ret. destruct s; simpl. now rewrite Nat.add_0_r.
  - simpl in Hs.
    rewrite (bind_Return _ _ _ _ _ _ _ (current_token_at _ _ _ Hs)).
    cbn [fst]. rewrite String.eqb_refl.
    pose proof (match__at s _ _ _ None Hs I) as H1.
    apply skipn_next in Hs.
    pose proof (match__at (mkState (pos s + 1) (out s)) _ _ _ None Hs I) as H2.
    apply (skipn_next (mkState (pos s + 1) (out s))) in Hs.
    cbn [pos out] in *.
    rewrite (bind_Return _ _ _ _ _ _ _ H1).
    rewrite (bind_Return _ _ _ _ _ _ _ H2).
    rewrite (param_tail_loop more Hmore fuel _ _ kind value rest Hs Hk)
      by (simpl in Hfuel; lia).
    f_equal. f_equal. simpl. lia.
Qed.

(** The head of a function declaration: [parse_function] goes through
    [play], the name, the parentheses and the opening brace, and goes on
    with the statements of the block. *)
Lemma parse_function_head fuel s name_kind name lp params rp lb rest :
  skipn (pos s) tokens
  = (("FUNCTION_KEYWORD", "play") :: (name_kind, name) :: ("LPAREN", lp)
     :: params ++ ("RPAREN", rp) :: ("LBRACE", lb) :: rest)%list ->
  name_kind = "ID" \/ (file = cr7_gui /\ name_kind = "FUNCTION_KEYWORD") ->
  param_list params ->
  List.length params <= fuel ->
  parse_function file tokens fuel s
  = (parse_statement_list file tokens fuel ;;
     match_ tokens "RBRACE" None ;;
     log "→ Function parsed")
      (mkState (pos s + 5 + List.length params) (out s)).
Proof.
  intros Hs Hname Hparams Hfuel. unfold parse_function.
  (* play *)
  rewrite (bind_Return _ _ _ _ _ _ _
             (match__at s _ _ _ (Some "play") Hs eq_refl)).
  apply skipn_next in Hs.
  set (s1 := mkState (pos s + 1) (out s)).
  change (skipn (pos s1) tokens
          = ((name_kind, name) :: ("LPAREN", lp)
             :: params ++ ("RPAREN", rp) :: ("LBRACE", lb) :: rest)%list)
    in Hs.
  (* the name *)
  assert (Hn : match file with
               | cr7_compiler => match_ tokens "ID" None ;; ret tt
               | cr7_gui =>
                   t <- current_token tokens ;;
                   if in_ (fst t) ["ID"; "FUNCTION_KEYWORD"] then advance
                   else error tokens "Expected function name after 'play'"
                          None None
               end s1 = Return tt (mkState (pos s1 + 1) (out s1))).
  { destruct file.
    - destruct Hname as [-> | [Hf _]]; [|discriminate Hf].
      now rewrite (bind_Return _ _ _ _ _ _ _ (match__at s1 _ _ _ None Hs I)).
    - rewrite (bind_Return _ _ _ _ _ _ _ (current_token_at _ _ _ Hs)).
      now destruct Hname as [-> | [_ ->]]. }
  rewrite (bind_Return _ _ _ _ _ _ _ Hn).
  apply skipn_next in Hs.
  set (s2 := mkState (pos s1 + 1) (out s1)).
  change (skipn (pos s2) tokens
          = (("LPAREN", lp)
             :: params ++ ("RPAREN", rp) :: ("LBRACE", lb) :: rest)%list)
    in Hs.
  (* the parentheses and the parameters *)
  rewrite (bind_Return _ _ _ _ _ _ _ (match__at s2 _ _ _ None Hs I)).
  apply skipn_next in Hs.
  set (s3 := mkState (pos s2 + 1) (out s2)).
  change (skipn (pos s3) tokens
          = (params ++ ("RPAREN", rp) :: ("LBRACE", lb) :: rest)%list) in Hs.
  rewrite (bind_Return _ _ _ _ _ _ _
             (parse_param_list_at params Hparams fuel s3 _ _ _ Hs
                ltac:(discriminate) ltac:(discriminate) Hfuel)).
  set (s4 := mkState (pos s3 + List.length params) (out s3)).
  assert (Hs4 : skipn (pos s4) tokens
                = ("RPAREN", rp) :: ("LBRACE", lb) :: rest).
  { unfold s4. cbn [pos]. rewrite Nat.add_comm, <- skipn_skipn, Hs.
    rewrite skipn_app, skipn_all, Nat.sub_diag. reflexivity. }
  rewrite (bind_Return _ _ _ _ _ _ _ (match__at s4 _ _ _ None Hs4 I)).
  apply skipn_next in Hs4.
  set (s5 := mkState (pos s4 + 1) (out s4)).
  change (skipn (pos s5) tokens = ("LBRACE", lb) :: rest) in Hs4.
  rewrite (bind_Return _ _ _ _ _ _ _ (match__at s5 _ _ _ None Hs4 I)).
  unfold s5, s4, s3, s2, s1. cbn [pos out].
  replace (pos s + 1 + 1 + 1 + List.length params + 1 + 1)
    with (pos s + 5 + List.length params) by lia.
  reflexivity.
Qed.

End Run.



(** With more fuel a run that ended by itself ends in the same way. *)
Lemma enough_fuel file tokens fuel more :
  finished (parse_program file tokens fuel CR7Parser) ->
  parse_program file tokens (fuel + more) CR7Parser
  = parse_program file tokens fuel CR7Parser.
Proof.
  intros H. apply (fuel_le_parse_program tokens file fuel (fuel + more));
    [lia | exact H].
Qed.


(** A function keyword as the name of the function is taken by the
    recognizer of [cr7_gui.py] and refused by the one of [cr7_compiler.py],
    whose [parse_function] asks for an [ID]. *)
Lemma keyword_as_name_in_cr7_gui_only :
  (forall uw ud,
     Scanner.tokenize uw ud "play kickoff() { }"
     = Tokens [("FUNCTION_KEYWORD", "play"); ("FUNCTION_KEYWORD", "kickoff");
               ("LPAREN", "("); ("RPAREN", ")"); ("LBRACE", "{");
               ("RBRACE", "}"); ("EOF", "")])
  /\ (forall fuel,
        parse_program cr7_gui
          [("FUNCTION_KEYWORD", "play"); ("FUNCTION_KEYWORD", "kickoff");
           ("LPAREN", "("); ("RPAREN", ")"); ("LBRACE", "{");
           ("RBRACE", "}"); ("EOF", "")] (5 + fuel) CR7Parser
        = Return tt
            (mkState 6 [header_line; "→ Function parsed"; completed_line]))
  /\ (forall fuel,
        parse_program cr7_compiler
          [("FUNCTION_KEYWORD", "play"); ("FUNCTION_KEYWORD", "kickoff");
           ("LPAREN", "("); ("RPAREN", ")"); ("LBRACE", "{");
           ("RBRACE", "}"); ("EOF", "")] (5 + fuel) CR7Parser
        = Raise SystemExit
            (mkState 1
               [header_line;
                "[Syntax Error] Expected ID at token 'kickoff' (type FUNCTION_KEYWORD)"])).
Proof.
  split; [reflexivity|].
  split; intros fuel; rewrite enough_fuel; (reflexivity || exact I).
Qed.

(** C3: on [play main() { announce add(1,2); }] the recognizer of
    [cr7_gui.py] succeeds, [add] being declared nowhere, and writes the line
    of the function call before the line of the output statement. *)
Theorem scenario_E_call_of_undeclared_name :
  (forall uw ud, Scanner.tokenize uw ud scenario_E = Tokens scenario_E_tokens)
  /\ (forall fuel,
        parse_program cr7_gui scenario_E_tokens (10 + fuel) CR7Parser
        = Return tt
            (mkState 14
               [header_line; "→ Function call parsed (add)";
                "→ Output parsed"; "→ Function parsed"; completed_line])).
Proof.
  split; [reflexivity|]. intros fuel.
  rewrite enough_fuel; (reflexivity || exact I).
Qed.

(** The recognizer of [cr7_compiler.py] has no call syntax: it stops at the
    parenthesis after [add]. *)
Lemma scenario_E_without_call_syntax fuel :
  parse_program cr7_compiler scenario_E_tokens (10 + fuel) CR7Parser
  = Raise SystemExit
      (mkState 7
         [header_line;
          "[Syntax Error] Expected END at token '(' (type LPAREN)"]).
Proof. rewrite enough_fuel; (reflexivity || exact I). Qed.

(** C6: on [play main() { x = ; }] both recognizers fail with one
    diagnostic, written by [error "Invalid factor"] in [parse_factor] at the
    token [;] of kind [END]; nothing else is written but the first line. *)
Theorem scenario_C_invalid_factor :
  (forall uw ud, Scanner.tokenize uw ud scenario_C = Tokens scenario_C_tokens)
  /\ (forall file fuel,
        parse_program file scenario_C_tokens (10 + fuel) CR7Parser
        = Raise SystemExit
            (mkState 7
               [header_line;
                "[Syntax Error] Invalid factor at token ';' (type END)"]))
  /\ (forall file fuel,
        parse_factor file scenario_C_tokens (1 + fuel) (mkState 7 [header_line])
        = error scenario_C_tokens "Invalid factor" None None
            (mkState 7 [header_line])).
Proof.
  split; [reflexivity|]. split.
  - intros file fuel. rewrite enough_fuel; destruct file; (reflexivity || exact I).
  - intros [] fuel; reflexivity.
Qed.

(** The two [ASSIGN] tokens of [==] are no relational operator for
    [parse_condition]: a test for equality is refused, where one with [!=]
    is recognized. *)
Lemma equality_test_is_refused :
  (forall uw ud,
     Scanner.tokenize uw ud "play main() { referee (x == 1) { } }"
     = Tokens
         [("FUNCTION_KEYWORD", "play"); ("ID", "main"); ("LPAREN", "(");
          ("RPAREN", ")"); ("LBRACE", "{"); ("CONTROL_KEYWORD", "referee");
          ("LPAREN", "("); ("ID", "x"); ("ASSIGN", "="); ("ASSIGN", "=");
          ("NUMBER", "1"); ("RPAREN", ")"); ("LBRACE", "{"); ("RBRACE", "}");
          ("RBRACE", "}"); ("EOF", "")])
  /\ (forall file fuel,
        parse_program file
          [("FUNCTION_KEYWORD", "play"); ("ID", "main"); ("LPAREN", "(");
           ("RPAREN", ")"); ("LBRACE", "{"); ("CONTROL_KEYWORD", "referee");
           ("LPAREN", "("); ("ID", "x"); ("ASSIGN", "="); ("ASSIGN", "=");
           ("NUMBER", "1"); ("RPAREN", ")"); ("LBRACE", "{"); ("RBRACE", "}");
           ("RBRACE", "}"); ("EOF", "")] (12 + fuel) CR7Parser
        = Raise SystemExit
            (mkState 8
               [header_line;
                "[Syntax Error] Expected relational operator in condition at token '=' (type ASSIGN)"]))
  /\ (forall file fuel,
        parse_program file
          [("FUNCTION_KEYWORD", "play"); ("ID", "main"); ("LPAREN", "(");
           ("RPAREN", ")"); ("LBRACE", "{"); ("CONTROL_KEYWORD", "referee");
           ("LPAREN", "("); ("ID", "x"); ("OP", "!=");
           ("NUMBER", "1"); ("RPAREN", ")"); ("LBRACE", "{"); ("RBRACE", "}");
           ("RBRACE", "}"); ("EOF", "")] (12 + fuel) CR7Parser
        = Return tt
            (mkState 14
               [header_line; "→ If statement parsed"; "→ Function parsed";
                completed_line])).
Proof.
  split; [reflexivity|].
  split; intros file fuel; rewrite enough_fuel;
    destruct file; (reflexivity || exact I).
Qed.

(** ** The bare [bench] *)

(** At a [bench] token [parse_statement] returns and leaves the state as it
    is. *)
Lemma parse_statement_at_bench file (tokens : list token) fuel s :
  nth_error tokens (pos s) = Some ("CONTROL_KEYWORD", "bench") ->
  parse_statement file tokens (S fuel) s = Return tt s.
Proof.
  intros H.
  cbn [parse_statement_list parse_statement parse_if parse_while parse_for].
  unfold bind at 1. unfold current_token at 1. rewrite H. reflexivity.
Qed.

(** So the loop of [parse_statement_list] tests its condition again on the
    same token, and again: whatever the fuel, it runs out. *)
Lemma statement_loop_at_bench file (tokens : list token) s body_fuel :
  nth_error tokens (pos s) = Some ("CONTROL_KEYWORD", "bench") ->
  forall fuel,
    while_ fuel (more_statements tokens)
      (parse_statement file tokens body_fuel) s
    = Raise OutOfFuel s.
Proof.
  intros H. induction fuel as [|fuel IH]; [reflexivity|].
  simpl while_.
  assert (Hc : more_statements tokens s = Return true s)
    by (unfold more_statements, bind, current_token; now rewrite H).
  rewrite (bind_Return _ _ _ _ _ _ _ Hc).
  destruct body_fuel as [|body_fuel].
  - reflexivity.
  - rewrite (bind_Return _ _ _ _ _ _ _
               (parse_statement_at_bench file tokens body_fuel s H)).
    exact IH.
Qed.

Lemma parse_statement_list_at_bench file (tokens : list token) s :
  nth_error tokens (pos s) = Some ("CONTROL_KEYWORD", "bench") ->
  forall fuel, parse_statement_list file tokens fuel s = Raise OutOfFuel s.
Proof.
  intros H [|fuel]; [reflexivity|].
  cbn [parse_statement_list parse_statement parse_if parse_while parse_for].
  now apply statement_loop_at_bench.
Qed.

(** C2 (as the code has it): on [play main() { bench }], [parse_statement]
    returns at the [bench] token without moving the cursor and without an
    error, and the loop of [parse_statement_list] around it never ends: with
    any fuel the run of either recognizer is still at that token when the
    fuel runs out. *)
Theorem bare_bench_never_ends :
  (forall uw ud, Scanner.tokenize uw ud bench_sample = Tokens bench_tokens)
  /\ (forall file fuel o,
        parse_statement file bench_tokens (S fuel) (mkState 5 o)
        = Return tt (mkState 5 o))
  /\ (forall file fuel,
        parse_program file bench_tokens (S fuel) CR7Parser
        = Raise OutOfFuel (mkState 5 [header_line]))
  /\ (forall file fuel,
        ~ finished (parse_program file bench_tokens fuel CR7Parser)).
Proof.
  split; [reflexivity|]. split.
  - intros file fuel o. now apply parse_statement_at_bench.
  - assert (Hrun : forall file fuel,
              parse_program file bench_tokens (S fuel) CR7Parser
              = Raise OutOfFuel (mkState 5 [header_line]));
      [|split; [exact Hrun|];
        intros file [|fuel]; [|rewrite Hrun]; intros H; exact H].
    intros file fuel.
    set (s0 := mkState 0 [header_line]).
    assert (H0 : log header_line CR7Parser = Return tt s0) by reflexivity.
    assert (Hc : (t <- current_token bench_tokens ;;
                  ret (negb (fst t =? "EOF"))) s0 = Return true s0)
      by reflexivity.
    assert (Ht : current_token bench_tokens s0
                 = Return ("FUNCTION_KEYWORD", "play") s0) by reflexivity.
    unfold parse_program. fold header_line.
    rewrite (bind_Return _ _ _ _ _ _ _ H0).
    apply bind_Raise. simpl while_.
    rewrite (bind_Return _ _ _ _ _ _ _ Hc).
    apply bind_Raise.
    rewrite (bind_Return _ _ _ _ _ _ _ Ht).
    change ("FUNCTION_KEYWORD" =? "META_KEYWORD") with false.
    change ("FUNCTION_KEYWORD" =? "FUNCTION_KEYWORD") with true.
    cbn iota.
    rewrite (parse_function_head file bench_tokens (S fuel)
               s0 "ID" "main" "(" [] ")" "{"
               [("CONTROL_KEYWORD", "bench"); ("RBRACE", "}"); ("EOF", "")]
               eq_refl (or_introl eq_refl) param_list_none (Nat.le_0_l _)).
    apply bind_Raise.
    now apply parse_statement_list_at_bench.
Qed.

(** ** Instances *)

Lemma recognition_is_deterministic_witness :
  Scanner.tokenize ascii_only ascii_only scenario_B = Tokens scenario_B_tokens
  /\ finished (parse_program cr7_gui scenario_B_tokens 10 CR7Parser)
  /\ finished (parse_program cr7_gui scenario_B_tokens 25 CR7Parser)
  /\ parse_program cr7_gui scenario_B_tokens 10 CR7Parser
     = parse_program cr7_gui scenario_B_tokens 25 CR7Parser.
Proof.
  split; [reflexivity|]. split; [exact I|]. split; [exact I|].
  apply (recognition_is_deterministic cr7_gui scenario_B_tokens 10 25);
    exact I.
Defined.

Lemma cursor_in_bounds_witness :
  Scanner.tokenize ascii_only ascii_only scenario_C = Tokens scenario_C_tokens
  /\ pos CR7Parser < List.length scenario_C_tokens
  /\ forall file p fuel s,
       pos s < List.length scenario_C_tokens ->
       pos (final (call file scenario_C_tokens p fuel s))
       < List.length scenario_C_tokens
       /\ forall s', call file scenario_C_tokens p fuel s <> Raise IndexError s'.
Proof.
  split; [reflexivity|].
  apply (cursor_in_bounds ascii_only ascii_only scenario_C scenario_C_tokens).
  reflexivity.
Defined.

End RecognizerFacts.

(** * More on the scanner *)

Module ScannerShapes.
Import Scanner.
Import Spec.
Import Lexicon.
Import ScannerFacts.

Ltac in_list := solve [simpl; repeat (first [left; reflexivity | right])].

Section WithUnicode.
Variables uw ud : ascii -> bool.

(** What [tokenize] returns, from the matches of [finditer]. *)
Lemma tokenize_loop_tokens ms : forall acc toks,
  tokenize_loop KEYWORDS ms acc = Tokens toks ->
  toks
  = (acc ++ map token_of_match (filter (fun m => negb (discarded m)) ms)
     ++ [("EOF", "")])%list.
Proof.
  induction ms as [|[kind value] more IH]; simpl; intros acc toks H.
  - now inversion H.
  - unfold discarded, in_; cbn [fst existsb].
    destruct (kind =? "COMMENT") eqn:E1; cbn [orb negb]; [now apply IH|].
    destruct (kind =? "META") eqn:E2.
    { apply String.eqb_eq in E2; subst. simpl.
      apply IH in H. rewrite H, <- app_assoc. reflexivity. }
    destruct (kind =? "ID") eqn:E3.
    { apply String.eqb_eq in E3; subst. simpl.
      apply IH in H. rewrite H, <- app_assoc. reflexivity. }
    destruct (kind =? "SKIP") eqn:E4; cbn [orb negb] in *; [now apply IH|].
    destruct (kind =? "NEWLINE") eqn:E5; cbn [orb negb] in *; [now apply IH|].
    destruct (kind =? "MISMATCH"); [discriminate|].
    assert (Ht : token_of_match (kind, value) = (kind, value))
      by (unfold token_of_match; cbn [fst snd]; now rewrite E2, E3).
    apply IH in H. rewrite H, <- app_assoc. cbn [map app].
    now rewrite Ht.
Qed.

Lemma tokenize_tokens code toks :
  tokenize uw ud code = Tokens toks ->
  toks
  = (map token_of_match
       (filter (fun m => negb (discarded m)) (finditer uw ud code))
     ++ [("EOF", "")])%list.
Proof. intros H. now apply tokenize_loop_tokens in H. Qed.

(** Every match of [finditer] is a match of [token_regex] somewhere. *)
Lemma finditer_from_In fuel : forall s name v,
  In (name, v) (finditer_from uw ud fuel s) ->
  exists s' rest, token_regex uw ud s' = Some (name, v, rest).
Proof.
  induction fuel as [|fuel IH]; intros s name v Hin; [contradiction|].
  destruct s as [|c r]; [contradiction|].
  destruct (token_regex uw ud (String c r)) as [[[n w] rest]|] eqn:E;
    [|exfalso; revert E; apply token_regex_total].
  rewrite (finditer_from_step _ _ _ _ _ _ _ E) in Hin.
  destruct Hin as [Heq | Hin]; [inversion Heq; subst; eauto | eauto].
Qed.

(** The pattern a match of a given group comes from. *)
Lemma token_regex_pattern s name v rest re :
  token_regex uw ud s = Some (name, v, rest) ->
  In (name, re) (token_specification uw ud) ->
  re s = Some (v, rest).
Proof.
  intros H Hin. apply alternation_In in H as (re' & Hin' & Hre).
  unfold token_specification in Hin, Hin'. simpl in Hin, Hin'.
  repeat (destruct Hin' as [Hin' | Hin'];
          [inversion Hin'; subst; clear Hin';
           repeat (destruct Hin as [Hin | Hin];
                   [first [discriminate Hin
                          | inversion Hin; subst; exact Hre]|]);
           contradiction|]).
  contradiction.
Qed.

(** Where a token comes from: it is [EOF], or the token of a match that is
    neither dropped nor a [MISMATCH]. *)
Lemma token_origin code toks k v :
  tokenize uw ud code = Tokens toks -> In (k, v) toks ->
  (k, v) = ("EOF", "")
  \/ exists name s rest,
       token_regex uw ud s = Some (name, v, rest)
       /\ discarded (name, v) = false /\ name <> "MISMATCH"
       /\ k = fst (token_of_match (name, v)).
Proof.
  intros H Hin. pose proof (tokenize_loop_no_mismatch _ _ _ _ H) as Hno.
  rewrite (tokenize_tokens _ _ H) in Hin. apply in_app_or in Hin.
  destruct Hin as [Hin | [Heq | []]]; [right | now left].
  apply in_map_iff in Hin as ([name w] & Heq & Hin).
  apply filter_In in Hin as [Hin Hkept]. apply negb_true_iff in Hkept.
  assert (Hw : w = v).
  { unfold token_of_match in Heq. cbn [fst snd] in Heq.
    destruct (name =? "META"); [now inversion Heq|].
    destruct (name =? "ID"); now inversion Heq. }
  subst w.
  rewrite Forall_forall in Hno. specialize (Hno _ Hin). simpl in Hno.
  apply finditer_from_In in Hin as (s & rest & Hs).
  exists name, s, rest. repeat split; try assumption.
  now rewrite Heq.
Qed.

(** The kind [keyword_kind] gives to a match of [ID]. *)
Lemma keyword_kind_cases v :
  In (keyword_kind KEYWORDS "ID" v)
     ["ID"; "FUNCTION_KEYWORD"; "TYPE_KEYWORD"; "CONTROL_KEYWORD";
      "INPUT_KEYWORD"; "OUTPUT_KEYWORD"; "META_KEYWORD"].
Proof.
  unfold KEYWORDS. cbn [keyword_kind].
  repeat match goal with
         | |- context [if existsb ?f ?l then _ else _] =>
             destruct (existsb f l); [simpl; tauto|]
         end.
  simpl; tauto.
Qed.

(** The four ways a token comes to be. *)
Lemma token_cases code toks k v :
  tokenize uw ud code = Tokens toks -> In (k, v) toks ->
  (k, v) = ("EOF", "")
  \/ (k = "META_KEYWORD"
      /\ exists s rest, token_regex uw ud s = Some ("META", v, rest))
  \/ (k = keyword_kind KEYWORDS "ID" v
      /\ exists s rest, token_regex uw ud s = Some ("ID", v, rest))
  \/ (In k ["NUMBER"; "ASSIGN"; "COMMA"; "END"; "LPAREN"; "RPAREN";
            "LBRACE"; "RBRACE"; "STRING"; "OP"]
      /\ exists s rest, token_regex uw ud s = Some (k, v, rest)).
Proof.
  intros H Hin.
  destruct (token_origin code toks k v H Hin)
    as [Heq | (name & s & rest & Hs & Hd & Hm & Hk)]; [now left|right].
  pose proof (token_regex_prefix _ _ _ _ _ _ Hs) as (_ & _ & Hname).
  unfold discarded, in_ in Hd. cbn [fst] in Hd. simpl in Hname.
  unfold token_of_match in Hk. cbn [fst snd] in Hk.
  repeat (destruct Hname as [Hname | Hname];
          [subst name;
           first [ discriminate Hd | now contradiction Hm
                 | (left; split; [exact Hk | eauto])
                 | (right; left; split; [exact Hk | eauto])
                 | (right; right; subst k; split; [in_list | eauto]) ]|]).
  contradiction.
Qed.

End WithUnicode.

(** Every token of the scanner has one of eighteen kinds: the groups
    [COMMENT], [SKIP], [NEWLINE], [MISMATCH], [META] and any name made of
    another group never show as the kind of a token. *)
Theorem token_kinds_are_closed uw ud code toks :
  tokenize uw ud code = Tokens toks ->
  Forall (fun t => In (fst t) TOKEN_KINDS) toks.
Proof.
  intros H. apply Forall_forall. intros [k v] Hin.
  destruct (token_origin uw ud code toks k v H Hin)
    as [Heq | (name & s & rest & Hs & Hd & Hm & Hk)].
  - inversion Heq. in_list.
  - cbn [fst]. subst k.
    destruct (String.eqb_spec name "ID") as [-> | Hid].
    { pose proof (keyword_kind_cases v) as Hc.
      unfold token_of_match. cbn [fst snd String.eqb Ascii.eqb Bool.eqb].
      simpl in Hc |- *. tauto. }
    apply token_regex_prefix in Hs as (_ & _ & Hname).
    unfold discarded, in_ in Hd. cbn [fst] in Hd. simpl in Hname.
    repeat (destruct Hname as [Hname | Hname];
            [subst name;
             first [ discriminate Hd | now contradiction Hm
                   | now contradiction Hid | in_list ]|]).
    contradiction.
Qed.

Lemma token_kinds_are_closed_witness :
  tokenize ascii_only ascii_only scenario_C = Tokens scenario_C_tokens
  /\ Forall (fun t => In (fst t) TOKEN_KINDS) scenario_C_tokens.
Proof.
  split; [reflexivity|].
  apply (token_kinds_are_closed ascii_only ascii_only scenario_C).
  reflexivity.
Defined.

(** A token of punctuation has the one value of its kind: the parser can
    test the kind alone. *)
Theorem punctuation_has_one_value uw ud code toks kind value :
  tokenize uw ud code = Tokens toks ->
  In (kind, value) toks ->
  forall value', In (kind, value') PUNCTUATION -> value = value'.
Proof.
  intros H Hin value' Hp.
  destruct (token_cases uw ud code toks kind value H Hin)
    as [Heq | [[Hk _] | [[Hk _] | [_ (s & rest & Hs)]]]].
  - inversion Heq; subst. simpl in Hp.
    repeat (destruct Hp as [Hp | Hp]; [discriminate Hp|]). contradiction.
  - subst kind. simpl in Hp.
    repeat (destruct Hp as [Hp | Hp]; [discriminate Hp|]). contradiction.
  - exfalso. pose proof (keyword_kind_cases value) as Hc.
    rewrite <- Hk in Hc. clear Hk. simpl in Hp, Hc.
    repeat (destruct Hp as [Hp | Hp];
            [injection Hp as Hk' _; rewrite <- Hk' in Hc;
             repeat (destruct Hc as [Hc | Hc]; [discriminate Hc|]);
             contradiction|]).
    contradiction.
  - simpl in Hp.
    repeat (destruct Hp as [Hp | Hp];
            [inversion Hp; subst; clear Hp;
             match goal with
             | |- _ = String ?c EmptyString =>
                 assert (Hl : lit c s = Some (value, rest))
                   by (apply (token_regex_pattern uw ud _ _ _ _ _ Hs);
                       unfold token_specification; in_list)
             end;
             unfold lit in Hl; destruct s as [|d r]; [discriminate Hl|];
             match type of Hl with
             | (if Ascii.eqb d ?c then _ else _) = _ =>
                 destruct (Ascii.eqb_spec d c); [subst d|discriminate Hl]
             end;
             now inversion Hl|]).
    contradiction.
Qed.

Lemma punctuation_has_one_value_witness :
  tokenize ascii_only ascii_only scenario_C = Tokens scenario_C_tokens
  /\ In ("END", ";") scenario_C_tokens
  /\ forall value', In ("END", value') PUNCTUATION -> ";" = value'.
Proof.
  split; [reflexivity|]. split; [in_list|].
  apply (punctuation_has_one_value ascii_only ascii_only scenario_C
           scenario_C_tokens "END" ";" eq_refl).
  in_list.
Defined.

(** A match of a pattern on a text that begins with a given word. *)
Ltac pattern_on_word Hs name :=
  match type of Hs with
  | token_regex ?uw ?ud ?s = Some (_, ?v, ?rest) =>
      let Hpre := fresh "Hpre" in
      pose proof (token_regex_prefix _ _ _ _ _ _ Hs) as (Hpre & _ & _);
      subst s;
      match goal with
      | |- _ =>
          eassert (Hre : _ (v ++ rest) = Some (v, rest))
            by (apply (token_regex_pattern uw ud _ name _ _ _ Hs);
                unfold token_specification; in_list);
          simpl in Hre
      end
  end.

(** A word of [KEYWORDS] is always a token of the kind of its group,
    wherever it stands: it is never an [ID], and an [ID] is never a word of
    [KEYWORDS]. *)
Theorem reserved_words_have_their_kind uw ud code toks kind value :
  tokenize uw ud code = Tokens toks ->
  In (kind, value) toks ->
  (forall group words,
     In (group, words) KEYWORDS -> In value words ->
     kind = group ++ "_KEYWORD")
  /\ (kind = "ID" -> reserved value = false).
Proof.
  intros H Hin.
  assert (Hall : forall group words,
            In (group, words) KEYWORDS -> In value words ->
            kind = group ++ "_KEYWORD").
  { intros group words Hg Hw.
    destruct (token_cases uw ud code toks kind value H Hin)
      as [Heq | [[Hk (s & rest & Hs)] | [[Hk _] | [Hk (s & rest & Hs)]]]].
    - exfalso. inversion Heq; subst. unfold KEYWORDS in Hg. simpl in Hg.
      repeat (destruct Hg as [Hg | Hg];
              [inversion Hg; subst; clear Hg; simpl in Hw;
               repeat (destruct Hw as [Hw | Hw]; [discriminate Hw|]);
               contradiction|]).
      contradiction.
    - unfold KEYWORDS in Hg. simpl in Hg.
      repeat (destruct Hg as [Hg | Hg];
              [inversion Hg; subst; clear Hg; simpl in Hw;
               repeat (destruct Hw as [Hw | Hw];
                       [subst value;
                        first [ reflexivity
                              | (exfalso; pattern_on_word Hs "META";
                                 discriminate Hre) ]|]);
               contradiction|]).
      contradiction.
    - unfold KEYWORDS in Hg. simpl in Hg.
      repeat (destruct Hg as [Hg | Hg];
              [inversion Hg; subst; clear Hg; simpl in Hw;
               repeat (destruct Hw as [Hw | Hw];
                       [subst value; reflexivity|]);
               contradiction|]).
      contradiction.
    - exfalso. unfold KEYWORDS in Hg. simpl in Hg, Hk.
      repeat (destruct Hg as [Hg | Hg];
              [inversion Hg; subst; clear Hg; simpl in Hw;
               repeat (destruct Hw as [Hw | Hw];
                       [subst value;
                        repeat (destruct Hk as [Hk | Hk];
                                [subst kind;
                                 match type of Hs with
                                 | token_regex _ _ _ = Some (?n, _, _) =>
                                     pattern_on_word Hs n
                                 end;
                                 discriminate Hre|]);
                        contradiction|]);
               contradiction|]).
      contradiction. }
  split; [exact Hall|].
  intros ->. unfold reserved, KEYWORDS. cbn [existsb snd].
  repeat match goal with
         | |- context [in_ value ?l] =>
             let E := fresh "E" in
             destruct (in_ value l) eqn:E;
             [ exfalso; unfold in_ in E; apply existsb_exists in E;
               destruct E as (w & Hw & Ew); apply String.eqb_eq in Ew;
               subst w;
               match goal with
               | Hw : In value ?words |- _ =>
                   eassert (Hg : In (_, words) KEYWORDS)
                     by (unfold KEYWORDS; in_list);
                   specialize (Hall _ _ Hg Hw); discriminate Hall
               end
             | cbn [orb] ]
         end.
  reflexivity.
Qed.

Lemma reserved_words_have_their_kind_witness :
  tokenize ascii_only ascii_only scenario_B = Tokens scenario_B_tokens
  /\ In ("FUNCTION_KEYWORD", "play") scenario_B_tokens
  /\ (forall group words,
        In (group, words) KEYWORDS -> In "play" words ->
        "FUNCTION_KEYWORD" = group ++ "_KEYWORD").
Proof.
  split; [reflexivity|]. split; [in_list|].
  apply (reserved_words_have_their_kind ascii_only ascii_only scenario_B
           scenario_B_tokens "FUNCTION_KEYWORD" "play" eq_refl).
  in_list.
Defined.

(** A token of a kind no keyword has comes from the pattern of that name. *)
Lemma token_of_plain_kind uw ud code toks kind value :
  tokenize uw ud code = Tokens toks -> In (kind, value) toks ->
  In kind ["NUMBER"; "STRING"; "OP"] ->
  exists s rest, token_regex uw ud s = Some (kind, value, rest).
Proof.
  intros H Hin Hkind.
  destruct (token_cases uw ud code toks kind value H Hin)
    as [Heq | [[Hk _] | [[Hk _] | [_ Hs]]]]; [exfalso..|exact Hs].
  - inversion Heq; subst. simpl in Hkind.
    repeat (destruct Hkind as [Hkind | Hkind]; [discriminate Hkind|]).
    contradiction.
  - subst kind. simpl in Hkind.
    repeat (destruct Hkind as [Hkind | Hkind]; [discriminate Hkind|]).
    contradiction.
  - pose proof (keyword_kind_cases value) as Hc.
    rewrite <- Hk in Hc. clear Hk. simpl in Hkind, Hc.
    repeat (destruct Hkind as [Hkind | Hkind];
            [rewrite <- Hkind in Hc;
             repeat (destruct Hc as [Hc | Hc]; [discriminate Hc|]);
             contradiction|]).
    contradiction.
Qed.

(** The value of a [STRING] token is a whole string literal: it keeps its
    two double quotes and has no double quote between them. *)
Theorem string_tokens_keep_their_quotes uw ud code toks value :
  tokenize uw ud code = Tokens toks ->
  In ("STRING", value) toks ->
  exists body, value = quoted body /\ all is_not_quote body = true.
Proof.
  intros H Hin.
  destruct (token_of_plain_kind uw ud code toks _ _ H Hin) as (s & rest & Hs);
    [in_list|].
  assert (Hre : re_STRING s = Some (value, rest))
    by (apply (token_regex_pattern uw ud _ _ _ _ _ Hs);
        unfold token_specification; in_list).
  unfold re_STRING in Hre. destruct s as [|d r]; [discriminate|].
  destruct (Ascii.eqb_spec d DQUOTE); [subst d|discriminate].
  destruct (span is_not_quote r) as [body r'] eqn:E.
  destruct r' as [|d' rest']; [discriminate|].
  destruct (span_stops _ _ _ _ E) as [Hr | (c & b' & Hr & Hc)];
    [discriminate Hr|].
  inversion Hr; subst c b'.
  unfold is_not_quote in Hc. apply negb_false_iff in Hc.
  apply Ascii.eqb_eq in Hc. subst d'.
  inversion Hre; subst. exists body. split; [reflexivity|].
  exact (span_all _ _ _ _ E).
Qed.

Lemma string_tokens_keep_their_quotes_witness :
  tokenize ascii_only ascii_only greeting_sample
  = Tokens [("OUTPUT_KEYWORD", "announce"); ("STRING", quoted "hi there");
            ("END", ";"); ("EOF", "")]
  /\ exists body,
       quoted "hi there" = quoted body /\ all is_not_quote body = true.
Proof.
  split; [reflexivity|].
  apply (string_tokens_keep_their_quotes ascii_only ascii_only
           greeting_sample _ (quoted "hi there") eq_refl).
  in_list.
Defined.

(** What a match of [OP] tells: the patterns [COMMENT] and [ASSIGN] before
    it have failed. *)
Lemma token_regex_OP uw ud s v rest :
  token_regex uw ud s = Some ("OP", v, rest) ->
  re_COMMENT s = None /\ lit "=" s = None
  /\ span1 is_op_char s = Some (v, rest).
Proof.
  unfold token_regex, token_specification. cbn [alternation].
  intros H.
  repeat match type of H with
         | match ?re s with _ => _ end = _ =>
             let E := fresh "E" in
             destruct (re s) as [[v0 r0]|] eqn:E;
             [first [discriminate H | (inversion H; subst; auto)]|]
         end.
  discriminate H.
Qed.

(** An [OP] token is a run of operator characters that begins with neither
    [=] nor two slashes: no operator of the language can begin with [=]. *)
Theorem operator_tokens_never_begin_with_equals uw ud code toks value :
  tokenize uw ud code = Tokens toks ->
  In ("OP", value) toks ->
  value <> "" /\ all is_op_char value = true
  /\ starts_with "=" value = false /\ starts_with "//" value = false.
Proof.
  intros H Hin.
  destruct (token_of_plain_kind uw ud code toks _ _ H Hin) as (s & rest & Hs);
    [in_list|].
  apply token_regex_OP in Hs as (Hc & Ha & Hop).
  pose proof (span1_app _ _ _ _ Hop) as [-> Hne].
  pose proof (span1_all _ _ _ _ Hop) as Hall.
  repeat split; try assumption.
  - destruct value as [|c v]; [reflexivity|].
    change (String c v ++ rest) with (String c (v ++ rest)) in Ha.
    unfold lit in Ha. cbn [starts_with].
    rewrite Ascii.eqb_sym. destruct (Ascii.eqb c "="); [discriminate|].
    reflexivity.
  - destruct value as [|c [|c' v]]; try reflexivity.
    + cbn [starts_with]. apply andb_false_r.
    + change (String c (String c' v) ++ rest)
        with (String c (String c' (v ++ rest))) in Hc.
      unfold re_COMMENT in Hc. cbn [starts_with].
      rewrite (Ascii.eqb_sym "/" c), (Ascii.eqb_sym "/" c').
      destruct (Ascii.eqb c "/"); [|reflexivity].
      destruct (Ascii.eqb c' "/"); [|reflexivity].
      destruct (span is_dot (v ++ rest)); discriminate Hc.
Qed.

Lemma operator_tokens_never_begin_with_equals_witness :
  tokenize ascii_only ascii_only "a<=b"
  = Tokens [("ID", "a"); ("OP", "<="); ("ID", "b"); ("EOF", "")]
  /\ "<=" <> ""
  /\ all is_op_char "<=" = true
  /\ starts_with "=" "<=" = false /\ starts_with "//" "<=" = false.
Proof.
  split; [reflexivity|].
  apply (operator_tokens_never_begin_with_equals ascii_only ascii_only
           "a<=b" _ "<=" eq_refl).
  in_list.
Defined.

(** A [NUMBER] token is a run of digits, or two runs of digits with one dot
    between them: no sign, no exponent, no dot at either end. *)
Theorem number_tokens_are_decimal uw ud code toks value :
  tokenize uw ud code = Tokens toks ->
  In ("NUMBER", value) toks ->
  exists int_part,
    int_part <> "" /\ all (is_digit ud) int_part = true
    /\ (value = int_part
        \/ exists frac,
             frac <> "" /\ all (is_digit ud) frac = true
             /\ value = int_part ++ "." ++ frac).
Proof.
  intros H Hin.
  destruct (token_of_plain_kind uw ud code toks _ _ H Hin) as (s & rest & Hs);
    [in_list|].
  assert (Hre : re_NUMBER ud s = Some (value, rest))
    by (apply (token_regex_pattern uw ud _ _ _ _ _ Hs);
        unfold token_specification; in_list).
  unfold re_NUMBER in Hre.
  destruct (span1 (is_digit ud) s) as [[int_part r]|] eqn:E; [|discriminate].
  pose proof (span1_app _ _ _ _ E) as [_ Hne].
  pose proof (span1_all _ _ _ _ E) as Hall.
  exists int_part. split; [exact Hne|]. split; [exact Hall|].
  destruct r as [|c r']; [inversion Hre; now left|].
  destruct (Ascii.eqb_spec c "."); [subst c|inversion Hre; now left].
  destruct (span1 (is_digit ud) r') as [[frac rest']|] eqn:E';
    [|inversion Hre; now left].
  pose proof (span1_app _ _ _ _ E') as [_ Hne'].
  pose proof (span1_all _ _ _ _ E') as Hall'.
  inversion Hre; subst. right. exists frac. auto.
Qed.

Lemma number_tokens_are_decimal_witness :
  tokenize ascii_only ascii_only "x = 1.5;"
  = Tokens [("ID", "x"); ("ASSIGN", "="); ("NUMBER", "1.5"); ("END", ";");
            ("EOF", "")]
  /\ exists int_part,
       int_part <> "" /\ all (is_digit ascii_only) int_part = true
       /\ ("1.5" = int_part
           \/ exists frac,
                frac <> "" /\ all (is_digit ascii_only) frac = true
                /\ "1.5" = int_part ++ "." ++ frac).
Proof.
  split; [reflexivity|].
  apply (number_tokens_are_decimal ascii_only ascii_only "x = 1.5;" _ "1.5"
           eq_refl).
  in_list.
Defined.

(** The tokens end with the one [EOF] token, whose value is empty; every
    token before it has another kind and a value that is not empty. *)
Theorem one_EOF_token_at_the_end uw ud code toks :
  tokenize uw ud code = Tokens toks ->
  exists body,
    toks = (body ++ [("EOF", "")])%list
    /\ Forall (fun t => fst t <> "EOF" /\ snd t <> "") body.
Proof.
  intros H. pose proof (tokenize_loop_no_mismatch _ _ _ _ H) as Hno.
  rewrite (tokenize_tokens uw ud _ _ H).
  eexists. split; [reflexivity|].
  apply Forall_forall. intros [k v] Hin.
  apply in_map_iff in Hin as ([name w] & Heq & Hin).
  apply filter_In in Hin as [Hin _].
  pose proof (finditer_from_names uw ud (String.length code) code) as Hnames.
  rewrite Forall_forall in Hnames. specialize (Hnames _ Hin).
  apply finditer_from_In in Hin as (s & rest & Hs).
  apply token_regex_prefix in Hs as (_ & Hne & _).
  unfold token_of_match in Heq. cbn [fst snd] in Heq, Hnames |- *.
  destruct (name =? "META");
    [injection Heq as <- <-; split; [discriminate | exact Hne]|].
  destruct (name =? "ID"); injection Heq as <- <-; (split; [|exact Hne]).
  - exact (keyword_kind_not_EOF KEYWORDS name w Hnames).
  - exact Hnames.
Qed.

Lemma one_EOF_token_at_the_end_witness :
  tokenize ascii_only ascii_only scenario_C = Tokens scenario_C_tokens
  /\ exists body,
       scenario_C_tokens = (body ++ [("EOF", "")])%list
       /\ Forall (fun t => fst t <> "EOF" /\ snd t <> "") body.
Proof.
  split; [reflexivity|].
  apply (one_EOF_token_at_the_end ascii_only ascii_only scenario_C).
  reflexivity.
Defined.

Section Counting.
Variables uw ud : ascii -> bool.

Lemma finditer_from_length fuel : forall s,
  String.length s <= fuel ->
  List.length (finditer_from uw ud fuel s) <= String.length s.
Proof.
  induction fuel as [|fuel IH]; intros s Hlen; [simpl; lia|].
  destruct s as [|c r]; [simpl; lia|].
  destruct (token_regex uw ud (String c r)) as [[[name v] rest]|] eqn:E;
    [|exfalso; revert E; apply token_regex_total].
  rewrite (finditer_from_step _ _ _ _ _ _ _ E).
  apply token_regex_prefix in E as (Hs & Hne & _).
  assert (Hr : String.length rest <= fuel) by (eapply shorter_rest; eauto).
  specialize (IH rest Hr). rewrite Hs, length_append.
  destruct v; [congruence|]. simpl in *. lia.
Qed.

End Counting.

(** The scanner gives at most one token for each character of the text, and
    [EOF]. *)
Theorem at_most_one_token_per_character uw ud code toks :
  tokenize uw ud code = Tokens toks ->
  List.length toks <= String.length code + 1.
Proof.
  intros H. rewrite (tokenize_tokens uw ud _ _ H).
  rewrite length_app, length_map. simpl.
  pose proof (filter_length_le (fun m => negb (discarded m))
                (finditer uw ud code)) as Hf.
  pose proof (finditer_from_length uw ud (String.length code) code
                (Nat.le_refl _)) as Hl.
  unfold finditer in *. lia.
Qed.

Lemma at_most_one_token_per_character_witness :
  tokenize ascii_only ascii_only scenario_C = Tokens scenario_C_tokens
  /\ List.length scenario_C_tokens <= String.length scenario_C + 1.
Proof.
  split; [reflexivity|].
  apply (at_most_one_token_per_character ascii_only ascii_only). reflexivity.
Defined.

(** The two files scan alike: the order of the groups in [KEYWORDS], which
    differs between them, has no effect on any text. *)
Theorem the_two_scanners_agree uw ud code :
  tokenize_gui uw ud code = tokenize uw ud code.
Proof. apply tokenize_gui_eq. Qed.

(** *** The lexical error *)

Lemma tokenize_loop_error kw ms : forall acc msg,
  tokenize_loop kw ms acc = RuntimeError msg ->
  exists ms1 v ms2,
    ms = (ms1 ++ ("MISMATCH", v) :: ms2)%list
    /\ Forall (fun m => fst m <> "MISMATCH") ms1
    /\ msg = "Unexpected token: " ++ v.
Proof.
  induction ms as [|[kind value] more IH]; simpl; intros acc msg H;
    [discriminate|].
  assert (Hnext : forall acc',
            kind <> "MISMATCH" ->
            tokenize_loop kw more acc' = RuntimeError msg ->
            exists ms1 v ms2,
              (kind, value) :: more = (ms1 ++ ("MISMATCH", v) :: ms2)%list
              /\ Forall (fun m => fst m <> "MISMATCH") ms1
              /\ msg = "Unexpected token: " ++ v).
  { intros acc' Hk H'. apply IH in H' as (ms1 & v & ms2 & -> & Hno & ->).
    exists ((kind, value) :: ms1), v, ms2. repeat split.
    constructor; assumption. }
  destruct (kind =? "COMMENT") eqn:E1.
  { apply String.eqb_eq in E1; subst. eapply Hnext; [discriminate | exact H]. }
  destruct (kind =? "META") eqn:E2.
  { apply String.eqb_eq in E2; subst. eapply Hnext; [discriminate | exact H]. }
  destruct (kind =? "ID") eqn:E3.
  { apply String.eqb_eq in E3; subst. eapply Hnext; [discriminate | exact H]. }
  destruct (kind =? "SKIP") eqn:E4.
  { apply String.eqb_eq in E4; subst. eapply Hnext; [discriminate | exact H]. }
  destruct (kind =? "NEWLINE") eqn:E5.
  { apply String.eqb_eq in E5; subst. eapply Hnext; [discriminate | exact H]. }
  simpl in H. destruct (kind =? "MISMATCH") eqn:E6.
  - apply String.eqb_eq in E6; subst. inversion H; subst.
    exists [], value, more. repeat split. constructor.
  - apply String.eqb_neq in E6. eapply Hnext; [exact E6 | exact H].
Qed.

Lemma span1_none p c r : span1 p (String c r) = None -> p c = false.
Proof.
  unfold span1. simpl. destruct (p c); [|reflexivity].
  destruct (span p r); discriminate.
Qed.

Lemma lit_none c d r : lit c (String d r) = None -> Ascii.eqb d c = false.
Proof. simpl. destruct (Ascii.eqb d c); [discriminate | reflexivity]. Qed.

(** A [MISMATCH] is one character at which no other pattern can begin. *)
Lemma token_regex_MISMATCH uw ud s v rest :
  token_regex uw ud s = Some ("MISMATCH", v, rest) ->
  exists c, v = String c "" /\ begins_a_token ud c = false.
Proof.
  unfold token_regex, token_specification. cbn [alternation].
  intros H.
  repeat match type of H with
         | match ?re s with _ => _ end = _ =>
             let E := fresh "E" in
             destruct (re s) as [[v0 r0]|] eqn:E; [discriminate H|]
         end.
  destruct s as [|c r]; [discriminate H|].
  unfold re_MISMATCH in H. destruct (is_dot c) eqn:Ed; [|discriminate H].
  inversion H; subst. exists c. split; [reflexivity|].
  unfold begins_a_token. cbn [existsb].
  repeat match goal with
         | E : lit _ (String c _) = None |- _ => apply lit_none in E
         | E : span1 _ (String c _) = None |- _ => apply span1_none in E
         end.
  assert (Hid : is_id_start c = false).
  { match goal with E : re_ID _ _ = None |- _ => unfold re_ID in E end.
    destruct (is_id_start c); [|reflexivity].
    match goal with
    | E : (let (_, _) := ?x in _) = None |- _ => destruct x; discriminate E
    end. }
  assert (Hdig : is_digit ud c = false).
  { match goal with
    | E : re_NUMBER _ ?t = None |- _ => unfold re_NUMBER in E;
        destruct (span1 (is_digit ud) t) as [[i r']|] eqn:En
    end.
    - exfalso. destruct r' as [|d r'']; [discriminate|].
      destruct (Ascii.eqb d "."); [|discriminate].
      destruct (span1 (is_digit ud) r'') as [[? ?]|]; discriminate.
    - now apply span1_none in En. }
  repeat match goal with
         | E : _ = false |- _ => rewrite E; clear E
         end.
  reflexivity.
Qed.

(** When the scanner fails, its message names one character of the text:
    the first one [finditer] matches with [MISMATCH], all matches before it
    being of other groups.  That character is no blank, line feed, operator
    character, punctuation, letter, underscore or digit. *)
Theorem lex_error_names_a_foreign_character uw ud code msg :
  tokenize uw ud code = RuntimeError msg ->
  exists ms1 c ms2,
    finditer uw ud code = (ms1 ++ ("MISMATCH", String c "") :: ms2)%list
    /\ Forall (fun m => fst m <> "MISMATCH") ms1
    /\ code = join (map snd ms1) ++ String c (join (map snd ms2))
    /\ msg = "Unexpected token: " ++ String c ""
    /\ begins_a_token ud c = false.
Proof.
  intros H. apply tokenize_loop_error in H as (ms1 & v & ms2 & Hms & Hno & ->).
  assert (Hin : In ("MISMATCH", v) (finditer uw ud code))
    by (rewrite Hms; apply in_or_app; right; now left).
  apply finditer_from_In in Hin as (s & rest & Hs).
  apply token_regex_MISMATCH in Hs as (c & -> & Hc).
  exists ms1, c, ms2. repeat split; try assumption.
  rewrite <- (finditer_join uw ud code) at 1.
  rewrite Hms, map_app, join_app. reflexivity.
Qed.

Lemma lex_error_names_a_foreign_character_witness :
  tokenize ascii_only ascii_only "x = 1 @ 2"
  = RuntimeError "Unexpected token: @"
  /\ exists ms1 c ms2,
       finditer ascii_only ascii_only "x = 1 @ 2"
       = (ms1 ++ ("MISMATCH", String c "") :: ms2)%list
       /\ Forall (fun m => fst m <> "MISMATCH") ms1
       /\ "x = 1 @ 2" = join (map snd ms1) ++ String c (join (map snd ms2))
       /\ "Unexpected token: @" = "Unexpected token: " ++ String c ""
       /\ begins_a_token ascii_only c = false.
Proof.
  split; [reflexivity|].
  apply (lex_error_names_a_foreign_character ascii_only ascii_only).
  reflexivity.
Defined.

End ScannerShapes.

(** * More on the recognizer *)

Module RecognizerRuns.
Import Recognizer.
Import Spec.
Import Lexicon.
Import Runs.
Import RecognizerFacts.

(** ** Relations all procedures respect *)

Section Respects.

Variable tokens : list token.
Variable R : run_relation.

Hypothesis R_ret : forall s, R s None s.
Hypothesis R_seq : forall s s1 o s2, R s None s1 -> R s1 o s2 -> R s o s2.
Hypothesis R_fuel : forall s, R s (Some OutOfFuel) s.
Hypothesis R_index :
  forall s, nth_error tokens (pos s) = None -> R s (Some IndexError) s.
Hypothesis R_advance :
  forall s t, nth_error tokens (pos s) = Some t ->
              R s None (mkState (pos s + 1) (out s)).
Hypothesis R_log :
  forall s msg, is_diagnostic msg = false ->
                R s None (mkState (pos s) (out s ++ [msg])).
Hypothesis R_error :
  forall s msg t, nth_error tokens (pos s) = Some t ->
    R s (Some SystemExit) (mkState (pos s) (out s ++ [diagnostic msg t])).

Lemma respects_at_ret A (a : A) s : respects_at R (ret a) s.
Proof. apply R_ret. Qed.

Lemma respects_at_out_of_fuel A s : respects_at R (@raise A OutOfFuel) s.
Proof. apply R_fuel. Qed.

Lemma respects_at_bind A B (m : M A) (k : A -> M B) s :
  respects_at R m s ->
  (forall a s1, m s = Return a s1 -> respects_at R (k a) s1) ->
  respects_at R (bind m k) s.
Proof.
  unfold respects_at, bind. intros Hm Hk.
  destruct (m s) as [a s1 | e s1] eqn:E; [|exact Hm].
  simpl in Hm. eapply R_seq; [exact Hm | now apply Hk].
Qed.

Lemma respects_at_current_token s : respects_at R (current_token tokens) s.
Proof.
  unfold respects_at, current_token.
  destruct (nth_error tokens (pos s)) eqn:E; simpl; auto.
Qed.

(** After [current_token] the state is the same and the token is known. *)
Lemma respects_at_bind_current B (k : token -> M B) s :
  (forall t, nth_error tokens (pos s) = Some t -> respects_at R (k t) s) ->
  respects_at R (bind (current_token tokens) k) s.
Proof.
  intros Hk. apply respects_at_bind; [apply respects_at_current_token|].
  intros t s1 H. unfold current_token in H.
  destruct (nth_error tokens (pos s)) eqn:E; inversion H; subst. now apply Hk.
Qed.

Lemma respects_at_log msg s :
  is_diagnostic msg = false -> respects_at R (log msg) s.
Proof. intros H. now apply R_log. Qed.

Lemma respects_at_error_here A msg kind value s :
  nth_error tokens (pos s) = Some (kind, value) ->
  respects_at R (@error tokens A msg (Some kind) (Some value)) s.
Proof. intros H. exact (R_error s msg (kind, value) H). Qed.

Lemma respects_at_error A msg s :
  respects_at R (@error tokens A msg None None) s.
Proof.
  unfold respects_at, error, bind, current_token.
  destruct (nth_error tokens (pos s)) as [t|] eqn:E; simpl.
  - exact (R_error s msg t E).
  - now apply R_index.
Qed.

Lemma respects_at_match_ expected_type expected_value s :
  respects_at R (match_ tokens expected_type expected_value) s.
Proof.
  unfold match_. apply respects_at_bind_current. intros [kind value] Ht.
  destruct ((kind =? expected_type)
            && match expected_value with
               | Some v => value =? v
               | None => true
               end).
  - unfold respects_at, bind, advance. simpl. now apply R_advance with (t := (kind, value)).
  - now apply respects_at_error_here.
Qed.

Lemma respects_at_advance s t :
  nth_error tokens (pos s) = Some t -> respects_at R advance s.
Proof. intros H. exact (R_advance s t H). Qed.

Lemma respects_at_lookahead n s : respects_at R (lookahead tokens n) s.
Proof.
  unfold respects_at, lookahead.
  destruct (pos s + n <? List.length tokens)%nat; apply R_ret.
Qed.

Lemma respects_while cond body :
  respects R cond -> respects R body ->
  forall fuel, respects R (while_ fuel cond body).
Proof.
  intros Hc Hb. induction fuel as [|fuel IH]; intros s; simpl.
  - apply R_fuel.
  - apply respects_at_bind; [apply Hc|]. intros [|] s1 _; [|apply R_ret].
    apply respects_at_bind; [apply Hb | intros _ s2 _; apply IH].
Qed.

Ltac respects_step :=
  match goal with
  | H : respects _ ?m |- respects_at _ ?m _ => apply H
  | |- respects _ _ => intros ?
  | |- respects_at _ (bind (current_token _) _) _ =>
      apply respects_at_bind_current; intros ? ?
  | |- respects_at _ (bind _ _) _ => apply respects_at_bind; [|intros ? ? _]
  | |- respects_at _ (ret _) _ => apply respects_at_ret
  | |- respects_at _ (raise OutOfFuel) _ => apply respects_at_out_of_fuel
  | |- respects_at _ (log _) _ => apply respects_at_log; reflexivity
  | |- respects_at _ (error _ _ None None) _ => apply respects_at_error
  | |- respects_at _ (error _ _ (Some _) (Some _)) _ =>
      apply respects_at_error_here; assumption
  | |- respects_at _ (match_ _ _ _) _ => apply respects_at_match_
  | |- respects_at _ (current_token _) _ => apply respects_at_current_token
  | |- respects_at _ (lookahead _ _) _ => apply respects_at_lookahead
  | |- respects_at _ advance _ => eapply respects_at_advance; eassumption
  | |- respects_at _ (kind_is _ _) _ => unfold kind_is
  | |- respects_at _ (more_statements _) _ => unfold more_statements
  | |- respects_at _ (while_ _ _ _) _ => apply respects_while
  | |- respects_at _ (if ?b then _ else _) _ => destruct b
  | |- respects_at _ (let (_, _) := ?t in _) _ => destruct t
  | |- respects_at _ (match ?f with cr7_compiler => _ | cr7_gui => _ end) _ =>
      destruct f
  end.

Lemma respects_parse_meta : respects R (parse_meta tokens).
Proof. unfold parse_meta. repeat respects_step. Qed.

Lemma respects_parse_param_list fuel :
  respects R (parse_param_list tokens fuel).
Proof. unfold parse_param_list. repeat respects_step. Qed.

Lemma respects_expressions file : forall fuel,
  respects R (parse_expr file tokens fuel)
  /\ respects R (parse_term file tokens fuel)
  /\ respects R (parse_factor file tokens fuel).
Proof.
  induction fuel as [|fuel (IHe & IHt & IHf)].
  - split; [|split]; intros s; apply R_fuel.
  - split; [|split]; cbn [parse_expr parse_term parse_factor];
      repeat respects_step.
Qed.

Lemma respects_parse_expr file fuel :
  respects R (parse_expr file tokens fuel).
Proof. apply respects_expressions. Qed.

Lemma respects_parse_condition file fuel :
  respects R (parse_condition file tokens fuel).
Proof.
  pose proof (respects_parse_expr file fuel).
  unfold parse_condition. repeat respects_step.
Qed.

Lemma respects_parse_declaration file fuel :
  respects R (parse_declaration file tokens fuel).
Proof.
  pose proof (respects_parse_expr file fuel).
  unfold parse_declaration. repeat respects_step.
Qed.

Lemma respects_parse_assignment file fuel :
  respects R (parse_assignment file tokens fuel).
Proof.
  pose proof (respects_parse_expr file fuel).
  unfold parse_assignment. repeat respects_step.
Qed.

Lemma respects_parse_declaration_in_for file fuel :
  respects R (parse_declaration_in_for file tokens fuel).
Proof.
  pose proof (respects_parse_expr file fuel).
  unfold parse_declaration_in_for. repeat respects_step.
Qed.

Lemma respects_parse_assignment_in_for file fuel :
  respects R (parse_assignment_in_for file tokens fuel).
Proof.
  pose proof (respects_parse_expr file fuel).
  unfold parse_assignment_in_for. repeat respects_step.
Qed.

Lemma respects_parse_output file fuel :
  respects R (parse_output file tokens fuel).
Proof.
  pose proof (respects_parse_expr file fuel).
  unfold parse_output. repeat respects_step.
Qed.

Lemma respects_parse_return file fuel :
  respects R (parse_return file tokens fuel).
Proof.
  pose proof (respects_parse_expr file fuel).
  unfold parse_return. repeat respects_step.
Qed.

Lemma respects_parse_input : respects R (parse_input tokens).
Proof. unfold parse_input. repeat respects_step. Qed.

Lemma respects_statements file : forall fuel,
  respects R (parse_statement_list file tokens fuel)
  /\ respects R (parse_statement file tokens fuel)
  /\ respects R (parse_if file tokens fuel)
  /\ respects R (parse_while file tokens fuel)
  /\ respects R (parse_for file tokens fuel).
Proof.
  induction fuel as [|fuel (IHl & IHs & IHi & IHw & IHf)].
  - split; [|split; [|split; [|split]]]; intros s; apply R_fuel.
  - pose proof (respects_parse_condition file fuel).
    pose proof (respects_parse_declaration file fuel).
    pose proof (respects_parse_assignment file fuel).
    pose proof (respects_parse_declaration_in_for file fuel).
    pose proof (respects_parse_assignment_in_for file fuel).
    pose proof (respects_parse_output file fuel).
    pose proof respects_parse_input.
    pose proof (respects_parse_return file fuel).
    split; [|split; [|split; [|split]]];
      cbn [parse_statement_list parse_statement parse_if parse_while
           parse_for];
      repeat respects_step.
Qed.

Lemma respects_parse_function file fuel :
  respects R (parse_function file tokens fuel).
Proof.
  pose proof (respects_parse_param_list fuel).
  destruct (respects_statements file fuel) as (? & _).
  unfold parse_function. repeat respects_step.
Qed.

(** The loop of [parse_program]. *)
Lemma respects_program_loop file fuel :
  respects R
    (while_ fuel
       (t <- current_token tokens ;; ret (negb (fst t =? "EOF")))
       (t <- current_token tokens ;;
        let (kind, value) := t in
        if kind =? "META_KEYWORD" then parse_meta tokens
        else if kind =? "FUNCTION_KEYWORD" then parse_function file tokens fuel
        else error tokens ("Unexpected statement start: " ++ value) None None)).
Proof.
  pose proof respects_parse_meta.
  pose proof (respects_parse_function file fuel).
  repeat respects_step.
Qed.

Lemma respects_parse_program file fuel :
  respects R (parse_program file tokens fuel).
Proof.
  pose proof respects_parse_meta.
  pose proof (respects_parse_function file fuel).
  unfold parse_program. repeat respects_step.
Qed.

(** Every grammar procedure respects the relation. *)
Lemma respects_call file p fuel : respects R (call file tokens p fuel).
Proof.
  destruct p; simpl;
    first [ apply respects_parse_program | apply respects_parse_meta
          | apply respects_parse_function | apply respects_parse_param_list
          | apply respects_statements | apply respects_parse_declaration
          | apply respects_parse_assignment
          | apply respects_parse_declaration_in_for
          | apply respects_parse_assignment_in_for
          | apply respects_parse_output | apply respects_parse_input
          | apply respects_parse_return | apply respects_parse_condition
          | apply respects_expressions ].
Qed.

End Respects.

(** ** What is written *)

Section Written.

Variable tokens : list token.

Lemma written_ret s : written tokens s None s.
Proof. exists []. split; [now rewrite app_nil_r | constructor]. Qed.

Lemma written_seq s s1 o s2 :
  written tokens s None s1 -> written tokens s1 o s2 -> written tokens s o s2.
Proof.
  intros (l1 & H1 & F1) (l2 & H2 & F2). exists (l1 ++ l2)%list.
  split; [now rewrite H2, H1, app_assoc|].
  destruct o as [[| |]|]; try (apply Forall_app; now split).
  destruct F2 as (before & msg & t & -> & Fb & Ht).
  exists (l1 ++ before)%list, msg, t.
  split; [now rewrite app_assoc|]. split; [|exact Ht].
  apply Forall_app. now split.
Qed.

Lemma written_call file p fuel :
  respects (written tokens) (call file tokens p fuel).
Proof.
  apply respects_call.
  - apply written_ret.
  - apply written_seq.
  - intros s. exists []. split; [now rewrite app_nil_r | constructor].
  - intros s _. exists []. split; [now rewrite app_nil_r | constructor].
  - intros s t _. exists []. simpl. split; [now rewrite app_nil_r | constructor].
  - intros s msg Hmsg. exists [msg]. simpl. split; [reflexivity|].
    constructor; [exact Hmsg | constructor].
  - intros s msg t Ht. exists [diagnostic msg t]. simpl.
    split; [reflexivity|]. exists [], msg, t. repeat split; auto.
Qed.

Lemma written_program_loop file fuel :
  respects (written tokens)
    (while_ fuel
       (t <- current_token tokens ;; ret (negb (fst t =? "EOF")))
       (t <- current_token tokens ;;
        let (kind, value) := t in
        if kind =? "META_KEYWORD" then parse_meta tokens
        else if kind =? "FUNCTION_KEYWORD" then parse_function file tokens fuel
        else error tokens ("Unexpected statement start: " ++ value) None None)).
Proof.
  apply respects_program_loop.
  - apply written_ret.
  - apply written_seq.
  - intros s. exists []. split; [now rewrite app_nil_r | constructor].
  - intros s _. exists []. split; [now rewrite app_nil_r | constructor].
  - intros s t _. exists []. simpl. split; [now rewrite app_nil_r | constructor].
  - intros s msg Hmsg. exists [msg]. simpl. split; [reflexivity|].
    constructor; [exact Hmsg | constructor].
  - intros s msg t Ht. exists [diagnostic msg t]. simpl.
    split; [reflexivity|]. exists [], msg, t. repeat split; auto.
Qed.

End Written.

(** No grammar procedure erases or changes a line: however it ends, what it
    has written is what was written before with lines added at the end. *)
Theorem output_is_append_only file tokens p fuel s :
  exists lines,
    out (final (call file tokens p fuel s)) = (out s ++ lines)%list.
Proof.
  destruct (written_call tokens file p fuel s) as (lines & H & _). eauto.
Qed.

(** A run of a grammar procedure that ends in [SystemExit] has written one
    diagnostic, as its last line, and the token the diagnostic names is the
    token under the cursor; a run that returns has written no diagnostic. *)
Theorem one_diagnostic_at_the_cursor file tokens p fuel s :
  match call file tokens p fuel s with
  | Raise SystemExit s' =>
      exists before msg t,
        out s' = (out s ++ before ++ [diagnostic msg t])%list
        /\ Forall (fun l => is_diagnostic l = false) before
        /\ nth_error tokens (pos s') = Some t
  | Raise _ s' | Return _ s' =>
      exists lines,
        out s' = (out s ++ lines)%list
        /\ Forall (fun l => is_diagnostic l = false) lines
  end.
Proof.
  pose proof (written_call tokens file p fuel s) as H.
  unfold respects_at, written in H.
  destruct (call file tokens p fuel s) as [[] s' | [| |] s']; simpl in H;
    destruct H as (lines & Hout & Hl); eauto.
  destruct Hl as (before & msg & t & -> & Hb & Ht).
  exists before, msg, t. auto.
Qed.

(** ** Where the loops stop *)

(** A loop whose condition leaves the state as it is returns in a state
    where the condition is false. *)
Lemma while_exit cond body :
  (forall s b s1, cond s = Return b s1 -> s1 = s) ->
  forall fuel s s',
    while_ fuel cond body s = Return tt s' -> cond s' = Return false s'.
Proof.
  intros Hpure. induction fuel as [|fuel IH]; intros s s' H; [discriminate|].
  simpl in H. unfold bind at 1 in H.
  destruct (cond s) as [b s1 | e s1] eqn:Ec; [|discriminate].
  pose proof (Hpure _ _ _ Ec); subst s1.
  destruct b.
  - unfold bind in H. destruct (body s) as [[] s2 | e s2]; [|discriminate].
    eapply IH; eauto.
  - inversion H; subst. exact Ec.
Qed.

Lemma current_token_pure (tokens : list token) s t s1 :
  current_token tokens s = Return t s1 ->
  s1 = s /\ nth_error tokens (pos s) = Some t.
Proof.
  unfold current_token. destruct (nth_error tokens (pos s));
    intros H; inversion H; subst; auto.
Qed.

(** When [parse_statement_list] returns, the token under the cursor is a
    closing brace or [EOF]: a block ends nowhere else. *)
Theorem statement_list_stops_at_brace_or_EOF
    file (tokens : list token) fuel s s' :
  parse_statement_list file tokens fuel s = Return tt s' ->
  exists kind value,
    nth_error tokens (pos s') = Some (kind, value)
    /\ (kind = "EOF" \/ kind = "RBRACE").
Proof.
  destruct fuel as [|fuel]; [discriminate|].
  cbn [parse_statement_list parse_statement parse_if parse_while parse_for].
  intros H. apply while_exit in H.
  - unfold more_statements, bind in H.
    destruct (current_token tokens s') as [[kind value] s1 | e s1] eqn:E;
      [|discriminate].
    apply current_token_pure in E as [-> Ht].
    exists kind, value. split; [exact Ht|].
    injection H as Hb. apply negb_false_iff in Hb.
    unfold in_ in Hb. cbn [existsb fst] in Hb.
    apply orb_true_iff in Hb as [Hb | Hb]; [left; now apply String.eqb_eq|].
    apply orb_true_iff in Hb as [Hb | Hb]; [right; now apply String.eqb_eq|].
    discriminate.
  - intros s0 b s1 Hc. unfold more_statements, bind in Hc.
    destruct (current_token tokens s0) as [t s2 | e s2] eqn:E; [|discriminate].
    apply current_token_pure in E as [-> _]. now inversion Hc.
Qed.

Lemma statement_list_stops_at_brace_or_EOF_witness :
  parse_statement_list cr7_gui scenario_B_tokens 10 (mkState 5 [])
  = Return tt (mkState 13 ["→ Declaration parsed"; "→ Output parsed"])
  /\ exists kind value,
       nth_error scenario_B_tokens 13 = Some (kind, value)
       /\ (kind = "EOF" \/ kind = "RBRACE").
Proof.
  split; [reflexivity|].
  apply (statement_list_stops_at_brace_or_EOF cr7_gui scenario_B_tokens 10
           (mkState 5 [])
           (mkState 13 ["→ Declaration parsed"; "→ Output parsed"])).
  reflexivity.
Defined.

(** A program is accepted only with the cursor on an [EOF] token; what was
    written is then the first line, lines that are no diagnostic, and the
    last line. *)
Lemma acceptance_is_at_EOF file (tokens : list token) fuel s0 s :
  parse_program file tokens fuel s0 = Return tt s ->
  (exists value, nth_error tokens (pos s) = Some ("EOF", value))
  /\ exists trace,
       out s = (out s0 ++ header_line :: trace ++ [completed_line])%list
       /\ Forall (fun l => is_diagnostic l = false) trace.
Proof.
  unfold parse_program. fold header_line. fold completed_line.
  unfold bind at 1. cbn [log].
  set (s1 := mkState (pos s0) (out s0 ++ [header_line])).
  unfold bind at 1.
  match goal with
  | |- context [while_ fuel ?c ?b s1] =>
      set (cond := c); set (body := b);
      assert (Hw : written tokens s1 (outcome (while_ fuel cond body s1))
                     (final (while_ fuel cond body s1)))
        by apply (written_program_loop tokens file fuel s1);
      destruct (while_ fuel cond body s1) as [[] s2 | e s2] eqn:Hloop;
      [try rewrite Hloop in Hw|discriminate]
  end.
  intros H. inversion H; subst; clear H. cbn [pos out].
  split.
  - apply while_exit in Hloop.
    + unfold cond, bind in Hloop.
      destruct (current_token tokens s2) as [[kind value] s3 | e s3] eqn:E;
        [|discriminate].
      apply current_token_pure in E as [-> Ht].
      injection Hloop as Hb. apply negb_false_iff in Hb.
      apply String.eqb_eq in Hb. cbn [fst] in Hb. subst kind. eauto.
    + intros sa b sb Hc. unfold cond, bind in Hc.
      destruct (current_token tokens sa) as [t sc | e sc] eqn:E;
        [|discriminate].
      apply current_token_pure in E as [-> _]. now inversion Hc.
  - unfold respects_at, written in Hw. simpl in Hw.
    destruct Hw as (trace & Hout & Htrace). exists trace.
    split; [|exact Htrace].
    rewrite Hout. unfold s1. cbn [out].
    rewrite <- !app_assoc. reflexivity.
Qed.

(** On the tokens of the scanner a program is accepted only when every
    token has been consumed: the cursor is on the last token, [EOF].  What
    was written is the first line, a trace without diagnostic, and the last
    line. *)
Theorem acceptance_consumes_every_token uw ud code toks file fuel s :
  Scanner.tokenize uw ud code = Tokens toks ->
  parse_program file toks fuel CR7Parser = Return tt s ->
  pos s + 1 = List.length toks
  /\ exists trace,
       out s = header_line :: trace ++ [completed_line]
       /\ Forall (fun l => is_diagnostic l = false) trace.
Proof.
  intros Ht Hp. apply ScannerFacts.tokenize_ends_in_EOF in Ht.
  apply acceptance_is_at_EOF in Hp as [(value & Hn) Htrace].
  split; [|exact Htrace].
  destruct Ht as (body & -> & Hbody). rewrite length_app. simpl.
  destruct (Nat.lt_ge_cases (pos s) (List.length body)) as [Hlt | Hge].
  - exfalso. rewrite nth_error_app1 in Hn by exact Hlt.
    apply nth_error_In in Hn. rewrite Forall_forall in Hbody.
    now apply (Hbody _ Hn).
  - rewrite nth_error_app2 in Hn by exact Hge.
    destruct (pos s - List.length body) as [|[|n]] eqn:E; simpl in Hn;
      try discriminate; lia.
Qed.

Lemma acceptance_consumes_every_token_witness :
  Scanner.tokenize ascii_only ascii_only scenario_B = Tokens scenario_B_tokens
  /\ parse_program cr7_compiler scenario_B_tokens 10 CR7Parser
     = Return tt
         (mkState 14
            [header_line; "→ Declaration parsed"; "→ Output parsed";
             "→ Function parsed"; completed_line])
  /\ 14 + 1 = List.length scenario_B_tokens
  /\ exists trace,
       [header_line; "→ Declaration parsed"; "→ Output parsed";
        "→ Function parsed"; completed_line]
       = header_line :: trace ++ [completed_line]
       /\ Forall (fun l => is_diagnostic l = false) trace.
Proof.
  split; [reflexivity|]. split; [reflexivity|].
  apply (acceptance_consumes_every_token ascii_only ascii_only scenario_B
           scenario_B_tokens cr7_compiler 10
           (mkState 14
              [header_line; "→ Declaration parsed"; "→ Output parsed";
               "→ Function parsed"; completed_line]));
    reflexivity.
Defined.

End RecognizerRuns.

(** * Progress of the recognizer *)

Module RecognizerProgress.
Import Recognizer.
Import Spec.
Import Lexicon.
Import Runs.
Import RecognizerFacts.
Import RecognizerRuns.

Section Progress.

Variable tokens : list token.

Lemma never_retreats_call file p fuel : never_retreats (call file tokens p fuel).
Proof.
  intros s a s' H.
  destruct (at_least_call tokens (pos s) file p fuel s (Nat.le_refl _))
    as [Hi _].
  rewrite H in Hi. exact Hi.
Qed.

Lemma never_retreats_ret A (a : A) : never_retreats (ret a).
Proof. intros s a' s' H. inversion H; subst. apply Nat.le_refl. Qed.

Lemma never_retreats_bind A B (m : M A) (k : A -> M B) :
  never_retreats m -> (forall a, never_retreats (k a)) ->
  never_retreats (bind m k).
Proof.
  intros Hm Hk s b s' H. unfold bind in H.
  destruct (m s) as [a s1 | e s1] eqn:E; [|discriminate].
  apply Hm in E. apply Hk in H. lia.
Qed.

Lemma advances_never_retreats A (m : M A) : advances m -> never_retreats m.
Proof. intros H s a s' Hr. apply H in Hr. lia. Qed.

Lemma advances_bind_l A B (m : M A) (k : A -> M B) :
  advances m -> (forall a, never_retreats (k a)) -> advances (bind m k).
Proof.
  intros Hm Hk s b s' H. unfold bind in H.
  destruct (m s) as [a s1 | e s1] eqn:E; [|discriminate].
  apply Hm in E. apply Hk in H. lia.
Qed.

Lemma advances_bind_r A B (m : M A) (k : A -> M B) :
  never_retreats m -> (forall a, advances (k a)) -> advances (bind m k).
Proof.
  intros Hm Hk s b s' H. unfold bind in H.
  destruct (m s) as [a s1 | e s1] eqn:E; [|discriminate].
  apply Hm in E. apply Hk in H. lia.
Qed.

Lemma advances_match_ expected_type expected_value :
  advances (match_ tokens expected_type expected_value).
Proof.
  intros s a s' H.
  pose proof (match__cursor tokens expected_type expected_value s) as Hc.
  rewrite H in Hc. lia.
Qed.

Lemma advances_error A msg k v : advances (@error tokens A msg k v).
Proof.
  intros s a s' H.
  destruct (error_cursor tokens A msg k v s) as (e & s1 & He & _).
  rewrite He in H. discriminate.
Qed.

Lemma advances_raise A e : advances (@raise A e).
Proof. intros s a s' H. discriminate. Qed.

Lemma never_retreats_current_token : never_retreats (current_token tokens).
Proof.
  intros s a s' H. apply current_token_pure in H as [-> _]. apply Nat.le_refl.
Qed.

Lemma never_retreats_lookahead n : never_retreats (lookahead tokens n).
Proof.
  intros s a s' H. unfold lookahead in H.
  destruct (pos s + n <? List.length tokens)%nat; inversion H; subst;
    apply Nat.le_refl.
Qed.

Lemma never_retreats_log msg : never_retreats (log msg).
Proof. intros s a s' H. inversion H; subst. apply Nat.le_refl. Qed.

Lemma advances_advance : advances advance.
Proof. intros s a s' H. inversion H; subst. simpl. lia. Qed.

Lemma never_retreats_while cond body :
  never_retreats cond -> never_retreats body ->
  forall fuel, never_retreats (while_ fuel cond body).
Proof.
  intros Hc Hb. induction fuel as [|fuel IH]; simpl.
  - intros s a s' H. discriminate.
  - apply never_retreats_bind; [exact Hc|]. intros [|].
    + apply never_retreats_bind; [exact Hb | intros _; exact IH].
    + apply never_retreats_ret.
Qed.

Lemma never_retreats_parse_expr file fuel :
  never_retreats (parse_expr file tokens fuel).
Proof. exact (never_retreats_call file Parse_expr fuel). Qed.

Lemma never_retreats_parse_condition file fuel :
  never_retreats (parse_condition file tokens fuel).
Proof. exact (never_retreats_call file Parse_condition fuel). Qed.

Lemma never_retreats_parse_statement_list file fuel :
  never_retreats (parse_statement_list file tokens fuel).
Proof. exact (never_retreats_call file Parse_statement_list fuel). Qed.

Lemma never_retreats_parse_param_list fuel :
  never_retreats (parse_param_list tokens fuel).
Proof. exact (never_retreats_call cr7_gui Parse_param_list fuel). Qed.

Lemma never_retreats_parse_declaration_in_for file fuel :
  never_retreats (parse_declaration_in_for file tokens fuel).
Proof. exact (never_retreats_call file Parse_declaration_in_for fuel). Qed.

Lemma never_retreats_parse_assignment_in_for file fuel :
  never_retreats (parse_assignment_in_for file tokens fuel).
Proof. exact (never_retreats_call file Parse_assignment_in_for fuel). Qed.

(** A term made of the procedures and the primitives does not move the
    cursor backward. *)
Ltac nr :=
  match goal with
  | H : never_retreats ?m |- never_retreats ?m => exact H
  | H : forall fuel, never_retreats _ |- never_retreats _ => apply H
  | H : forall fuel, advances _ |- never_retreats _ =>
      apply advances_never_retreats, H
  | H : advances ?m |- never_retreats ?m =>
      apply advances_never_retreats; exact H
  | |- never_retreats (bind _ _) =>
      apply never_retreats_bind; [nr | intros ?; nr]
  | |- never_retreats (ret _) => apply never_retreats_ret
  | |- never_retreats (log _) => apply never_retreats_log
  | |- never_retreats (current_token _) => apply never_retreats_current_token
  | |- never_retreats (lookahead _ _) => apply never_retreats_lookahead
  | |- never_retreats (match_ _ _ _) =>
      apply advances_never_retreats, advances_match_
  | |- never_retreats (error _ _ _ _) =>
      apply advances_never_retreats, advances_error
  | |- never_retreats advance =>
      apply advances_never_retreats, advances_advance
  | |- never_retreats (kind_is _ _) => unfold kind_is; nr
  | |- never_retreats (more_statements _) => unfold more_statements; nr
  | |- never_retreats (while_ _ _ _) => apply never_retreats_while; nr
  | |- never_retreats (if ?b then _ else _) => destruct b; nr
  | |- never_retreats (let (_, _) := ?t in _) => destruct t; nr
  | |- never_retreats (match ?f with cr7_compiler => _ | cr7_gui => _ end) =>
      destruct f; nr
  end.

(** A term that begins with a [match], or with a term that consumes a
    token, consumes a token. *)
Ltac adv :=
  match goal with
  | H : advances ?m |- advances ?m => exact H
  | H : forall fuel, advances _ |- advances _ => apply H
  | |- advances (match_ _ _ _) => apply advances_match_
  | |- advances (error _ _ _ _) => apply advances_error
  | |- advances (raise _) => apply advances_raise
  | |- advances advance => apply advances_advance
  | |- advances (if ?b then _ else _) => destruct b; adv
  | |- advances (let (_, _) := ?t in _) => destruct t; adv
  | |- advances (match ?f with cr7_compiler => _ | cr7_gui => _ end) =>
      destruct f; adv
  | |- advances (bind _ _) =>
      first [ apply advances_bind_l; [solve [adv] | intros ?; solve [nr]]
            | apply advances_bind_r; [solve [nr] | intros ?; adv] ]
  end.

Ltac calls file fuel :=
  pose proof (never_retreats_parse_expr file fuel);
  pose proof (never_retreats_parse_condition file fuel);
  pose proof (never_retreats_parse_statement_list file fuel);
  pose proof (never_retreats_parse_param_list fuel);
  pose proof (never_retreats_parse_declaration_in_for file fuel);
  pose proof (never_retreats_parse_assignment_in_for file fuel).

Lemma advances_parse_factor file fuel :
  advances (parse_factor file tokens fuel).
Proof.
  destruct fuel as [|fuel]; [apply advances_raise|].
  calls file fuel. cbn [parse_expr parse_term parse_factor]. adv.
Qed.

Lemma advances_parse_term file fuel :
  advances (parse_term file tokens fuel).
Proof.
  destruct fuel as [|fuel]; [apply advances_raise|].
  pose proof (advances_parse_factor file fuel). calls file fuel.
  cbn [parse_expr parse_term parse_factor]. adv.
Qed.

Lemma advances_parse_expr file fuel :
  advances (parse_expr file tokens fuel).
Proof.
  destruct fuel as [|fuel]; [apply advances_raise|].
  pose proof (advances_parse_term file fuel). calls file fuel.
  cbn [parse_expr parse_term parse_factor]. adv.
Qed.

Lemma advances_parse_meta : advances (parse_meta tokens).
Proof. unfold parse_meta. adv. Qed.

Lemma advances_parse_condition file fuel :
  advances (parse_condition file tokens fuel).
Proof.
  pose proof (advances_parse_expr file fuel).
  unfold parse_condition. adv.
Qed.

Lemma advances_parse_declaration file fuel :
  advances (parse_declaration file tokens fuel).
Proof. calls file fuel. unfold parse_declaration. adv. Qed.

Lemma advances_parse_assignment file fuel :
  advances (parse_assignment file tokens fuel).
Proof. calls file fuel. unfold parse_assignment. adv. Qed.

Lemma advances_parse_declaration_in_for file fuel :
  advances (parse_declaration_in_for file tokens fuel).
Proof. calls file fuel. unfold parse_declaration_in_for. adv. Qed.

Lemma advances_parse_assignment_in_for file fuel :
  advances (parse_assignment_in_for file tokens fuel).
Proof. calls file fuel. unfold parse_assignment_in_for. adv. Qed.

Lemma advances_parse_output file fuel :
  advances (parse_output file tokens fuel).
Proof. calls file fuel. unfold parse_output. adv. Qed.

Lemma advances_parse_input : advances (parse_input tokens).
Proof. unfold parse_input. adv. Qed.

Lemma advances_parse_return file fuel :
  advances (parse_return file tokens fuel).
Proof. calls file fuel. unfold parse_return. adv. Qed.

Lemma advances_parse_if file fuel : advances (parse_if file tokens fuel).
Proof.
  destruct fuel as [|fuel]; [apply advances_raise|]. calls file fuel.
  cbn [parse_statement_list parse_statement parse_if parse_while parse_for].
  adv.
Qed.

Lemma advances_parse_while file fuel :
  advances (parse_while file tokens fuel).
Proof.
  destruct fuel as [|fuel]; [apply advances_raise|]. calls file fuel.
  cbn [parse_statement_list parse_statement parse_if parse_while parse_for].
  adv.
Qed.

Lemma advances_parse_for file fuel : advances (parse_for file tokens fuel).
Proof.
  destruct fuel as [|fuel]; [apply advances_raise|]. calls file fuel.
  cbn [parse_statement_list parse_statement parse_if parse_while parse_for].
  adv.
Qed.

Lemma advances_parse_function file fuel :
  advances (parse_function file tokens fuel).
Proof. calls file fuel. unfold parse_function. adv. Qed.

Lemma parse_statement_progress file fuel s s' :
  parse_statement file tokens fuel s = Return tt s' ->
  pos s < pos s' \/ (nth_error tokens (pos s) = Some BENCH /\ s' = s).
Proof.
  destruct fuel as [|fuel]; [discriminate|].
  cbn [parse_statement_list parse_statement parse_if parse_while parse_for].
  unfold bind at 1.
  destruct (current_token tokens s) as [[kind value] s1|] eqn:E;
    [|discriminate].
  apply current_token_pure in E as [-> Ht].
  destruct (kind =? "TYPE_KEYWORD");
    [intros H; left; exact (advances_parse_declaration _ _ _ _ _ H)|].
  destruct (kind =? "ID");
    [intros H; left; exact (advances_parse_assignment _ _ _ _ _ H)|].
  destruct (kind =? "CONTROL_KEYWORD") eqn:Ek.
  - destruct (value =? "referee");
      [intros H; left; exact (advances_parse_if _ _ _ _ _ H)|].
    destruct (value =? "practice");
      [intros H; left; exact (advances_parse_while _ _ _ _ _ H)|].
    destruct (value =? "drill");
      [intros H; left; exact (advances_parse_for _ _ _ _ _ H)|].
    destruct (value =? "bench") eqn:Ev.
    + intros H. right. apply String.eqb_eq in Ek, Ev. subst kind value.
      split; [exact Ht|]. inversion H; reflexivity.
    + intros H; left; exact (advances_error _ _ _ _ _ _ _ H).
  - destruct (kind =? "OUTPUT_KEYWORD");
      [intros H; left; exact (advances_parse_output _ _ _ _ _ H)|].
    destruct (kind =? "INPUT_KEYWORD");
      [intros H; left; exact (advances_parse_input _ _ _ H)|].
    destruct ((kind =? "FUNCTION_KEYWORD") && (value =? "whistle"));
      [intros H; left; exact (advances_parse_return _ _ _ _ _ H)|].
    intros H; left; exact (advances_error _ _ _ _ _ _ _ H).
Qed.

End Progress.

(** A procedure that returns has consumed at least one token, for
    every procedure but the four that can recognize nothing
    ([parse_program], [parse_param_list], [parse_statement_list] and
    [parse_statement]): the cursor after the call is strictly greater than
    the cursor before it. *)
Theorem procedures_consume_a_token file tokens p fuel s s' :
  consuming p = true ->
  call file tokens p fuel s = Return tt s' ->
  pos s < pos s'.
Proof.
  intros Hp H. destruct p; try discriminate Hp; cbn [call] in H;
    revert H;
    first [ apply advances_parse_meta | apply advances_parse_function
          | apply advances_parse_declaration | apply advances_parse_assignment
          | apply advances_parse_if | apply advances_parse_while
          | apply advances_parse_for
          | apply advances_parse_declaration_in_for
          | apply advances_parse_assignment_in_for
          | apply advances_parse_output | apply advances_parse_input
          | apply advances_parse_return | apply advances_parse_condition
          | apply advances_parse_expr | apply advances_parse_term
          | apply advances_parse_factor ].
Qed.

Lemma procedures_consume_a_token_witness :
  pos CR7Parser < pos (mkState 3 ["→ Input parsed"]).
Proof.
  apply (procedures_consume_a_token cr7_compiler
           [("INPUT_KEYWORD", "receive"); ("ID", "x"); ("END", ";")]
           Parse_input 0 CR7Parser).
  - reflexivity.
  - reflexivity.
Defined.

(** A statement that returns without consuming a token was a bare
    [bench]: [parse_statement] either moves the cursor forward or stands on
    the token [bench] and leaves the whole state as it was. *)
Theorem only_a_bare_bench_consumes_nothing file tokens fuel s s' :
  parse_statement file tokens fuel s = Return tt s' ->
  pos s < pos s' \/ (nth_error tokens (pos s) = Some BENCH /\ s' = s).
Proof. apply parse_statement_progress. Qed.

Lemma only_a_bare_bench_consumes_nothing_witness :
  pos CR7Parser < pos CR7Parser
  \/ (nth_error [BENCH; ("EOF", "")] (pos CR7Parser) = Some BENCH
      /\ CR7Parser = CR7Parser).
Proof.
  apply (only_a_bare_bench_consumes_nothing cr7_gui [BENCH; ("EOF", "")] 1).
  reflexivity.
Defined.

End RecognizerProgress.

(** * The two recognizers *)

Module TwoRecognizers.
Import Recognizer.
Import Spec.
Import Lexicon.
Import Runs.
Import RecognizerFacts.
Import RecognizerRuns.
Import RecognizerProgress.

Section Simulation.

Variable tokens : list token.
































End Simulation.



End TwoRecognizers.

(** * The recognizer under the limit: what every run does *)

Module FramesFacts.
Import Recognizer.
Import Spec.
Import Runs.
Import Frames.
Import FrameRuns.

Lemma fr_bind_Return A B (m : M A) (k : A -> M B) s a s' :
  m s = Return a s' -> bind m k s = k a s'.
Proof. unfold bind. now intros ->. Qed.

Lemma fr_bind_Raise A B (m : M A) (k : A -> M B) s e s' :
  m s = Raise e s' -> bind m k s = Raise e s'.
Proof. unfold bind. now intros ->. Qed.

(** The procedures a procedure with [d] frames left can call. *)
Ltac callees IH :=
  pose proof (IH Parse_meta); pose proof (IH Parse_function);
  pose proof (IH Parse_param_list); pose proof (IH Parse_statement_list);
  pose proof (IH Parse_statement); pose proof (IH Parse_declaration);
  pose proof (IH Parse_assignment); pose proof (IH Parse_if);
  pose proof (IH Parse_while); pose proof (IH Parse_for);
  pose proof (IH Parse_declaration_in_for);
  pose proof (IH Parse_assignment_in_for); pose proof (IH Parse_output);
  pose proof (IH Parse_input); pose proof (IH Parse_return);
  pose proof (IH Parse_condition); pose proof (IH Parse_expr);
  pose proof (IH Parse_term); pose proof (IH Parse_factor);
  clear IH; cbn [call] in *.

Ltac body_of p :=
  destruct p; cbn [call];
  unfold parse_program, parse_meta, parse_function, parse_param_list,
    parse_declaration, parse_assignment, parse_declaration_in_for,
    parse_assignment_in_for, parse_output, parse_input, parse_return,
    parse_condition;
  cbn [parse_expr parse_term parse_factor parse_statement_list
       parse_statement parse_if parse_while parse_for].

(** ** Relations all procedures respect *)

Section FrameRelations.

Variable tokens : list token.
Variables external fuel : nat.
Variable R : run_relation.

Hypothesis R_ret : forall s, R s None s.
Hypothesis R_seq : forall s s1 o s2, R s None s1 -> R s1 o s2 -> R s o s2.
Hypothesis R_fuel : forall s, R s (Some OutOfFuel) s.
Hypothesis R_recursion : forall s, R s (Some RecursionError) s.
Hypothesis R_index :
  forall s, nth_error tokens (pos s) = None -> R s (Some IndexError) s.
Hypothesis R_advance :
  forall s t, nth_error tokens (pos s) = Some t -> fst t <> "EOF" ->
              R s None (mkState (pos s + 1) (out s)).
Hypothesis R_log :
  forall s msg, is_diagnostic msg = false ->
                R s None (mkState (pos s) (out s ++ [msg])).
Hypothesis R_error :
  forall s msg t, nth_error tokens (pos s) = Some t ->
    R s (Some SystemExit) (mkState (pos s) (out s ++ [diagnostic msg t])).

Lemma fr_respects_at_ret A (a : A) s : respects_at R (ret a) s.
Proof. apply R_ret. Qed.

Lemma fr_respects_at_recursion A s :
  respects_at R (@raise A RecursionError) s.
Proof. apply R_recursion. Qed.

Lemma fr_respects_at_bind A B (m : M A) (k : A -> M B) s :
  respects_at R m s ->
  (forall a s1, m s = Return a s1 -> respects_at R (k a) s1) ->
  respects_at R (bind m k) s.
Proof.
  unfold respects_at, bind. intros Hm Hk.
  destruct (m s) as [a s1 | e s1] eqn:E; [|exact Hm].
  simpl in Hm. eapply R_seq; [exact Hm | now apply Hk].
Qed.

Lemma fr_respects_at_current_token d s :
  respects_at R (current_token tokens d) s.
Proof.
  destruct d; [apply R_recursion|].
  unfold respects_at, current_token.
  destruct (nth_error tokens (pos s)) eqn:E; simpl; auto.
Qed.

Lemma fr_current_token_pure (toks : list token) d s t s1 :
  current_token toks d s = Return t s1 ->
  s1 = s /\ nth_error toks (pos s) = Some t.
Proof.
  destruct d; [discriminate|]. unfold current_token.
  destruct (nth_error toks (pos s)); intros H; inversion H; subst; auto.
Qed.

(** After [current_token] the state is the same and the token is known. *)
Lemma fr_respects_at_bind_current B d (k : token -> M B) s :
  (forall t, nth_error tokens (pos s) = Some t -> respects_at R (k t) s) ->
  respects_at R (bind (current_token tokens d) k) s.
Proof.
  intros Hk. apply fr_respects_at_bind; [apply fr_respects_at_current_token|].
  intros t s1 H. apply fr_current_token_pure in H as [-> H]. now apply Hk.
Qed.

Lemma fr_respects_at_foreign A d (m : M A) s :
  respects_at R m s -> respects_at R (foreign external d m) s.
Proof.
  intros H. unfold foreign. destruct (d <? external)%nat;
    [apply R_recursion | exact H].
Qed.

Lemma fr_respects_at_log file d msg s :
  is_diagnostic msg = false -> respects_at R (log file external d msg) s.
Proof.
  intros H. unfold log. destruct file.
  - apply fr_respects_at_foreign. now apply R_log.
  - destruct d; [apply R_recursion|].
    apply fr_respects_at_foreign. now apply R_log.
Qed.

Lemma fr_raised_diagnostic A file d msg t s :
  nth_error tokens (pos s) = Some t ->
  respects_at R
    (log file external d (diagnostic msg t) ;; @raise A SystemExit) s.
Proof.
  intros Ht. unfold respects_at, bind, log, foreign.
  destruct file.
  - destruct (d <? external)%nat; [apply R_recursion|].
    exact (R_error s msg t Ht).
  - destruct d; [apply R_recursion|].
    destruct (d <? external)%nat; [apply R_recursion|].
    exact (R_error s msg t Ht).
Qed.

Lemma fr_respects_at_error_here A file d msg kind value s :
  nth_error tokens (pos s) = Some (kind, value) ->
  respects_at R
    (@error file tokens external A d msg (Some kind) (Some value)) s.
Proof.
  intros H. destruct d; [apply R_recursion|].
  exact (fr_raised_diagnostic A file d msg (kind, value) s H).
Qed.

Lemma fr_respects_at_error A file d msg s :
  respects_at R (@error file tokens external A d msg None None) s.
Proof.
  destruct d; [apply R_recursion|]. unfold error.
  apply fr_respects_at_bind_current. intros t Ht.
  exact (fr_raised_diagnostic A file d msg t s Ht).
Qed.

Lemma fr_respects_at_match_ file d expected_type expected_value s :
  expected_type <> "EOF" ->
  respects_at R (match_ file tokens external d expected_type expected_value) s.
Proof.
  intros Hne. destruct d; [apply R_recursion|].
  unfold match_. apply fr_respects_at_bind_current. intros [kind value] Ht.
  destruct (kind =? expected_type) eqn:Ek; cbn [andb].
  - apply String.eqb_eq in Ek. subst kind.
    destruct (match expected_value with
              | Some v => value =? v
              | None => true
              end).
    + unfold respects_at, bind, advance. simpl.
      now apply R_advance with (t := (expected_type, value)).
    + now apply fr_respects_at_error_here.
  - now apply fr_respects_at_error_here.
Qed.

Lemma fr_respects_at_advance s t :
  nth_error tokens (pos s) = Some t -> fst t <> "EOF" ->
  respects_at R advance s.
Proof. intros H Hne. exact (R_advance s t H Hne). Qed.

Lemma fr_respects_at_lookahead d n s :
  respects_at R (lookahead tokens d n) s.
Proof.
  destruct d; [apply R_recursion|].
  unfold respects_at, lookahead.
  destruct (pos s + n <? List.length tokens)%nat; apply R_ret.
Qed.

Lemma fr_respects_while cond body :
  respects R cond -> respects R body ->
  forall n, respects R (while_ n cond body).
Proof.
  intros Hc Hb. induction n as [|n IH]; intros s; simpl.
  - apply R_fuel.
  - apply fr_respects_at_bind; [apply Hc|]. intros [|] s1 _; [|apply R_ret].
    apply fr_respects_at_bind; [apply Hb | intros _ s2 _; apply IH].
Qed.

(** The kind a [match] asks for is never [EOF]. *)
Ltac not_EOF :=
  first [ discriminate
        | let E := fresh "E" in
          intros E;
          match goal with
          | H : in_ _ _ = true |- _ =>
              rewrite E in H; vm_compute in H; discriminate H
          end ].

Ltac fr_step :=
  match goal with
  | H : respects _ ?m |- respects_at _ ?m _ => apply H
  | |- respects _ _ => intros ?
  | |- respects_at _ (bind (current_token _ _) _) _ =>
      apply fr_respects_at_bind_current; intros ? ?
  | |- respects_at _ (bind _ _) _ =>
      apply fr_respects_at_bind; [|intros ? ? _]
  | |- respects_at _ (ret _) _ => apply fr_respects_at_ret
  | |- respects_at _ (raise RecursionError) _ => apply fr_respects_at_recursion
  | |- respects_at _ (log _ _ _ _) _ => apply fr_respects_at_log; reflexivity
  | |- respects_at _ (foreign _ _ _) _ => apply fr_respects_at_foreign
  | |- respects_at _ (error _ _ _ _ _ None None) _ =>
      apply fr_respects_at_error
  | |- respects_at _ (error _ _ _ _ _ (Some _) (Some _)) _ =>
      apply fr_respects_at_error_here; assumption
  | |- respects_at _ (match_ _ _ _ _ _ _) _ =>
      apply fr_respects_at_match_; not_EOF
  | |- respects_at _ (current_token _ _) _ =>
      apply fr_respects_at_current_token
  | |- respects_at _ (lookahead _ _ _) _ => apply fr_respects_at_lookahead
  | |- respects_at _ advance _ =>
      eapply fr_respects_at_advance; [eassumption | not_EOF]
  | |- respects_at _ (kind_is _ _ _) _ => unfold kind_is
  | |- respects_at _ (more_statements _ _) _ => unfold more_statements
  | |- respects_at _ (while_ _ _ _) _ => apply fr_respects_while
  | |- respects_at _ (if ?b then _ else _) _ => destruct b eqn:?
  | |- respects_at _ (let (_, _) := ?t in _) _ => destruct t
  | |- respects_at _ (match ?f with cr7_compiler => _ | cr7_gui => _ end) _ =>
      destruct f
  end.

(** Every grammar procedure respects the relation, whatever the frames
    left. *)
Lemma fr_respects_call file : forall d p,
  respects R (call file tokens external fuel p d).
Proof.
  induction d as [|d IH]; intros p.
  - destruct p; intros s; apply R_recursion.
  - callees IH. body_of p; repeat fr_step.
Qed.

(** What [parse_program] does after its first line. *)
Lemma fr_respects_program_tail file d :
  respects R
    (while_ fuel
       (t <- current_token tokens d ;; ret (negb (fst t =? "EOF")))
       (t <- current_token tokens d ;;
        let (kind, value) := t in
        if kind =? "META_KEYWORD" then parse_meta file tokens external d
        else if kind =? "FUNCTION_KEYWORD"
             then parse_function file tokens external fuel d
        else error file tokens external d
               ("Unexpected statement start: " ++ value) None None)).
Proof.
  pose proof (fr_respects_call file d Parse_meta).
  pose proof (fr_respects_call file d Parse_function).
  cbn [call] in *. repeat fr_step.
Qed.

End FrameRelations.

(** ** The cursor, the lines written and the bounds *)

Section FrameInstances.

Variable tokens : list token.
Variables external fuel : nat.

Lemma fr_forward_call file d p :
  respects forward (call file tokens external fuel p d).
Proof.
  apply fr_respects_call; unfold forward; intros; cbn [pos]; lia.
Qed.

Lemma fr_written_ret s : written tokens s None s.
Proof. exists []. split; [now rewrite app_nil_r | constructor]. Qed.

Lemma fr_written_seq s s1 o s2 :
  written tokens s None s1 -> written tokens s1 o s2 -> written tokens s o s2.
Proof.
  intros (l1 & H1 & F1) (l2 & H2 & F2). exists (l1 ++ l2)%list.
  split; [now rewrite H2, H1, app_assoc|].
  destruct o as [[| | |]|]; try (apply Forall_app; now split).
  destruct F2 as (before & msg & t & -> & Fb & Ht).
  exists (l1 ++ before)%list, msg, t.
  split; [now rewrite app_assoc|]. split; [|exact Ht].
  apply Forall_app. now split.
Qed.

Lemma fr_written_stay o s :
  o <> Some SystemExit -> written tokens s o s.
Proof.
  intros Ho. exists []. split; [now rewrite app_nil_r|].
  destruct o as [[| | |]|]; try constructor. now contradiction Ho.
Qed.

Lemma fr_written_log s msg :
  is_diagnostic msg = false ->
  written tokens s None (mkState (pos s) (out s ++ [msg])).
Proof.
  intros Hmsg. exists [msg]. simpl. split; [reflexivity|].
  constructor; [exact Hmsg | constructor].
Qed.

Lemma fr_written_error s msg t :
  nth_error tokens (pos s) = Some t ->
  written tokens s (Some SystemExit)
    (mkState (pos s) (out s ++ [diagnostic msg t])).
Proof.
  intros Ht. exists [diagnostic msg t]. simpl.
  split; [reflexivity|]. exists [], msg, t. repeat split; auto.
Qed.

Lemma fr_written_advance s :
  written tokens s None (mkState (pos s + 1) (out s)).
Proof. exists []. simpl. split; [now rewrite app_nil_r | constructor]. Qed.

Lemma fr_written_call file d p :
  respects (written tokens) (call file tokens external fuel p d).
Proof.
  apply fr_respects_call.
  - apply fr_written_ret.
  - apply fr_written_seq.
  - intros s. apply fr_written_stay. discriminate.
  - intros s. apply fr_written_stay. discriminate.
  - intros s _. apply fr_written_stay. discriminate.
  - intros s t _ _. apply fr_written_advance.
  - apply fr_written_log.
  - apply fr_written_error.
Qed.

Lemma fr_written_program_tail file d :
  respects (written tokens)
    (while_ fuel
       (t <- current_token tokens d ;; ret (negb (fst t =? "EOF")))
       (t <- current_token tokens d ;;
        let (kind, value) := t in
        if kind =? "META_KEYWORD" then parse_meta file tokens external d
        else if kind =? "FUNCTION_KEYWORD"
             then parse_function file tokens external fuel d
        else error file tokens external d
               ("Unexpected statement start: " ++ value) None None)).
Proof.
  apply fr_respects_program_tail.
  - apply fr_written_ret.
  - apply fr_written_seq.
  - intros s. apply fr_written_stay. discriminate.
  - intros s. apply fr_written_stay. discriminate.
  - intros s _. apply fr_written_stay. discriminate.
  - intros s t _ _. apply fr_written_advance.
  - apply fr_written_log.
  - apply fr_written_error.
Qed.

Lemma fr_in_bounds_call file d p :
  ends_in_EOF tokens ->
  respects (in_bounds tokens) (call file tokens external fuel p d).
Proof.
  intros Hend. apply fr_respects_call; unfold in_bounds.
  - intros s H. split; [exact H | discriminate].
  - intros s s1 o s2 H1 H2 H. apply H2, H1, H.
  - intros s H. split; [exact H | discriminate].
  - intros s H. split; [exact H | discriminate].
  - intros s Hn H. apply nth_error_None in Hn. lia.
  - intros s [kind value] Ht Hne _. split; [|discriminate]. cbn [pos].
    exact (RecognizerFacts.EOF_is_last tokens (pos s) kind value Hend Ht Hne).
  - intros s msg _ H. split; [exact H | discriminate].
  - intros s msg t _ H. split; [exact H | discriminate].
Qed.

Lemma fr_never_retreats_call file d p :
  never_retreats (call file tokens external fuel p d).
Proof.
  intros s a s' H. pose proof (fr_forward_call file d p s) as Hf.
  unfold respects_at, forward in Hf. rewrite H in Hf. exact Hf.
Qed.

End FrameInstances.

(** ** Progress *)

Section FrameProgress.

Variable tokens : list token.
Variables external : nat.

Lemma fr_never_retreats_ret A (a : A) : never_retreats (ret a).
Proof. intros s a' s' H. inversion H; subst. apply Nat.le_refl. Qed.

Lemma fr_never_retreats_bind A B (m : M A) (k : A -> M B) :
  never_retreats m -> (forall a, never_retreats (k a)) ->
  never_retreats (bind m k).
Proof.
  intros Hm Hk s b s' H. unfold bind in H.
  destruct (m s) as [a s1 | e s1] eqn:E; [|discriminate].
  apply Hm in E. apply Hk in H. lia.
Qed.

Lemma fr_advances_never_retreats A (m : M A) :
  advances m -> never_retreats m.
Proof. intros H s a s' Hr. apply H in Hr. lia. Qed.

Lemma fr_advances_bind_l A B (m : M A) (k : A -> M B) :
  advances m -> (forall a, never_retreats (k a)) -> advances (bind m k).
Proof.
  intros Hm Hk s b s' H. unfold bind in H.
  destruct (m s) as [a s1 | e s1] eqn:E; [|discriminate].
  apply Hm in E. apply Hk in H. lia.
Qed.

Lemma fr_advances_bind_r A B (m : M A) (k : A -> M B) :
  never_retreats m -> (forall a, advances (k a)) -> advances (bind m k).
Proof.
  intros Hm Hk s b s' H. unfold bind in H.
  destruct (m s) as [a s1 | e s1] eqn:E; [|discriminate].
  apply Hm in E. apply Hk in H. lia.
Qed.

Lemma fr_advances_raise A e : advances (@raise A e).
Proof. intros s a s' H. discriminate. Qed.

Lemma fr_log_pure file d msg s a s' :
  log file external d msg s = Return a s' -> pos s' = pos s.
Proof.
  unfold log, foreign. destruct file.
  - destruct (d <? external)%nat; intros H; inversion H; reflexivity.
  - destruct d; [discriminate|].
    destruct (d <? external)%nat; intros H; inversion H; reflexivity.
Qed.

Lemma fr_error_never_returns A file d msg k v s a s' :
  @error file tokens external A d msg k v s <> Return a s'.
Proof.
  destruct d; [discriminate|]. unfold error, bind.
  destruct (match k, v with
            | Some k0, Some v0 => ret (k0, v0)
            | _, _ => current_token tokens d
            end s) as [t s1|]; [|discriminate].
  destruct (log file external d _ s1); discriminate.
Qed.

Lemma fr_advances_error A file d msg k v :
  advances (@error file tokens external A d msg k v).
Proof. intros s a s' H. now apply fr_error_never_returns in H. Qed.

Lemma fr_advances_match_ file d expected_type expected_value :
  advances (match_ file tokens external d expected_type expected_value).
Proof.
  intros s a s' H. destruct d; [discriminate|].
  unfold match_ in H. unfold bind at 1 in H.
  destruct (current_token tokens d s) as [[kind value] s1|] eqn:E;
    [|discriminate].
  apply fr_current_token_pure in E as [-> _].
  destruct (_ && _).
  - inversion H; subst. cbn [pos]. lia.
  - now apply fr_error_never_returns in H.
Qed.

Lemma fr_never_retreats_current_token d :
  never_retreats (current_token tokens d).
Proof.
  intros s a s' H. apply fr_current_token_pure in H as [-> _].
  apply Nat.le_refl.
Qed.

Lemma fr_never_retreats_lookahead d n : never_retreats (lookahead tokens d n).
Proof.
  intros s a s' H. destruct d; [discriminate|]. unfold lookahead in H.
  destruct (pos s + n <? List.length tokens)%nat; inversion H; subst;
    apply Nat.le_refl.
Qed.

Lemma fr_never_retreats_log file d msg :
  never_retreats (log file external d msg).
Proof. intros s a s' H. apply fr_log_pure in H. lia. Qed.

Lemma fr_never_retreats_foreign A d (m : M A) :
  never_retreats m -> never_retreats (foreign external d m).
Proof.
  intros Hm. unfold foreign. destruct (d <? external)%nat; [|exact Hm].
  intros s a s' H. discriminate.
Qed.

Lemma fr_advances_advance : advances advance.
Proof. intros s a s' H. inversion H; subst. simpl. lia. Qed.

Lemma fr_never_retreats_while cond body :
  never_retreats cond -> never_retreats body ->
  forall n, never_retreats (while_ n cond body).
Proof.
  intros Hc Hb. induction n as [|n IH]; simpl.
  - intros s a s' H. discriminate.
  - apply fr_never_retreats_bind; [exact Hc|]. intros [|].
    + apply fr_never_retreats_bind; [exact Hb | intros _; exact IH].
    + apply fr_never_retreats_ret.
Qed.

(** A term made of the procedures and the primitives does not move the
    cursor backward. *)
Ltac fr_nr :=
  match goal with
  | H : never_retreats ?m |- never_retreats ?m => exact H
  | H : advances ?m |- never_retreats ?m =>
      apply fr_advances_never_retreats; exact H
  | |- never_retreats (bind _ _) =>
      apply fr_never_retreats_bind; [fr_nr | intros ?; fr_nr]
  | |- never_retreats (ret _) => apply fr_never_retreats_ret
  | |- never_retreats (log _ _ _ _) => apply fr_never_retreats_log
  | |- never_retreats (foreign _ _ _) =>
      apply fr_never_retreats_foreign; fr_nr
  | |- never_retreats (current_token _ _) =>
      apply fr_never_retreats_current_token
  | |- never_retreats (lookahead _ _ _) => apply fr_never_retreats_lookahead
  | |- never_retreats (match_ _ _ _ _ _ _) =>
      apply fr_advances_never_retreats, fr_advances_match_
  | |- never_retreats (error _ _ _ _ _ _ _) =>
      apply fr_advances_never_retreats, fr_advances_error
  | |- never_retreats (raise _) =>
      apply fr_advances_never_retreats, fr_advances_raise
  | |- never_retreats advance =>
      apply fr_advances_never_retreats, fr_advances_advance
  | |- never_retreats (kind_is _ _ _) => unfold kind_is; fr_nr
  | |- never_retreats (more_statements _ _) => unfold more_statements; fr_nr
  | |- never_retreats (while_ _ _ _) => apply fr_never_retreats_while; fr_nr
  | |- never_retreats (if ?b then _ else _) => destruct b; fr_nr
  | |- never_retreats (let (_, _) := ?t in _) => destruct t; fr_nr
  | |- never_retreats (match ?f with cr7_compiler => _ | cr7_gui => _ end) =>
      destruct f; fr_nr
  end.

(** A term that begins with a [match], or with a term that consumes a
    token, consumes a token. *)
Ltac fr_adv :=
  match goal with
  | H : advances ?m |- advances ?m => exact H
  | |- advances (match_ _ _ _ _ _ _) => apply fr_advances_match_
  | |- advances (error _ _ _ _ _ _ _) => apply fr_advances_error
  | |- advances (raise _) => apply fr_advances_raise
  | |- advances advance => apply fr_advances_advance
  | |- advances (if ?b then _ else _) => destruct b; fr_adv
  | |- advances (let (_, _) := ?t in _) => destruct t; fr_adv
  | |- advances (match ?f with cr7_compiler => _ | cr7_gui => _ end) =>
      destruct f; fr_adv
  | |- advances (bind _ _) =>
      first [ apply fr_advances_bind_l; [solve [fr_adv] | intros ?; solve [fr_nr]]
            | apply fr_advances_bind_r; [solve [fr_nr] | intros ?; fr_adv] ]
  end.

(** What the procedures called with [d] frames left do to the cursor. *)
Ltac cursor_of_callees file fuel d :=
  pose proof (fr_never_retreats_call tokens external fuel file d Parse_meta);
  pose proof (fr_never_retreats_call tokens external fuel file d
                Parse_function);
  pose proof (fr_never_retreats_call tokens external fuel file d
                Parse_param_list);
  pose proof (fr_never_retreats_call tokens external fuel file d
                Parse_statement_list);
  pose proof (fr_never_retreats_call tokens external fuel file d
                Parse_statement);
  pose proof (fr_never_retreats_call tokens external fuel file d
                Parse_declaration);
  pose proof (fr_never_retreats_call tokens external fuel file d
                Parse_assignment);
  pose proof (fr_never_retreats_call tokens external fuel file d Parse_if);
  pose proof (fr_never_retreats_call tokens external fuel file d Parse_while);
  pose proof (fr_never_retreats_call tokens external fuel file d Parse_for);
  pose proof (fr_never_retreats_call tokens external fuel file d
                Parse_declaration_in_for);
  pose proof (fr_never_retreats_call tokens external fuel file d
                Parse_assignment_in_for);
  pose proof (fr_never_retreats_call tokens external fuel file d Parse_output);
  pose proof (fr_never_retreats_call tokens external fuel file d Parse_input);
  pose proof (fr_never_retreats_call tokens external fuel file d Parse_return);
  pose proof (fr_never_retreats_call tokens external fuel file d
                Parse_condition);
  pose proof (fr_never_retreats_call tokens external fuel file d Parse_expr);
  pose proof (fr_never_retreats_call tokens external fuel file d Parse_term);
  pose proof (fr_never_retreats_call tokens external fuel file d Parse_factor);
  cbn [call] in *.

(** Whenever it returns, a procedure other than the four that can recognize
    nothing has consumed a token. *)
Lemma fr_advances_call file fuel : forall d p,
  consuming p = true -> advances (call file tokens external fuel p d).
Proof.
  induction d as [|d IH]; intros p Hp.
  - destruct p; intros s a s' H; discriminate H.
  - pose proof (IH Parse_expr eq_refl) as He.
    pose proof (IH Parse_term eq_refl) as Ht.
    pose proof (IH Parse_factor eq_refl) as Hf.
    clear IH. cursor_of_callees file fuel d.
    destruct p; try discriminate Hp; clear Hp; cbn [call];
      unfold parse_meta, parse_function, parse_declaration, parse_assignment,
        parse_declaration_in_for, parse_assignment_in_for, parse_output,
        parse_input, parse_return, parse_condition;
      cbn [parse_expr parse_term parse_factor parse_statement_list
           parse_statement parse_if parse_while parse_for];
      fr_adv.
Qed.

(** [parse_statement] returns without consuming a token only at a bare
    [bench]. *)
Lemma fr_parse_statement_progress file fuel d s s' :
  parse_statement file tokens external fuel d s = Return tt s' ->
  pos s < pos s' \/ (nth_error tokens (pos s) = Some BENCH /\ s' = s).
Proof.
  destruct d as [|d]; [discriminate|].
  pose proof (fun p H => fr_advances_call file fuel d p H) as Hadv.
  cbn [parse_statement_list parse_statement parse_if parse_while parse_for].
  unfold bind at 1.
  destruct (current_token tokens d s) as [[kind value] s1|] eqn:E;
    [|discriminate].
  apply fr_current_token_pure in E as [-> Ht].
  destruct (kind =? "TYPE_KEYWORD");
    [intros H; left; exact (Hadv Parse_declaration eq_refl _ _ _ H)|].
  destruct (kind =? "ID");
    [intros H; left; exact (Hadv Parse_assignment eq_refl _ _ _ H)|].
  destruct (kind =? "CONTROL_KEYWORD") eqn:Ek.
  - destruct (value =? "referee");
      [intros H; left; exact (Hadv Parse_if eq_refl _ _ _ H)|].
    destruct (value =? "practice");
      [intros H; left; exact (Hadv Parse_while eq_refl _ _ _ H)|].
    destruct (value =? "drill");
      [intros H; left; exact (Hadv Parse_for eq_refl _ _ _ H)|].
    destruct (value =? "bench") eqn:Ev.
    + intros H. right. apply String.eqb_eq in Ek, Ev. subst kind value.
      split; [exact Ht|]. inversion H; reflexivity.
    + intros H. now apply fr_error_never_returns in H.
  - destruct (kind =? "OUTPUT_KEYWORD");
      [intros H; left; exact (Hadv Parse_output eq_refl _ _ _ H)|].
    destruct (kind =? "INPUT_KEYWORD");
      [intros H; left; exact (Hadv Parse_input eq_refl _ _ _ H)|].
    destruct ((kind =? "FUNCTION_KEYWORD") && (value =? "whistle"));
      [intros H; left; exact (Hadv Parse_return eq_refl _ _ _ H)|].
    intros H. now apply fr_error_never_returns in H.
Qed.

Lemma fr_advances_parse_statement file fuel d :
  ~ In BENCH tokens ->
  advances (parse_statement file tokens external fuel d).
Proof.
  intros Hb s [] s' H.
  destruct (fr_parse_statement_progress file fuel d s s' H)
    as [Hlt | [Hn _]]; [exact Hlt|].
  exfalso. apply Hb. eapply nth_error_In, Hn.
Qed.

(** ** The bound on the loops *)

(** [m] does not end for want of fuel. *)
Lemma fr_agree_same A fuel1 fuel2 (m : M A) :
  (forall s, outcome (m s) <> Some OutOfFuel) ->
  agree tokens fuel1 fuel2 m m.
Proof. intros H s _ _. split; [reflexivity | apply H]. Qed.

Lemma fr_quiet_bind A B (m : M A) (k : A -> M B) :
  (forall s, outcome (m s) <> Some OutOfFuel) ->
  (forall a s, outcome (k a s) <> Some OutOfFuel) ->
  forall s, outcome (bind m k s) <> Some OutOfFuel.
Proof.
  intros Hm Hk s. unfold bind. specialize (Hm s).
  destruct (m s); [apply Hk | exact Hm].
Qed.

Lemma fr_quiet_current_token d s :
  outcome (current_token tokens d s) <> Some OutOfFuel.
Proof.
  destruct d; [discriminate|]. unfold current_token.
  destruct (nth_error tokens (pos s)); discriminate.
Qed.

Lemma fr_quiet_lookahead d n s :
  outcome (lookahead tokens d n s) <> Some OutOfFuel.
Proof.
  destruct d; [discriminate|]. unfold lookahead.
  destruct (_ <? _)%nat; discriminate.
Qed.

Lemma fr_quiet_log file d msg s :
  outcome (log file external d msg s) <> Some OutOfFuel.
Proof.
  unfold log, foreign. destruct file.
  - destruct (d <? external)%nat; discriminate.
  - destruct d; [discriminate|]. destruct (d <? external)%nat; discriminate.
Qed.

Lemma fr_quiet_error A file d msg k v s :
  outcome (@error file tokens external A d msg k v s) <> Some OutOfFuel.
Proof.
  destruct d; [discriminate|]. unfold error.
  apply fr_quiet_bind.
  - intros s0. destruct k, v; try apply fr_quiet_current_token; discriminate.
  - intros a s0. apply fr_quiet_bind; [apply fr_quiet_log | discriminate].
Qed.

Lemma fr_quiet_match_ file d expected_type expected_value s :
  outcome (match_ file tokens external d expected_type expected_value s)
  <> Some OutOfFuel.
Proof.
  destruct d; [discriminate|]. unfold match_.
  apply fr_quiet_bind; [apply fr_quiet_current_token|].
  intros [kind value] s0. destruct (_ && _); [discriminate|].
  apply fr_quiet_error.
Qed.

Section FrameBound.

Variables fuel1 fuel2 : nat.

Lemma fr_agree_bind A B (m1 m2 : M A) (k1 k2 : A -> M B) :
  agree tokens fuel1 fuel2 m1 m2 -> never_retreats m1 ->
  (forall a, agree tokens fuel1 fuel2 (k1 a) (k2 a)) ->
  agree tokens fuel1 fuel2 (bind m1 k1) (bind m2 k2).
Proof.
  intros Hm Hnr Hk s H1 H2. destruct (Hm s H1 H2) as [Heq Hq].
  unfold bind. rewrite <- Heq.
  destruct (m1 s) as [a s1 | e s1] eqn:E; [|split; [reflexivity | exact Hq]].
  apply Hnr in E. apply Hk; unfold tokens_left in *; lia.
Qed.

Lemma fr_agree_while (g : token -> bool) d body1 body2 :
  agree tokens fuel1 fuel2 body1 body2 -> advances body1 ->
  agree tokens fuel1 fuel2
    (while_ fuel1 (t <- current_token tokens d ;; ret (g t)) body1)
    (while_ fuel2 (t <- current_token tokens d ;; ret (g t)) body2).
Proof.
  intros Hb Hadv.
  assert (H : forall n1 n2 s,
            tokens_left tokens s < n1 -> tokens_left tokens s < n2 ->
            tokens_left tokens s < fuel1 -> tokens_left tokens s < fuel2 ->
            while_ n1 (t <- current_token tokens d ;; ret (g t)) body1 s
            = while_ n2 (t <- current_token tokens d ;; ret (g t)) body2 s
            /\ outcome
                 (while_ n1 (t <- current_token tokens d ;; ret (g t)) body1 s)
               <> Some OutOfFuel).
  { set (cond := t <- current_token tokens d ;; ret (g t)).
    induction n1 as [|n1 IH]; intros [|n2] s Hn1 Hn2 Hf1 Hf2; try lia.
    cbn [while_].
    destruct (cond s) as [b s1|e s1] eqn:Ec.
    - assert (Hs1 : s1 = s /\ (b = true -> pos s < List.length tokens)).
      { unfold cond, bind in Ec.
        destruct (current_token tokens d s) as [t s2|] eqn:E;
          [|discriminate].
        apply fr_current_token_pure in E as [-> Ht]. inversion Ec; subst.
        split; [reflexivity|]. intros _. apply nth_error_Some.
        rewrite Ht. discriminate. }
      destruct Hs1 as [-> Hlt].
      rewrite !(fr_bind_Return _ _ _ _ _ _ _ Ec).
      destruct b; [|split; [reflexivity | discriminate]].
      specialize (Hlt eq_refl).
      destruct (Hb s Hf1 Hf2) as [Heq Hq]. unfold bind. rewrite <- Heq.
      destruct (body1 s) as [[] s2|e s2] eqn:Eb;
        [|split; [reflexivity | exact Hq]].
      apply Hadv in Eb.
      apply IH; unfold tokens_left in *; lia.
    - rewrite !(fr_bind_Raise _ _ _ _ _ _ _ Ec). split; [reflexivity|].
      unfold cond, bind in Ec.
      pose proof (fr_quiet_current_token d s) as Hq.
      destruct (current_token tokens d s) as [t s2|e2 s2];
        inversion Ec; subst. exact Hq. }
  intros s H1 H2. apply H; assumption.
Qed.

Ltac fr_quiet :=
  match goal with
  | |- forall _, _ => intros ?; fr_quiet
  | |- outcome (bind _ _ _) <> _ => apply fr_quiet_bind; fr_quiet
  | |- outcome (current_token _ _ _) <> _ => apply fr_quiet_current_token
  | |- outcome (lookahead _ _ _ _) <> _ => apply fr_quiet_lookahead
  | |- outcome (log _ _ _ _ _) <> _ => apply fr_quiet_log
  | |- outcome (error _ _ _ _ _ _ _ _) <> _ => apply fr_quiet_error
  | |- outcome (match_ _ _ _ _ _ _ _) <> _ => apply fr_quiet_match_
  | |- outcome (foreign _ _ _ _) <> _ =>
      unfold foreign; destruct (_ <? _)%nat; fr_quiet
  | |- outcome ((if ?b then _ else _) _) <> _ => destruct b; fr_quiet
  | |- outcome ((let (_, _) := ?t in _) _) <> _ => destruct t; fr_quiet
  | |- _ => discriminate
  end.

Ltac fr_ag :=
  match goal with
  | H : agree _ _ _ ?a ?b |- agree _ _ _ ?a ?b => exact H
  | |- agree _ _ _ (bind _ _) (bind _ _) =>
      apply fr_agree_bind; [fr_ag | solve [fr_nr] | intros ?; fr_ag]
  | |- agree _ _ _ (if ?b then _ else _) (if ?b then _ else _) =>
      destruct b; fr_ag
  | |- agree _ _ _ (let (_, _) := ?t in _) (let (_, _) := ?t in _) =>
      destruct t; fr_ag
  | |- agree _ _ _ (match ?f with cr7_compiler => _ | cr7_gui => _ end) _ =>
      destruct f; fr_ag
  | |- agree _ _ _ (while_ _ (kind_is _ _ _) _) _ => unfold kind_is; fr_ag
  | |- agree _ _ _ (while_ _ (more_statements _ _) _) _ =>
      unfold more_statements; fr_ag
  | |- agree _ _ _ (while_ _ _ _) (while_ _ _ _) =>
      apply fr_agree_while; [fr_ag | solve [fr_adv]]
  | |- agree _ _ _ ?m ?m => apply fr_agree_same; solve [fr_quiet]
  end.

(** Without a [bench] the bound on the loops plays no part once it is
    above the number of tokens left. *)
Lemma fr_agree_call file :
  ~ In BENCH tokens ->
  forall d p,
    agree tokens fuel1 fuel2
      (call file tokens external fuel1 p d)
      (call file tokens external fuel2 p d).
Proof.
  intros Hb. induction d as [|d IH]; intros p.
  - destruct p; intros s _ _; split; (reflexivity || discriminate).
  - callees IH. cursor_of_callees file fuel1 d.
    pose proof (fr_advances_parse_statement file fuel1 d Hb).
    pose proof (fr_advances_call file fuel1 d Parse_meta eq_refl).
    pose proof (fr_advances_call file fuel1 d Parse_function eq_refl).
    cbn [call] in *.
    body_of p; fr_ag.
Qed.

End FrameBound.

End FrameProgress.

(** Without a token [bench] every procedure ends, whatever the frames
    left: a bound on the turns of the loops above the number of tokens left
    is never reached and plays no part in the result, which is a return,
    [SystemExit], [IndexError] or [RecursionError]. *)
Theorem recognition_ends_without_bench
    file tokens external fuel1 fuel2 d p s :
  ~ In BENCH tokens ->
  List.length tokens - pos s < fuel1 ->
  List.length tokens - pos s < fuel2 ->
  call file tokens external fuel1 p d s = call file tokens external fuel2 p d s
  /\ outcome (call file tokens external fuel1 p d s) <> Some OutOfFuel.
Proof.
  intros Hb H1 H2.
  exact (fr_agree_call tokens external fuel1 fuel2 file Hb d p s H1 H2).
Qed.

Lemma recognition_ends_without_bench_witness :
  ~ In BENCH scenario_B_tokens
  /\ call cr7_gui scenario_B_tokens 1 16 Parse_program 12 CR7Parser
     = call cr7_gui scenario_B_tokens 1 40 Parse_program 12 CR7Parser
  /\ outcome (call cr7_gui scenario_B_tokens 1 16 Parse_program 12 CR7Parser)
     <> Some OutOfFuel.
Proof.
  assert (Hb : ~ In BENCH scenario_B_tokens).
  { unfold scenario_B_tokens, BENCH. simpl. intuition discriminate. }
  split; [exact Hb|].
  apply (recognition_ends_without_bench cr7_gui scenario_B_tokens 1 16 40 12
           Parse_program CR7Parser Hb); simpl; lia.
Defined.

(** ** The driver *)

Lemma fr_log_cases file external d msg s :
  log file external d msg s = Raise RecursionError s
  \/ log file external d msg s
     = Return tt (mkState (pos s) (out s ++ [msg])).
Proof.
  unfold log, foreign. destruct file.
  - destruct (d <? external)%nat; auto.
  - destruct d; [auto|]. destruct (d <? external)%nat; auto.
Qed.

(** What [parse_program] has written when it ends: the first line, a trace
    and the last line when it returns; the first line, a trace and the one
    diagnostic when it ends in [SystemExit]; no diagnostic when it ends in
    [RecursionError]. *)
Lemma fr_program_trace file (tokens : list token) external fuel d s0 :
  exists lines,
    out (final (parse_program file tokens external fuel d s0))
    = (out s0 ++ lines)%list
    /\ match outcome (parse_program file tokens external fuel d s0) with
       | None =>
           exists trace,
             lines = header_line :: (trace ++ [completed_line])%list
             /\ Forall (fun l => is_diagnostic l = false) trace
       | Some SystemExit =>
           exists before msg t,
             lines = header_line :: (before ++ [diagnostic msg t])%list
             /\ Forall (fun l => is_diagnostic l = false) before
       | Some RecursionError =>
           Forall (fun l => is_diagnostic l = false) lines
       | Some _ => True
       end.
Proof.
  destruct d as [|d].
  { exists []. split; [now rewrite app_nil_r | constructor]. }
  remember (parse_program file tokens external fuel (S d) s0) as r eqn:Er.
  unfold parse_program in Er. fold header_line in Er.
  fold completed_line in Er. unfold bind at 1 in Er.
  destruct (fr_log_cases file external d header_line s0) as [Hl | Hl];
    rewrite Hl in Er.
  { subst r. exists []. split; [now rewrite app_nil_r | constructor]. }
  set (s1 := mkState (pos s0) (out s0 ++ [header_line])) in Er.
  pose proof (fr_written_program_tail tokens external fuel file d s1) as Hw.
  unfold respects_at in Hw. unfold bind at 1 in Er.
  match type of Er with
  | context [while_ fuel ?c ?b s1] =>
      destruct (while_ fuel c b s1) as [[] s2 | e s2]
  end; unfold written in Hw; cbn [final outcome] in Hw;
    destruct Hw as (trace & Hout & Htrace).
  - unfold bind at 1 in Er.
    destruct (fr_log_cases file external d completed_line s2) as [Hc | Hc];
      rewrite Hc in Er.
    + subst r. exists (header_line :: trace). cbn [final outcome]. split.
      * rewrite Hout. unfold s1. cbn [out]. now rewrite <- app_assoc.
      * constructor; [reflexivity | exact Htrace].
    + assert (Hr : r = Return tt (mkState (pos s2)
                                    (out s2 ++ [completed_line]))
                   \/ r = Raise RecursionError
                            (mkState (pos s2) (out s2 ++ [completed_line]))).
      { subst r. destruct file; [left; reflexivity|].
        unfold foreign. destruct (d <? external)%nat; auto. }
      exists (header_line :: trace ++ [completed_line])%list.
      destruct Hr as [-> | ->]; cbn [final outcome out]; split;
        try (rewrite Hout; unfold s1; cbn [out];
             now rewrite <- !app_assoc).
      * exists trace. split; [reflexivity | exact Htrace].
      * constructor; [reflexivity|]. apply Forall_app. split; [exact Htrace|].
        constructor; [reflexivity | constructor].
  - subst r. cbn [final outcome]. destruct e.
    + destruct Htrace as (before & msg & t & -> & Hb & _).
      exists (header_line :: before ++ [diagnostic msg t])%list. split.
      * rewrite Hout. unfold s1. cbn [out]. now rewrite <- !app_assoc.
      * eauto.
    + exists (header_line :: trace). split; [|exact I].
      rewrite Hout. unfold s1. cbn [out]. now rewrite <- app_assoc.
    + exists (header_line :: trace). split.
      * rewrite Hout. unfold s1. cbn [out]. now rewrite <- app_assoc.
      * constructor; [reflexivity | exact Htrace].
    + exists (header_line :: trace). split; [|exact I].
      rewrite Hout. unfold s1. cbn [out]. now rewrite <- app_assoc.
Qed.

(** [main] gives a verdict on every text whose tokens hold no [bench],
    whatever the frames left, and the bound on the loops plays no part in it
    once it is above the number of tokens.  The verdict is one of four.  The
    scanner refused the text: the one line printed is the lexer error and
    [main] returns.  The text is accepted: the first line, a trace without
    diagnostic and the last line are printed and [main] returns.  The text
    is refused: the first line, a trace without diagnostic and one
    diagnostic are printed and [SystemExit] leaves [main].  The recursion
    went too deep: a trace without diagnostic is printed, then the
    [RecursionError] after [[Lexer Error]], and [main] returns.  No
    [IndexError] leaves [main]. *)
Theorem main_gives_a_verdict uw ud message external d code fuel :
  (forall toks, Scanner.tokenize uw ud code = Tokens toks ->
     ~ In BENCH toks /\ List.length toks < fuel) ->
  ((exists msg, Scanner.tokenize uw ud code = RuntimeError msg
      /\ main uw ud message external fuel d code
         = (["[Lexer Error] " ++ msg], None))
   \/ (exists trace,
        main uw ud message external fuel d code
        = (header_line :: trace ++ [completed_line], None)
        /\ Forall (fun l => is_diagnostic l = false) trace)
   \/ (exists before msg t,
        main uw ud message external fuel d code
        = (header_line :: before ++ [diagnostic msg t], Some SystemExit)
        /\ Forall (fun l => is_diagnostic l = false) before)
   \/ (exists trace,
        main uw ud message external fuel d code
        = ((trace ++ [("[Lexer Error] " ++ message)%string])%list, None)
        /\ Forall (fun l => is_diagnostic l = false) trace))
  /\ forall fuel',
       (forall toks, Scanner.tokenize uw ud code = Tokens toks ->
          List.length toks < fuel') ->
       main uw ud message external fuel' d code
       = main uw ud message external fuel d code.
Proof.
  intros H. unfold main.
  destruct (Scanner.tokenize uw ud code) as [toks | msg] eqn:Ht.
  - destruct (H toks eq_refl) as [Hb Hfuel].
    assert (Hleft : forall f, List.length toks < f ->
              tokens_left toks CR7Parser < f)
      by (intros f Hf; unfold tokens_left; cbn [CR7Parser pos]; lia).
    split.
    + right.
      destruct (fr_agree_call toks external fuel fuel cr7_compiler Hb d
                  Parse_program CR7Parser (Hleft _ Hfuel) (Hleft _ Hfuel))
        as [_ Hq].
      apply ScannerFacts.tokenize_ends_in_EOF in Ht.
      assert (H0 : pos CR7Parser < List.length toks).
      { destruct Ht as (body & -> & _). rewrite length_app. simpl. lia. }
      destruct (fr_in_bounds_call toks external fuel cr7_compiler d
                  Parse_program Ht CR7Parser H0) as [_ He].
      destruct (fr_program_trace cr7_compiler toks external fuel d CR7Parser)
        as (lines & Hout & Hl).
      cbn [call] in Hq, He. cbn [CR7Parser out app] in Hout.
      destruct (parse_program cr7_compiler toks external fuel d CR7Parser)
        as [[] s' | [| | |] s']; cbn [outcome final] in *.
      * left. destruct Hl as (trace & -> & Htr). rewrite Hout. eauto.
      * right. left. destruct Hl as (before & m & t & -> & Hbf).
        rewrite Hout. eauto.
      * now contradiction He.
      * right. right. rewrite Hout. eauto.
      * now contradiction Hq.
    + intros fuel' Hfuel'. specialize (Hfuel' toks eq_refl).
      destruct (fr_agree_call toks external fuel' fuel cr7_compiler Hb d
                  Parse_program CR7Parser (Hleft _ Hfuel') (Hleft _ Hfuel))
        as [Heq _].
      cbn [call] in Heq. now rewrite Heq.
  - split; [|reflexivity]. left. eauto.
Qed.

Lemma main_gives_a_verdict_witness :
  (forall toks,
     Scanner.tokenize ascii_only ascii_only scenario_C = Tokens toks ->
     ~ In BENCH toks /\ List.length toks < 20)
  /\ ((exists msg,
         Scanner.tokenize ascii_only ascii_only scenario_C = RuntimeError msg
         /\ main ascii_only ascii_only "maximum recursion depth exceeded"
              0 20 30 scenario_C
            = (["[Lexer Error] " ++ msg], None))
      \/ (exists trace,
           main ascii_only ascii_only "maximum recursion depth exceeded"
             0 20 30 scenario_C
           = (header_line :: trace ++ [completed_line], None)
           /\ Forall (fun l => is_diagnostic l = false) trace)
      \/ (exists before msg t,
           main ascii_only ascii_only "maximum recursion depth exceeded"
             0 20 30 scenario_C
           = (header_line :: before ++ [diagnostic msg t], Some SystemExit)
           /\ Forall (fun l => is_diagnostic l = false) before)
      \/ (exists trace,
           main ascii_only ascii_only "maximum recursion depth exceeded"
             0 20 30 scenario_C
           = ((trace ++ ["[Lexer Error] maximum recursion depth exceeded"])%list,
              None)
           /\ Forall (fun l => is_diagnostic l = false) trace))
  /\ forall fuel',
       (forall toks,
          Scanner.tokenize ascii_only ascii_only scenario_C = Tokens toks ->
          List.length toks < fuel') ->
       main ascii_only ascii_only "maximum recursion depth exceeded"
         0 fuel' 30 scenario_C
       = main ascii_only ascii_only "maximum recursion depth exceeded"
           0 20 30 scenario_C.
Proof.
  assert (Hb : forall toks,
            Scanner.tokenize ascii_only ascii_only scenario_C = Tokens toks ->
            ~ In BENCH toks /\ List.length toks < 20).
  { intros toks H.
    change (Tokens scenario_C_tokens = Tokens toks) in H.
    injection H as <-. split; [|simpl; lia].
    unfold scenario_C_tokens, BENCH. simpl. intuition discriminate. }
  split; [exact Hb|].
  apply (main_gives_a_verdict ascii_only ascii_only
           "maximum recursion depth exceeded" 0 30 scenario_C 20 Hb).
Defined.

(** Nesting deeper than the frames left is the fourth verdict: with twelve
    frames for [parse_program], two pairs of parentheses around a number
    end in [RecursionError], which [main] prints as a lexer error after the
    first line; with sixteen frames the same text is accepted. *)
Lemma deep_nesting_is_printed_as_a_lexer_error :
  main ascii_only ascii_only "maximum recursion depth exceeded" 0 30 12
    "play main() { x = ((1)); }"
  = ([header_line; "[Lexer Error] maximum recursion depth exceeded"], None)
  /\ main ascii_only ascii_only "maximum recursion depth exceeded" 0 30 16
       "play main() { x = ((1)); }"
     = ([header_line; "→ Assignment parsed"; "→ Function parsed";
         completed_line], None).
Proof. split; reflexivity. Qed.

End FramesFacts.
